(** * DiceForge core: a shallow embedding of [include/diceforge_core.h]

    The header defines
    - [BigInt128], a 128-bit unsigned integer held as four 32-bit limbs in
      64-bit words, with the in-place mutators [square] and [mod] and the
      output routine [print];
    - [Generator<T>], the base class of every random number generator, with
      the derived sampling operations [next_unit], [next_in_range],
      [next_in_crange], [choice] (plain and weighted) and [shuffle].

    Machine integers are modelled as [Z] with the wrap-around written out,
    [real_t] (an IEEE 754 binary64) as [spec_float] with [prec = 53] and
    [emax = 1024], and the generator as explicit state passing over the tape
    of raw values that [generate()] is going to return.

    What the model takes from the platform rather than from the header:
    - [T] is a 32-bit or a 64-bit unsigned integer, [int] is 32 bits wide,
      [int64_t] and [real_t] are 64 bits wide;
    - floating-point operations round to nearest, ties to even, each
      operation on its own (no fused multiply-add);
    - a conversion from an unsigned integer to [int64_t] keeps the low 64
      bits (two's complement);
    - what the language leaves undefined (reading past the end of a
      container, a floating-point value that does not fit the integer it is
      cast to, signed overflow, an assignment to an object that was never
      constructed) is a result of its own, [Undefined]. *)

From Stdlib Require Import String Ascii.
From Stdlib Require Import ZArith List Bool Lia Permutation.
From Stdlib Require Import Floats.SpecFloat.
From Stdlib Require Import DecimalString DecimalN.
Import ListNotations.

Local Open Scope Z_scope.

(** ** Fixed-width unsigned arithmetic *)

Definition wrap (w : Z) (z : Z) : Z := z mod 2 ^ w.

Definition u64 : Z -> Z := wrap 64.
Definition u128 : Z -> Z := wrap 128.

(** [arr[i] = v] on a C array modelled as a list; the callers below only
    write inside the array. *)
Fixpoint upd {A} (l : list A) (i : nat) (v : A) : list A :=
  match l, i with
  | [], _ => []
  | _ :: t, O => v :: t
  | h :: t, S i' => h :: upd t i' v
  end.

Definition get (l : list Z) (i : nat) : Z := nth i l 0.

(** ** BigInt128 *)

Module BigInt128.

(** [uint64_t data[4]], limb 0 least significant. *)
Definition t := list Z.

Definition _2_32 : Z := Z.shiftl 1 32.

(** The constructor [BigInt128(d0, d1, d2, d3)]. *)
Definition make (d0 d1 d2 d3 : Z) : t := [d0; d1; d2; d3].

(** The number a limb array stands for. *)
Definition value (b : t) : Z :=
  get b 0 + get b 1 * 2 ^ 32 + get b 2 * 2 ^ 64 + get b 3 * 2 ^ 96.

(** The body of the inner loop of [square]:
    [product[i + j] += data[i] * data[j];
     product[i + j + 1] += product[i + j] >> 32;] *)
Definition square_body (data : t) (i j : nat) (product : list Z) : list Z :=
  let product1 :=
    upd product (i + j) (u64 (get product (i + j) + u64 (get data i * get data j))) in
  upd product1 (i + j + 1)
      (u64 (get product1 (i + j + 1) + Z.shiftr (get product1 (i + j)) 32)).

(** [for (int j = 0; j < 4; ++j)] inside [for (int i = 0; i < 4; ++i)]. *)
Definition square_product (data : t) : list Z :=
  fold_left
    (fun product i =>
       fold_left (fun product j => square_body data i j product) (seq 0 4) product)
    (seq 0 4)
    [0; 0; 0; 0; 0; 0; 0; 0].

(** [void square()]: the last loop stores [product[i] & 0xFFFFFFFF]. *)
Definition square (data : t) : t :=
  let product := square_product data in
  fold_left (fun d i => upd d i (Z.land (get product i) 0xFFFFFFFF)) (seq 0 4) data.

(** The test of the slow path of [mod]. *)
Definition needs_reduction (data : t) (n : Z) : bool :=
  let p1 := Z.shiftr n 32 in
  let p2 := n mod _2_32 in
  (get data 3 >? 0) || (get data 2 >? 0) || (get data 1 >? p1)
  || ((get data 1 =? p1) && (get data 0 >? p2)).

(** One turn of [res = ((res * _2_32) % n + data[i] % n) % n] on a
    [uint128_t] accumulator. *)
Definition mod_step (data : t) (n : Z) (res : Z) (i : nat) : Z :=
  u128 (u128 (u128 (u128 (res * _2_32) mod n) + get data i mod n) mod n).

(** [void mod(uint64_t n)].  [None] is the division by zero that the slow
    path runs into when [n = 0]. *)
Definition mod_ (data : t) (n : Z) : option t :=
  if needs_reduction data n then
    if n =? 0 then None
    else
      let res := fold_left (mod_step data n) [3; 2; 1; 0]%nat 0 in
      let data := upd data 3 0 in
      let data := upd data 2 0 in
      let data := upd data 1 (u64 (Z.shiftr res 32)) in
      let data := upd data 0 (u64 (Z.land res 0xFFFFFFFF)) in
      Some data
  else Some data.

(** [std::cout << x] for a [uint64_t x]: the decimal digits of [x]. *)
Definition decimal (x : Z) : string :=
  NilEmpty.string_of_uint (N.to_uint (Z.to_N x)).

(** [void print() const], as what it appends to the output stream: the
    limbs from [data[3]] down to [data[0]], each followed by a space. *)
Definition print (data : t) (out : string) : string :=
  fold_left (fun out i => (out ++ decimal (get data i) ++ " ")%string)
            [3; 2; 1; 0]%nat out.

End BigInt128.

(** A string without a space, for the proofs about [print]. *)
Fixpoint no_space (s : string) : Prop :=
  match s with
  | EmptyString => True
  | String c s' => c <> " "%char /\ no_space s'
  end.


(** ** real_t: IEEE 754 binary64 *)

Definition prec : Z := 53.
Definition emax : Z := 1024.

Definition real_t := spec_float.

Definition fadd : real_t -> real_t -> real_t := SFadd prec emax.
Definition fsub : real_t -> real_t -> real_t := SFsub prec emax.
Definition fmul : real_t -> real_t -> real_t := SFmul prec emax.
Definition fdiv : real_t -> real_t -> real_t := SFdiv prec emax.
Definition feqb : real_t -> real_t -> bool := SFeqb.
Definition fltb : real_t -> real_t -> bool := SFltb.
Definition fleb : real_t -> real_t -> bool := SFleb.

(** Conversion of an integer to [real_t], rounding to nearest even. *)
Definition of_Z (z : Z) : real_t := binary_normalize prec emax z 0 false.

Definition f_zero : real_t := S754_zero false.
Definition f_one : real_t := of_Z 1.

(** [floor(x)] of a finite [x], as the integer it denotes ([floor] of a
    binary64 is a binary64 again, so nothing is lost); [None] for an
    infinity or a NaN. *)
Definition floorZ (x : real_t) : option Z :=
  match x with
  | S754_zero _ => Some 0
  | S754_finite s m e => Some (Z.shiftl (cond_Zopp s (Zpos m)) e)
  | S754_infinity _ | S754_nan => None
  end.

Definition is_zero (x : real_t) : Prop :=
  match x with S754_zero _ => True | _ => False end.

(** *** The format, for the proofs *)

Definition f_emin : Z := -1074.
Definition f_fexp (e : Z) : Z := Z.max (e - 53) f_emin.

(** The value of a float in units of the smallest subnormal, [2^-1074]. *)
Definition V (x : real_t) : Z :=
  match x with
  | S754_finite _ m e => Z.pos m * 2 ^ (e - f_emin)
  | _ => 0
  end.

(** A zero, or a positive float in canonical form that is in range. *)
Definition good (x : real_t) : Prop :=
  match x with
  | S754_zero _ => True
  | S754_finite false m e =>
      f_fexp (Z.pos (digits2_pos m) + e) = e /\ e <= emax - prec
  | _ => False
  end.

(** A zero or a finite float of either sign, in canonical form and in
    range: the values a binary64 variable holds besides infinities and
    NaN. *)
Definition valid (x : real_t) : Prop :=
  match x with
  | S754_zero _ => True
  | S754_finite _ m e =>
      f_fexp (Z.pos (digits2_pos m) + e) = e /\ e <= emax - prec
  | _ => False
  end.

(** The signed value, in units of [2^-1074]. *)
Definition SV (x : real_t) : Z :=
  match x with
  | S754_finite true m e => - (Z.pos m * 2 ^ (e - f_emin))
  | S754_finite false m e => Z.pos m * 2 ^ (e - f_emin)
  | _ => 0
  end.

(** The mantissa picked by rounding [m * 2^e] (with the location [l] of the
    exact value above it) to the exponent [e + n]. *)
Definition rnd_ok (m n : Z) (l : location) (m1 : Z) : Prop :=
  (m1 = m / 2 ^ n /\ (l = loc_Exact -> 2 * (m mod 2 ^ n) <= 2 ^ n))
  \/ (m1 = m / 2 ^ n + 1
      /\ ((n = 0 /\ l <> loc_Exact) \/ (0 < n /\ 2 ^ n <= 2 * (m mod 2 ^ n)))).

(** The float that [binary_round_aux] packs from the rounded mantissa. *)
Definition is_rounding (s : bool) (m1 e1 : Z) (r : real_t) : Prop :=
  (m1 = 0 /\ r = S754_zero s)
  \/ (exists m2 e2,
         e1 <= e2
         /\ Z.pos m2 * 2 ^ (e2 - e1) = m1
         /\ f_fexp (Z.pos (digits2_pos m2) + e2) = e2
         /\ r = if e2 <=? emax - prec then S754_finite s m2 e2 else S754_infinity s).

(** ** Outcomes of a call *)

Inductive exn := invalid_argument (what : string).

Inductive ub :=
| OutOfBounds (i : Z)     (** an element read at index [i] outside the sequence *)
| CastOutOfRange          (** a [real_t] that [int64_t] cannot hold is cast to it *)
| SignedOverflow          (** signed integer arithmetic leaves its type *)
| UnconstructedObject.    (** an assignment to an object that was never constructed *)

(** The tape holds the raw values that [generate()] returns next. *)
Definition tape := list Z.

Inductive result (A : Type) :=
| Ok (a : A) (rest : tape)
| Throw (e : exn) (rest : tape)
| Undefined (u : ub)
| Starved.                (** the tape ran out while a loop was still asking *)

Arguments Ok {A} a rest.
Arguments Throw {A} e rest.
Arguments Undefined {A} u.
Arguments Starved {A}.

Definition M (A : Type) := tape -> result A.

Definition ret {A} (a : A) : M A := fun t => Ok a t.

Definition bind {A B} (m : M A) (f : A -> M B) : M B :=
  fun t =>
    match m t with
    | Ok a t' => f a t'
    | Throw e t' => Throw e t'
    | Undefined u => Undefined u
    | Starved => Starved
    end.

Definition throw {A} (e : exn) : M A := fun t => Throw e t.
Definition undefined {A} (u : ub) : M A := fun _ => Undefined u.

Notation "x <- m ;; k" := (bind m (fun x => k))
  (at level 61, m at next level, right associativity).

(** ** The template parameter T *)

(** "An unsigned integer (usually 32 or 64 bit)". *)
Inductive uint_t := U32 | U64.

Definition bits (T : uint_t) : Z :=
  match T with U32 => 32 | U64 => 64 end.

Definition T_wrap (T : uint_t) (z : Z) : Z := wrap (bits T) z.

(** [std::numeric_limits<T>().max()] *)
Definition T_max (T : uint_t) : Z := 2 ^ bits T - 1.

Definition int64_min : Z := - 2 ^ 63.
Definition int64_max : Z := 2 ^ 63 - 1.

(** Conversion of an unsigned 64-bit value to [int64_t]. *)
Definition to_int64 (z : Z) : Z :=
  let z := u64 z in if z <? 2 ^ 63 then z else z - 2 ^ 64.

(** [(int64_t) floor(x)] *)
Definition cast_int64_floor (x : real_t) : option Z :=
  match floorZ x with
  | Some k => if (int64_min <=? k) && (k <=? int64_max) then Some k else None
  | None => None
  end.

(** ** Weights *)

(** The weighted [choice] is a template over the value type of the weight
    iterator.  It uses that type in three places: [prev = 0], the sum
    [prev + *it], and the conversion to [real_t] when a weight meets the
    unit draw in a product or a comparison. *)
Class Weight (W : Type) := {
  w_zero : W;
  w_add : W -> W -> option W;   (** [None]: the sum leaves a signed integer type *)
  w_real : W -> real_t
}.

Definition in_int (z : Z) : bool := (- 2 ^ 31 <=? z) && (z <? 2 ^ 31).

(** Weights of type [int]. *)
#[export] Instance int_Weight : Weight Z := {
  w_zero := 0;
  w_add := fun a b => if in_int (a + b) then Some (a + b) else None;
  w_real := of_Z
}.

(** Weights of type [real_t]. *)
#[export] Instance real_Weight : Weight real_t := {
  w_zero := f_zero;
  w_add := fun a b => Some (fadd a b);
  w_real := fun a => a
}.

(** The loop that fills [cumulative_weights], [prev] being the last sum. *)
Fixpoint cumulate {W} `{Weight W} (prev : W) (ws : list W) : option (list W) :=
  match ws with
  | [] => Some []
  | w :: ws' =>
      match w_add prev w with
      | None => None
      | Some c =>
          match cumulate c ws' with
          | None => None
          | Some cs => Some (c :: cs)
          end
      end
  end.

(** For weights of type [int]: the prefix sums that the loop computes when
    no sum leaves [int], and the total weight. *)
Fixpoint psums (prev : Z) (ws : list Z) : list Z :=
  match ws with
  | [] => []
  | w :: ws' => (prev + w) :: psums (prev + w) ws'
  end.

Definition total (ws : list Z) : Z := fold_right Z.add 0 ws.

(** [std::upper_bound(first, last, u)] with the default comparison
    [u < *middle]: the halving search of the standard library. *)
Fixpoint upper_bound_loop {W} `{Weight W} (fuel : nat) (c : list W) (u : real_t)
         (first len : nat) : nat :=
  match fuel with
  | O => first
  | S fuel' =>
      match len with
      | O => first
      | _ =>
          let half := Nat.div2 len in
          let middle := (first + half)%nat in
          if fltb u (w_real (nth middle c w_zero))
          then upper_bound_loop fuel' c u first half
          else upper_bound_loop fuel' c u (S middle) (len - half - 1)
      end
  end.

Definition upper_bound {W} `{Weight W} (c : list W) (u : real_t) : nat :=
  upper_bound_loop (List.length c) c u 0 (List.length c).

(** For weights of type [real_t]: the cumulative weights that the loop
    computes. *)
Fixpoint rsums (prev : real_t) (ws : list real_t) : list real_t :=
  match ws with
  | [] => []
  | w :: ws' => fadd prev w :: rsums (fadd prev w) ws'
  end.

(** The test of the search at index [i]: [u < c[i]]. *)
Definition exceeds {W} `{Weight W} (c : list W) (u : real_t) (i : nat) : bool :=
  fltb u (w_real (nth i c w_zero)).

(** [v.erase(v.begin() + i)] *)
Definition erase {A} (v : list A) (i : nat) : list A :=
  firstn i v ++ skipn (S i) v.

(** ** Element types *)

(** [shuffle] keeps its copy of the sequence in storage that comes from
    [malloc], where no object has been constructed, and assigns the
    elements into it.  That is defined for an element type that is
    trivially copyable ([int], [double], a pointer, a plain struct) and
    undefined for one with an assignment operator of its own
    ([std::string], [std::vector]): the operator works on an object that
    does not exist. *)
Class Element (A : Type) := { trivially_copyable : bool }.

(** Elements of an integer type. *)
#[export] Instance int_Element : Element Z := { trivially_copyable := true }.


(** ** Generator<T> *)

Module Generator.
Section Generator.

Variable T : uint_t.

(** [virtual T generate() = 0]: the next raw value, as a value of [T]. *)
Definition generate : M Z :=
  fun t =>
    match t with
    | [] => Starved
    | g :: rest => Ok (T_wrap T g) rest
    end.

(** [T next()] *)
Definition next : M Z := generate.

(** The candidate [generate() / real_t(std::numeric_limits<T>().max())]. *)
Definition unit_of (g : Z) : real_t := fdiv (of_Z g) (of_Z (T_max T)).

(** [real_t next_unit()]: [x] starts at [1.0], so the body runs at least
    once, and runs again as long as the candidate is [1.0]. *)
Fixpoint next_unit (t : tape) : result real_t :=
  match t with
  | [] => Starved
  | g :: rest =>
      let x := unit_of (T_wrap T g) in
      if feqb x f_one then next_unit rest else Ok x rest
  end.

(** [(int64_t) floor(...) + min], and the conversion of the sum to the
    return type [int64_t].  For a 32-bit [T] the sum is an [int64_t]; for
    a 64-bit [T] the usual arithmetic conversions make it a [uint64_t],
    which the return converts back. *)
Definition add_min (k min : Z) : option Z :=
  match T with
  | U32 =>
      if (int64_min <=? k + min) && (k + min <=? int64_max)
      then Some (k + min) else None
  | U64 => Some (to_int64 (u64 (u64 k + min)))
  end.

(** [int64_t next_in_range(T min, T max)] *)
Definition next_in_range (min max : Z) : M Z :=
  x <- next_unit ;;
  match cast_int64_floor (fmul x (of_Z (T_wrap T (max - min + 1)))) with
  | None => undefined CastOutOfRange
  | Some k =>
      match add_min k min with
      | None => undefined SignedOverflow
      | Some r => ret r
      end
  end.

(** The loop of [next_in_crange]: [while (x == max) x = (max - min) * next_unit() + min]. *)
Fixpoint crange_loop (fuel : nat) (min max x : real_t) (t : tape) : result real_t :=
  if feqb x max then
    match fuel with
    | O => Starved
    | S fuel' =>
        match next_unit t with
        | Ok u rest => crange_loop fuel' min max (fadd (fmul (fsub max min) u) min) rest
        | Throw e rest => Throw e rest
        | Undefined u => Undefined u
        | Starved => Starved
        end
    end
  else Ok x t.

(** [real_t next_in_crange(real_t min, real_t max)].  Every turn of the
    loop takes at least one value off the tape, so one more turn than the
    tape is long is fuel enough. *)
Definition next_in_crange (min max : real_t) : M real_t :=
  fun t => crange_loop (S (List.length t)) min max max t.

(** [*(first + i)] for an [int64_t i]. *)
Definition deref {A} (s : list A) (i : Z) : M A :=
  if i <? 0 then undefined (OutOfBounds i)
  else match nth_error s (Z.to_nat i) with
       | Some a => ret a
       | None => undefined (OutOfBounds i)
       end.

(** [auto choice(first, last)] *)
Definition choice {A} (s : list A) : M A :=
  i <- next_in_range (T_wrap T 0) (T_wrap T (Z.of_nat (List.length s) - 1)) ;;
  deref s i.

(** [auto choice(first, last, weights_first, weights_last)] *)
Definition choice_weighted {A W} `{Weight W} (s : list A) (ws : list W) : M A :=
  if negb (List.length s =? List.length ws)%nat then
    throw (invalid_argument "Lengths of sequence and weight sequence must be equal!")
  else if (List.length s =? 0)%nat then
    throw (invalid_argument "Sequence must have non-zero length!")
  else
    match cumulate w_zero ws with
    | None => undefined SignedOverflow
    | Some c =>
        x <- next_unit ;;
        deref s (Z.of_nat (upper_bound c (fmul x (w_real (last c w_zero)))))
    end.

(** The second loop of [shuffle_array]; [n] turns are left, [i] is the
    loop counter and [v] the pool. *)
Fixpoint shuffle_loop {A} (n : nat) (len : Z) (i : nat) (arr v : list A) : M (list A) :=
  match n with
  | O => ret arr
  | S n' =>
      r <- next_in_range (T_wrap T 0) (T_wrap T (len - Z.of_nat i - 1)) ;;
      let ind := T_wrap T r in
      match nth_error v (Z.to_nat ind) with
      | None => undefined (OutOfBounds ind)
      | Some a => shuffle_loop n' len (S i) (upd arr i a) (erase v (Z.to_nat ind))
      end
  end.

(** [void shuffle_array(other_T arr[], T len)].  The counter [i] is an
    [int], so a [len] of [2^31] or more makes it overflow. *)
Definition shuffle_array {A} (arr : list A) (len : Z) : M (list A) :=
  if 2 ^ 31 <=? len then undefined SignedOverflow
  else shuffle_loop (Z.to_nat len) len 0 arr (firstn (Z.to_nat len) arr).

(** The first loop of [shuffle], [temp[it - first] = *it]: each turn assigns
    to an element of the storage that [malloc] returned. *)
Definition copy_to_raw {A} `{Element A} (s : list A) : M (list A) :=
  match s with
  | [] => ret []
  | _ :: _ => if trivially_copyable then ret s else undefined UnconstructedObject
  end.

(** [void shuffle(first, last)]: copy out, [shuffle_array], copy back. *)
Definition shuffle {A} `{Element A} (s : list A) : M (list A) :=
  temp <- copy_to_raw s ;;
  shuffle_array temp (T_wrap T (Z.of_nat (List.length s))).

End Generator.
End Generator.


(** * Properties *)

(** ** Fixed-width arithmetic *)

Lemma wrap_small w z : 0 <= z < 2 ^ w -> wrap w z = z.
Proof. intros; unfold wrap; now apply Z.mod_small. Qed.

Lemma wrap_range w z : 0 <= w -> 0 <= wrap w z < 2 ^ w.
Proof. intros; unfold wrap; apply Z.mod_pos_bound; now apply Z.pow_pos_nonneg. Qed.

Lemma land_mask32 z : Z.land z 0xFFFFFFFF = z mod 2 ^ 32.
Proof. change 0xFFFFFFFF with (Z.ones 32); now rewrite Z.land_ones. Qed.

Lemma horner_mod x c d n :
  n <> 0 -> ((x mod n) * c + d) mod n = (x * c + d) mod n.
Proof.
  intros Hn.
  rewrite <- (Z.add_mod_idemp_l (x mod n * c)) by assumption.
  rewrite Z.mul_mod_idemp_l by assumption.
  now rewrite Z.add_mod_idemp_l.
Qed.

(** ** BigInt128 *)

Section BigInt128_facts.
Import BigInt128.

Variables d0 d1 d2 d3 : Z.
Hypothesis H0 : 0 <= d0 < 2 ^ 32.
Hypothesis H1 : 0 <= d1 < 2 ^ 32.
Hypothesis H2 : 0 <= d2 < 2 ^ 32.
Hypothesis H3 : 0 <= d3 < 2 ^ 32.

Local Abbreviation b := (make d0 d1 d2 d3).

Lemma value_make : value b = d0 + d1 * 2 ^ 32 + d2 * 2 ^ 64 + d3 * 2 ^ 96.
Proof. reflexivity. Qed.

Lemma value_range : 0 <= value b < 2 ^ 128.
Proof. rewrite value_make; lia. Qed.

(** The slow path is taken exactly when the value exceeds the modulus:
    a value equal to the modulus stays on the fast path. *)
Lemma needs_reduction_iff n :
  0 <= n < 2 ^ 64 -> needs_reduction b n = true <-> n < value b.
Proof.
  intros Hn. rewrite value_make.
  unfold needs_reduction, get, make, _2_32; cbn [nth].
  rewrite Z.shiftr_div_pow2 by lia. change (Z.shiftl 1 32) with (2 ^ 32).
  pose proof (Z.div_mod n (2 ^ 32) ltac:(lia)) as E.
  pose proof (Z.mod_pos_bound n (2 ^ 32) ltac:(lia)) as Hm.
  assert (0 <= n / 2 ^ 32 < 2 ^ 32) as Hq.
  { split; [apply Z.div_pos; lia | apply Z.div_lt_upper_bound; lia]. }
  rewrite !orb_true_iff, andb_true_iff, !Z.gtb_lt, Z.eqb_eq.
  split.
  - intros [[[C | C] | C] | [C1 C2]]; nia.
  - intros C.
    destruct (Z.lt_ge_cases 0 d3); [now left; left; left|].
    destruct (Z.lt_ge_cases 0 d2); [now left; left; right|].
    destruct (Z.lt_ge_cases (n / 2 ^ 32) d1); [now left; right|].
    right. split; nia.
Qed.

Lemma mod_step_eq n res i :
  1 <= n < 2 ^ 64 -> 0 <= res < n -> 0 <= get b i < 2 ^ 32 ->
  mod_step b n res i = (res * 2 ^ 32 + get b i) mod n.
Proof.
  intros Hn Hr Hd. unfold mod_step, u128, _2_32.
  change (Z.shiftl 1 32) with (2 ^ 32).
  pose proof (Z.mod_pos_bound (res * 2 ^ 32) n ltac:(lia)).
  pose proof (Z.mod_pos_bound (get b i) n ltac:(lia)).
  rewrite (wrap_small 128 (res * 2 ^ 32)) by nia.
  rewrite (wrap_small 128 ((res * 2 ^ 32) mod n)) by lia.
  rewrite (wrap_small 128 (_ + _)) by lia.
  rewrite <- Z.add_mod by lia.
  apply wrap_small.
  pose proof (Z.mod_pos_bound (res * 2 ^ 32 + get b i) n ltac:(lia)). lia.
Qed.

(** The Horner loop of the slow path computes the remainder. *)
Lemma horner_eq n :
  1 <= n < 2 ^ 64 ->
  fold_left (mod_step b n) [3; 2; 1; 0]%nat 0 = value b mod n.
Proof.
  intros Hn. cbn [fold_left].
  assert (forall z, 0 <= z mod n < n) as Hb by (intro; apply Z.mod_pos_bound; lia).
  rewrite (mod_step_eq n 0 3) by (cbn; lia).
  rewrite (mod_step_eq n _ 2), horner_mod by (cbn; auto; lia).
  rewrite (mod_step_eq n _ 1), horner_mod by (cbn; auto; lia).
  rewrite (mod_step_eq n _ 0), horner_mod by (cbn; auto; lia).
  rewrite value_make. unfold get, make; cbn [nth].
  f_equal. ring.
Qed.

(** Away from the one value [n] itself, [mod] is the remainder. *)
Lemma mod_correct_off_modulus n :
  1 <= n < 2 ^ 64 -> value b <> n ->
  exists r0 r1,
    mod_ b n = Some (make r0 r1 0 0)
    /\ 0 <= r0 < 2 ^ 32 /\ 0 <= r1 < 2 ^ 32
    /\ value (make r0 r1 0 0) = value b mod n
    /\ (value b < n -> make r0 r1 0 0 = b).
Proof.
  intros Hn Hne. unfold mod_.
  destruct (needs_reduction b n) eqn:E.
  - apply needs_reduction_iff in E; [|lia].
    replace (n =? 0) with false by (symmetry; apply Z.eqb_neq; lia).
    rewrite horner_eq by lia.
    set (res := value b mod n).
    assert (0 <= res < n) as Hres by (apply Z.mod_pos_bound; lia).
    exists (u64 (Z.land res 0xFFFFFFFF)), (u64 (Z.shiftr res 32)).
    rewrite land_mask32, Z.shiftr_div_pow2 by lia.
    pose proof (Z.mod_pos_bound res (2 ^ 32) ltac:(lia)).
    assert (0 <= res / 2 ^ 32 < 2 ^ 32).
    { split; [apply Z.div_pos; lia | apply Z.div_lt_upper_bound; lia]. }
    unfold u64. rewrite !wrap_small by lia.
    repeat split; try lia.
    unfold value, get, make; cbn [nth].
    pose proof (Z.div_mod res (2 ^ 32) ltac:(lia)). lia.
  - assert (~ n < value b) as Hle.
    { intro C. apply needs_reduction_iff in C; [congruence | lia]. }
    assert (value b < n) as Hlt by lia.
    rewrite value_make in Hlt.
    assert (d3 = 0) as E3 by nia. assert (d2 = 0) as E2 by nia.
    exists d0, d1. rewrite (Z.mod_small (value b) n) by (rewrite value_make; lia).
    rewrite !value_make. unfold make. rewrite E2, E3.
    repeat split; try lia.
Qed.

(** A value equal to the modulus is left as it is. *)
Lemma mod_at_modulus n :
  0 <= n < 2 ^ 64 -> value b = n -> mod_ b n = Some b.
Proof.
  intros Hn E. unfold mod_.
  destruct (needs_reduction b n) eqn:C; [|reflexivity].
  apply needs_reduction_iff in C; lia.
Qed.

End BigInt128_facts.

(** C2.  A value equal to the modulus is not reduced: for every 64-bit
    [n >= 1], [mod(n)] leaves the limbs of [n] itself as they are, while
    [n mod n] is 0.  (Every other value is reduced as the claim says,
    [mod_correct_off_modulus].) *)
Theorem mod_misses_value_equal_to_modulus n :
  1 <= n < 2 ^ 64 ->
  let b := BigInt128.make (n mod 2 ^ 32) (n / 2 ^ 32) 0 0 in
  BigInt128.value b = n
  /\ BigInt128.mod_ b n = Some b
  /\ BigInt128.value b <> BigInt128.value b mod n.
Proof.
  intros Hn b.
  pose proof (Z.mod_pos_bound n (2 ^ 32) ltac:(lia)) as Hm.
  assert (0 <= n / 2 ^ 32 < 2 ^ 32) as Hq.
  { split; [apply Z.div_pos; lia | apply Z.div_lt_upper_bound; lia]. }
  assert (BigInt128.value b = n) as Hv.
  { unfold b. rewrite value_make.
    pose proof (Z.div_mod n (2 ^ 32) ltac:(lia)). lia. }
  split; [exact Hv|]. split.
  - apply mod_at_modulus; try assumption; lia.
  - rewrite Hv, Z.mod_same by lia. lia.
Qed.

Lemma mod_misses_value_equal_to_modulus_witness :
  BigInt128.value (BigInt128.make 7 0 0 0) = 7
  /\ BigInt128.mod_ (BigInt128.make 7 0 0 0) 7 = Some (BigInt128.make 7 0 0 0)
  /\ BigInt128.value (BigInt128.make 7 0 0 0) <> BigInt128.value (BigInt128.make 7 0 0 0) mod 7.
Proof.
  apply (mod_misses_value_equal_to_modulus 7). lia.
Defined.

(** X4.  Whatever the limbs it starts from, [square] leaves every limb in
    [[0, 2^32)]: the limbs it stores are masked to 32 bits. *)
Lemma square_limbs_in_range d0 d1 d2 d3 :
  exists r0 r1 r2 r3,
    BigInt128.square (BigInt128.make d0 d1 d2 d3) = BigInt128.make r0 r1 r2 r3
    /\ 0 <= r0 < 2 ^ 32 /\ 0 <= r1 < 2 ^ 32 /\ 0 <= r2 < 2 ^ 32 /\ 0 <= r3 < 2 ^ 32.
Proof.
  unfold BigInt128.square.
  set (product := BigInt128.square_product _).
  cbn [seq fold_left BigInt128.make upd].
  rewrite !land_mask32.
  do 4 eexists. split; [reflexivity|].
  repeat split; apply Z.mod_pos_bound; lia.
Qed.

(** The vector of the specification. *)
Lemma square_then_mod_vector :
  BigInt128.square (BigInt128.make 5 0 0 0) = BigInt128.make 25 0 0 0
  /\ BigInt128.mod_ (BigInt128.make 25 0 0 0) 7 = Some (BigInt128.make 4 0 0 0).
Proof. split; reflexivity. Qed.

(** C3.  [square] adds the carry of a partial sum to the next limb again
    each time that sum is touched: from limbs [[2^31, 2, 0, 0]] it leaves
    [[0, 2^30, 7, 0]], while the square of that value modulo [2^128] has
    limbs [[0, 2^30, 6, 0]]. *)
Theorem square_counts_carry_twice :
  let b := BigInt128.make (2 ^ 31) 2 0 0 in
  BigInt128.square b = BigInt128.make 0 (2 ^ 30) 7 0
  /\ (BigInt128.value b * BigInt128.value b) mod 2 ^ 128
     = BigInt128.value (BigInt128.make 0 (2 ^ 30) 6 0)
  /\ BigInt128.value (BigInt128.square b)
     <> (BigInt128.value b * BigInt128.value b) mod 2 ^ 128.
Proof. repeat split. vm_compute. discriminate. Qed.

(** ** Rounding to binary64 *)


Lemma fexp_eq e : fexp prec emax e = f_fexp e.
Proof. reflexivity. Qed.

Lemma digits2_pos_size p : digits2_pos p = Pos.size p.
Proof. induction p; cbn; now rewrite ?IHp. Qed.

Lemma Zdigits2_log2 m : 0 < m -> Zdigits2 m = Z.log2 m + 1.
Proof.
  destruct m as [|p|p]; try lia; intros _. cbn [Zdigits2].
  rewrite digits2_pos_size. destruct p; cbn; lia.
Qed.

Lemma Zdigits2_bounds m :
  0 < m -> 2 ^ (Zdigits2 m - 1) <= m < 2 ^ Zdigits2 m.
Proof.
  intros Hm. rewrite Zdigits2_log2 by assumption.
  replace (Z.log2 m + 1 - 1) with (Z.log2 m) by lia.
  apply Z.log2_spec; assumption.
Qed.

Lemma Zdigits2_unique m k :
  2 ^ (k - 1) <= m < 2 ^ k -> 1 <= k -> Zdigits2 m = k.
Proof.
  intros H Hk.
  assert (0 < m) by (pose proof (Z.pow_pos_nonneg 2 (k - 1)); lia).
  rewrite Zdigits2_log2 by assumption.
  rewrite (Z.log2_unique m (k - 1)); try lia.
  now replace (Z.succ (k - 1)) with k by lia.
Qed.

Lemma Zdigits2_pos m : 0 < m -> 1 <= Zdigits2 m.
Proof.
  intros. rewrite Zdigits2_log2 by assumption. pose proof (Z.log2_nonneg m). lia.
Qed.

Lemma Zdigits2_le_pow m k : 0 < m -> m < 2 ^ k -> 0 <= k -> Zdigits2 m <= k.
Proof.
  intros Hm Hk H0.
  destruct (Z.le_gt_cases (Zdigits2 m) k) as [|C]; [assumption|].
  pose proof (Zdigits2_bounds m Hm) as [L _].
  assert (2 ^ k <= 2 ^ (Zdigits2 m - 1)) by (apply Z.pow_le_mono_r; lia).
  lia.
Qed.

Lemma Zdigits2_ge_pow m k : 2 ^ k <= m -> 0 <= k -> k + 1 <= Zdigits2 m.
Proof.
  intros Hk H0.
  assert (0 < m) by (pose proof (Z.pow_pos_nonneg 2 k); lia).
  destruct (Z.le_gt_cases (k + 1) (Zdigits2 m)) as [|C]; [assumption|].
  pose proof (Zdigits2_bounds m H) as [_ U].
  assert (2 ^ Zdigits2 m <= 2 ^ k).
  { apply Z.pow_le_mono_r; try lia. }
  lia.
Qed.

(** [shr_1] halves a non-negative mantissa and remembers what fell off. *)
Lemma shr_1_nonneg m r s :
  0 <= m ->
  shr_1 (Build_shr_record m r s) = Build_shr_record (m / 2) (Z.odd m) (r || s).
Proof.
  intros Hm. destruct m as [|p|p]; [reflexivity| |lia].
  destruct p as [p|p|]; cbn [shr_1].
  - f_equal. rewrite Pos2Z.inj_xI. apply Z.div_unique with 1; lia.
  - f_equal. rewrite Pos2Z.inj_xO. apply Z.div_unique with 0; lia.
  - reflexivity.
Qed.

Lemma iter_pos_nat {A} (f : A -> A) p x :
  iter_pos f p x = Nat.iter (Pos.to_nat p) f x.
Proof.
  revert x. induction p as [p IH|p IH|]; intro x; cbn [iter_pos].
  - rewrite !IH, Pos2Nat.inj_xI.
    replace (S (2 * Pos.to_nat p)) with (Pos.to_nat p + (Pos.to_nat p + 1))%nat by lia.
    rewrite !Nat.iter_add. reflexivity.
  - rewrite !IH, Pos2Nat.inj_xO.
    replace (2 * Pos.to_nat p)%nat with (Pos.to_nat p + Pos.to_nat p)%nat by lia.
    rewrite Nat.iter_add. reflexivity.
  - reflexivity.
Qed.

Lemma mod_pow2_succ m k :
  0 <= k -> m mod 2 ^ (k + 1) = m mod 2 ^ k + 2 ^ k * Z.b2z (Z.testbit m k).
Proof.
  intros Hk. rewrite Z.pow_add_r, Z.pow_1_r by lia.
  rewrite Z.rem_mul_r by lia.
  now rewrite <- Z.testbit_spec' by lia.
Qed.

(** Shifting [k + 1] times. *)
Lemma shr_iter k m r s :
  0 <= m ->
  Nat.iter (S k) shr_1 (Build_shr_record m r s) =
  Build_shr_record (m / 2 ^ Z.of_nat (S k)) (Z.testbit m (Z.of_nat k))
                   (negb (m mod 2 ^ Z.of_nat k =? 0) || (r || s)).
Proof.
  intros Hm. induction k as [|k IH].
  - cbn [Nat.iter nat_rect]. rewrite shr_1_nonneg by assumption.
    change (Z.of_nat 1) with 1. change (Z.of_nat 0) with 0.
    rewrite Z.pow_1_r, Z.pow_0_r, Z.mod_1_r, Z.bit0_odd. reflexivity.
  - change (Nat.iter (S (S k)) shr_1 ?x) with (shr_1 (Nat.iter (S k) shr_1 x)).
    rewrite IH. rewrite shr_1_nonneg by (apply Z.div_pos; lia).
    f_equal.
    + rewrite (Nat2Z.inj_succ (S k)), Z.pow_succ_r by lia.
      rewrite Z.div_div by lia. f_equal. ring.
    + rewrite Z.testbit_odd, Z.shiftr_div_pow2 by lia. reflexivity.
    + rewrite (Nat2Z.inj_succ k), <- Z.add_1_r.
      rewrite mod_pow2_succ by lia.
      pose proof (Z.mod_pos_bound m (2 ^ Z.of_nat k)) as B.
      assert (0 < 2 ^ Z.of_nat k) as Hp by (apply Z.pow_pos_nonneg; lia).
      specialize (B Hp).
      destruct (Z.testbit m (Z.of_nat k)); cbn [Z.b2z orb].
      * replace (m mod 2 ^ Z.of_nat k + 2 ^ Z.of_nat k * 1 =? 0) with false
          by (symmetry; apply Z.eqb_neq; lia).
        reflexivity.
      * now rewrite Z.mul_0_r, Z.add_0_r.
Qed.

(** [shr] by a positive amount, on a non-negative mantissa. *)
Lemma shr_pos m r s e n :
  0 <= m -> 0 < n ->
  shr (Build_shr_record m r s) e n =
  (Build_shr_record (m / 2 ^ n) (Z.testbit m (n - 1))
                    (negb (m mod 2 ^ (n - 1) =? 0) || (r || s)),
   e + n).
Proof.
  intros Hm Hn. destruct n as [|p|p]; try lia.
  cbn [shr]. rewrite iter_pos_nat.
  destruct (Pos.to_nat p) as [|k] eqn:E; [lia|].
  rewrite shr_iter by assumption.
  assert (Z.of_nat (S k) = Z.pos p) as E1 by lia.
  assert (Z.of_nat k = Z.pos p - 1) as E2 by lia.
  now rewrite E1, E2.
Qed.

Lemma shr_nonpos mrs e n : n <= 0 -> shr mrs e n = (mrs, e).
Proof. destruct n; try reflexivity; lia. Qed.

(** What [round_nearest_even] does to the record left by the shift. *)
Lemma round_record m0 r s :
  round_nearest_even m0 (loc_of_shr_record (Build_shr_record m0 r s)) =
  if r && (s || Z.odd m0) then m0 + 1 else m0.
Proof.
  destruct r, s; cbn [loc_of_shr_record round_nearest_even andb orb]; try reflexivity.
  rewrite <- Z.negb_even. destruct (Z.even m0); reflexivity.
Qed.

Lemma loc_of_shr_record_of_loc m l :
  loc_of_shr_record (shr_record_of_loc m l) = l.
Proof. destruct l as [|[ | | ]]; reflexivity. Qed.

Lemma shr_m_record_of_loc m l : shr_m (shr_record_of_loc m l) = m.
Proof. destruct l as [|[ | | ]]; reflexivity. Qed.

Lemma testbit_half m n :
  0 < n ->
  (Z.testbit m (n - 1) = true -> 2 ^ n <= 2 * (m mod 2 ^ n))
  /\ (Z.testbit m (n - 1) = false -> 2 * (m mod 2 ^ n) < 2 ^ n)
  /\ (Z.testbit m (n - 1) = true -> m mod 2 ^ (n - 1) = 0 -> 2 * (m mod 2 ^ n) = 2 ^ n).
Proof.
  intros Hn.
  pose proof (mod_pow2_succ m (n - 1) ltac:(lia)) as E.
  replace (n - 1 + 1) with n in E by lia. rewrite E.
  assert (0 < 2 ^ (n - 1)) as Hp by (apply Z.pow_pos_nonneg; lia).
  pose proof (Z.mod_pos_bound m (2 ^ (n - 1)) Hp) as B.
  replace (2 ^ n) with (2 * 2 ^ (n - 1))
    by (replace n with (n - 1 + 1) at 2 by lia;
        rewrite Z.pow_add_r, Z.pow_1_r by lia; ring).
  repeat split; intros E'; rewrite E'; cbn [Z.b2z]; lia.
Qed.

Lemma first_round m e l n :
  0 <= m -> 0 <= n ->
  exists m1,
    rnd_ok m n l m1
    /\ (let '(mrs, e') := shr (shr_record_of_loc m l) e n in
        (round_nearest_even (shr_m mrs) (loc_of_shr_record mrs), e')) = (m1, e + n).
Proof.
  intros Hm Hn.
  destruct (Z.eq_dec n 0) as [->|Hn0].
  - rewrite shr_nonpos by lia. rewrite loc_of_shr_record_of_loc, shr_m_record_of_loc.
    rewrite Z.add_0_r.
    exists (round_nearest_even m l). split; [|reflexivity].
    unfold rnd_ok. rewrite Z.pow_0_r, Z.div_1_r, Z.mod_1_r.
    destruct l as [|[ | | ]]; cbn [round_nearest_even].
    + left; split; [reflexivity | lia].
    + destruct (Z.even m); [left; split; [reflexivity|discriminate]|].
      right; split; [reflexivity|]. left; split; [reflexivity|discriminate].
    + left; split; [reflexivity|discriminate].
    + right; split; [reflexivity|]. left; split; [reflexivity|discriminate].
  - assert (0 < n) as Hpos by lia.
    destruct (shr_record_of_loc m l) as [m' r s] eqn:E.
    assert (m' = m) as -> by (rewrite <- (shr_m_record_of_loc m l), E; reflexivity).
    rewrite shr_pos by assumption.
    cbn [shr_m]. rewrite round_record.
    destruct (testbit_half m n Hpos) as (T1 & T2 & T3).
    eexists; split; [|reflexivity].
    unfold rnd_ok.
    destruct (Z.testbit m (n - 1)) eqn:B; cbn [andb].
    + destruct (negb (m mod 2 ^ (n - 1) =? 0) || (r || s) || Z.odd (m / 2 ^ n)) eqn:C.
      * right; split; [reflexivity|]. right; split; [lia|]. now apply T1.
      * left; split; [reflexivity|]. intros _.
        apply orb_false_iff in C as [C _]. apply orb_false_iff in C as [C _].
        apply negb_false_iff, Z.eqb_eq in C. rewrite T3; auto; lia.
    + left; split; [reflexivity|]. intros _. specialize (T2 eq_refl). lia.
Qed.

Lemma div_pow2_digits m n :
  0 < m -> 0 <= n -> 0 < m / 2 ^ n -> Zdigits2 (m / 2 ^ n) = Zdigits2 m - n.
Proof.
  intros Hm Hn Hq.
  assert (0 < 2 ^ n) as Hp by (apply Z.pow_pos_nonneg; lia).
  assert (2 ^ n <= m) as Hge.
  { destruct (Z.le_gt_cases (2 ^ n) m); [assumption|].
    rewrite Z.div_small in Hq; lia. }
  pose proof (Zdigits2_ge_pow m n Hge Hn) as Hd.
  pose proof (Zdigits2_bounds m Hm) as [L U].
  apply Zdigits2_unique; [|lia].
  split.
  - apply Z.div_le_lower_bound; [lia|].
    rewrite <- Z.pow_add_r by lia.
    now replace (n + (Zdigits2 m - n - 1)) with (Zdigits2 m - 1) by lia.
  - apply Z.div_lt_upper_bound; [lia|].
    rewrite <- Z.pow_add_r by lia.
    now replace (n + (Zdigits2 m - n)) with (Zdigits2 m) by lia.
Qed.

(** Rounding up by one adds at most one digit, and then hits a power of two. *)
Lemma succ_digits m0 :
  0 < m0 ->
  Zdigits2 (m0 + 1) = Zdigits2 m0
  \/ (m0 + 1 = 2 ^ Zdigits2 m0 /\ Zdigits2 (m0 + 1) = Zdigits2 m0 + 1).
Proof.
  intros Hm. pose proof (Zdigits2_bounds m0 Hm) as [L U].
  pose proof (Zdigits2_pos m0 Hm) as Hd.
  destruct (Z.eq_dec (m0 + 1) (2 ^ Zdigits2 m0)) as [E|NE].
  - right. split; [assumption|].
    apply Zdigits2_unique; [|lia].
    replace (Zdigits2 m0 + 1 - 1) with (Zdigits2 m0) by lia.
    rewrite E. split; [lia|]. apply Z.pow_lt_mono_r; lia.
  - left. apply Zdigits2_unique; lia.
Qed.

Lemma second_round m1 e1 :
  0 < m1 ->
  f_fexp (Zdigits2 m1 + e1) = e1
  \/ (f_fexp (Zdigits2 m1 + e1) = e1 + 1 /\ Z.even m1 = true) ->
  exists m2 e2 mrs,
    shr_fexp prec emax m1 e1 loc_Exact = (mrs, e2)
    /\ shr_m mrs = Z.pos m2
    /\ e1 <= e2
    /\ Z.pos m2 * 2 ^ (e2 - e1) = m1
    /\ f_fexp (Z.pos (digits2_pos m2) + e2) = e2.
Proof.
  intros Hm [E | [E Hev]]; unfold shr_fexp; rewrite fexp_eq, E.
  - rewrite shr_nonpos by lia.
    destruct m1 as [|p|p]; try lia.
    exists p, e1. eexists; split; [reflexivity|].
    cbn [shr_record_of_loc shr_m]. rewrite Z.sub_diag, Z.pow_0_r.
    repeat split; try lia. exact E.
  - replace (e1 + 1 - e1) with 1 by lia.
    cbn [shr_record_of_loc]. rewrite shr_pos by lia.
    rewrite Z.pow_1_r.
    assert (m1 = 2 * (m1 / 2)) as Hd.
    { pose proof (Z.div_mod m1 2 ltac:(lia)) as D.
      rewrite Zmod_even, Hev in D. lia. }
    assert (0 < m1 / 2) as Hq by lia.
    destruct (m1 / 2) as [|p|p] eqn:Q; try lia.
    exists p, (e1 + 1). eexists; split; [reflexivity|].
    cbn [shr_m]. replace (e1 + 1 - e1) with 1 by lia. rewrite Z.pow_1_r.
    repeat split; try lia.
    change (Z.pos (digits2_pos p)) with (Zdigits2 (Z.pos p)).
    rewrite <- Q. replace (m1 / 2) with (m1 / 2 ^ 1) by now rewrite Z.pow_1_r.
    rewrite div_pow2_digits; try lia.
    + replace (Zdigits2 m1 - 1 + (e1 + 1)) with (Zdigits2 m1 + e1) by lia. exact E.
    + rewrite Z.pow_1_r. lia.
Qed.

(** [binary_round_aux] shifts to the exponent of the format, rounds to
    nearest even, and packs a canonical float. *)
Lemma binary_round_aux_spec s m e l :
  0 < m -> e <= f_fexp (Zdigits2 m + e) ->
  exists m1,
    rnd_ok m (f_fexp (Zdigits2 m + e) - e) l m1
    /\ is_rounding s m1 (f_fexp (Zdigits2 m + e)) (binary_round_aux prec emax s m e l).
Proof.
  intros Hm He.
  set (e1 := f_fexp (Zdigits2 m + e)) in *.
  set (n := e1 - e).
  assert (0 <= n) as Hn by (unfold n; lia).
  destruct (first_round m e l n ltac:(lia) Hn) as (m1 & Hr & E).
  exists m1. split; [exact Hr|].
  unfold binary_round_aux, shr_fexp at 1. rewrite fexp_eq. fold e1. fold n.
  destruct (shr (shr_record_of_loc m l) e n) as [mrs e'].
  injection E as E1 E2. rewrite E1, E2.
  replace (e + n) with e1 by (unfold n; lia).
  assert (f_emin <= e1) as Hmin by (unfold e1, f_fexp; lia).
  assert (0 < 2 ^ n) as Hp by (apply Z.pow_pos_nonneg; lia).
  assert (0 <= m / 2 ^ n) as Hq by (apply Z.div_pos; lia).
  assert (0 <= m1) as Hm1 by (destruct Hr as [[-> _] | [-> _]]; lia).
  destruct (Z.eq_dec m1 0) as [Z1 | NZ1].
  - left. split; [assumption|]. rewrite Z1.
    unfold shr_fexp. rewrite fexp_eq. cbn [Zdigits2 shr_record_of_loc].
    rewrite shr_nonpos by (unfold f_fexp, f_emin in *; lia).
    reflexivity.
  - right.
    assert (f_fexp (Zdigits2 m1 + e1) = e1
            \/ (f_fexp (Zdigits2 m1 + e1) = e1 + 1 /\ Z.even m1 = true)) as Hc.
    { destruct (Z.eq_dec (m / 2 ^ n) 0) as [Q0 | Q0].
      - (* everything was shifted out *)
        assert (m1 = 1) as -> by (destruct Hr as [[-> _] | [-> _]]; lia).
        assert (m < 2 ^ n) as Hlt.
        { destruct (Z.lt_ge_cases m (2 ^ n)); [assumption|].
          assert (1 <= m / 2 ^ n) by (apply Z.div_le_lower_bound; lia). lia. }
        pose proof (Zdigits2_le_pow m n Hm Hlt Hn) as Hd.
        left. cbn [Zdigits2 digits2_pos].
        unfold n, e1, f_fexp, f_emin in *. lia.
      - assert (0 < m / 2 ^ n) as Hq' by lia.
        pose proof (div_pow2_digits m n Hm Hn Hq') as Hd.
        assert (f_fexp (Zdigits2 (m / 2 ^ n) + e1) = e1) as Hsame.
        { rewrite Hd. replace (Zdigits2 m - n + e1) with (Zdigits2 m + e) by (unfold n; lia).
          reflexivity. }
        destruct Hr as [[-> _] | [-> _]]; [left; exact Hsame|].
        destruct (succ_digits (m / 2 ^ n) Hq') as [S | [S1 S2]].
        + left. rewrite S. exact Hsame.
        + rewrite S2.
          assert (f_fexp (Zdigits2 (m / 2 ^ n) + 1 + e1) = e1
                  \/ f_fexp (Zdigits2 (m / 2 ^ n) + 1 + e1) = e1 + 1) as [C | C]
              by (unfold f_fexp in *; lia).
          * left; exact C.
          * right. split; [exact C|]. rewrite S1.
            rewrite Z.even_pow by (pose proof (Zdigits2_pos _ Hq'); lia).
            reflexivity. }
    destruct (second_round m1 e1 ltac:(lia) Hc) as (m2 & e2 & mrs2 & R1 & R2 & R3 & R4 & R5).
    rewrite R1, R2. exists m2, e2. repeat split; auto.
Qed.

(** ** Non-negative binary64 numbers and their order *)

Lemma pow2_pos k : 0 <= k -> 0 < 2 ^ k.
Proof. intros; now apply Z.pow_pos_nonneg. Qed.

Lemma pow2_split a b : 0 <= b <= a -> 2 ^ a = 2 ^ (a - b) * 2 ^ b.
Proof. intros. rewrite <- Z.pow_add_r by lia. f_equal; lia. Qed.

Lemma pow2_le a b : 0 <= a <= b -> 2 ^ a <= 2 ^ b.
Proof. intros; apply Z.pow_le_mono_r; lia. Qed.

Lemma pow2_lt a b : 0 <= a < b -> 2 ^ a < 2 ^ b.
Proof. intros; apply Z.pow_lt_mono_r; lia. Qed.

Lemma canonical_bounds m e :
  f_fexp (Z.pos (digits2_pos m) + e) = e ->
  f_emin <= e /\ Z.pos m < 2 ^ 53 /\ (f_emin < e -> 2 ^ 52 <= Z.pos m).
Proof.
  intros C.
  pose proof (Zdigits2_bounds (Z.pos m) ltac:(lia)) as [L U].
  cbn [Zdigits2] in L, U.
  set (d := Z.pos (digits2_pos m)) in *.
  assert (1 <= d) by (unfold d; lia).
  unfold f_fexp, f_emin in *.
  split; [lia|]. split.
  - assert (2 ^ d <= 2 ^ 53) by (apply pow2_le; lia). lia.
  - intros He. assert (d = 53) as E by lia. rewrite E in L. exact L.
Qed.

Lemma V_nonneg x : 0 <= V x.
Proof.
  destruct x; cbn [V]; lia.
Qed.

Lemma V_pos s m e : f_emin <= e -> 0 < V (S754_finite s m e).
Proof. intros. cbn [V]. pose proof (pow2_pos (e - f_emin)). nia. Qed.

(** On good floats the comparison of the format is the order of values. *)
Lemma SFcompare_V a b :
  good a -> good b -> SFcompare a b = Some (V a ?= V b).
Proof.
  destruct a as [sa| | |sa ma ea]; try contradiction;
    destruct b as [sb| | |sb mb eb]; try contradiction; intros Ga Gb.
  - reflexivity.
  - destruct sb; try contradiction. destruct Gb as [Cb _].
    apply canonical_bounds in Cb as (Eb & _).
    pose proof (V_pos false mb eb Eb). cbn [SFcompare].
    symmetry. f_equal. change (V (S754_zero sa)) with 0. now apply Z.compare_lt_iff.
  - destruct sa; try contradiction. destruct Ga as [Ca _].
    apply canonical_bounds in Ca as (Ea & _).
    pose proof (V_pos false ma ea Ea). cbn [SFcompare].
    symmetry. f_equal. change (V (S754_zero sb)) with 0. now apply Z.compare_gt_iff.
  - destruct sa, sb; try contradiction.
    destruct Ga as [Ca _], Gb as [Cb _].
    apply canonical_bounds in Ca as (Ea & Ua & La).
    apply canonical_bounds in Cb as (Eb & Ub & Lb).
    cbn [SFcompare V]. f_equal. symmetry.
    destruct (Z.compare_spec ea eb) as [E | E | E].
    + subst eb. change (Pos.compare_cont Eq ma mb) with (Z.pos ma ?= Z.pos mb).
      pose proof (pow2_pos (ea - f_emin) ltac:(lia)).
      destruct (Z.compare_spec (Z.pos ma) (Z.pos mb)) as [E | E | E].
      * rewrite E. apply Z.compare_refl.
      * apply Z.compare_lt_iff. nia.
      * apply Z.compare_gt_iff. nia.
    + apply Z.compare_lt_iff.
      specialize (Lb ltac:(lia)).
      rewrite (pow2_split (eb - f_emin) (ea - f_emin)) by lia.
      replace (eb - f_emin - (ea - f_emin)) with (eb - ea) by lia.
      pose proof (pow2_pos (ea - f_emin) ltac:(lia)).
      assert (2 <= 2 ^ (eb - ea)) by (change 2 with (2 ^ 1) at 1; apply pow2_le; lia).
      assert (Z.pos ma < Z.pos mb * 2 ^ (eb - ea)) by nia.
      rewrite Z.mul_assoc. apply Z.mul_lt_mono_pos_r; assumption.
    + apply Z.compare_gt_iff.
      specialize (La ltac:(lia)).
      rewrite (pow2_split (ea - f_emin) (eb - f_emin)) by lia.
      replace (ea - f_emin - (eb - f_emin)) with (ea - eb) by lia.
      pose proof (pow2_pos (eb - f_emin) ltac:(lia)).
      assert (2 <= 2 ^ (ea - eb)) by (change 2 with (2 ^ 1) at 1; apply pow2_le; lia).
      assert (Z.pos mb < Z.pos ma * 2 ^ (ea - eb)) by nia.
      rewrite Z.mul_assoc. apply Z.mul_lt_mono_pos_r; assumption.
Qed.

Lemma SFltb_V a b : good a -> good b -> SFltb a b = true <-> V a < V b.
Proof.
  intros Ga Gb. unfold SFltb. rewrite (SFcompare_V a b Ga Gb).
  destruct (Z.compare_spec (V a) (V b)); split; intros; try lia; try discriminate; reflexivity.
Qed.

Lemma SFleb_V a b : good a -> good b -> SFleb a b = true <-> V a <= V b.
Proof.
  intros Ga Gb. unfold SFleb. rewrite (SFcompare_V a b Ga Gb).
  destruct (Z.compare_spec (V a) (V b)); split; intros; try lia; try discriminate; reflexivity.
Qed.

Lemma SFeqb_V a b : good a -> good b -> SFeqb a b = true <-> V a = V b.
Proof.
  intros Ga Gb. unfold SFeqb. rewrite (SFcompare_V a b Ga Gb).
  destruct (Z.compare_spec (V a) (V b)); split; intros; try lia; try discriminate; reflexivity.
Qed.

(** A rounding that stays below [2^1024] is a good float of the rounded value. *)
Lemma is_rounding_good m1 e1 r :
  is_rounding false m1 e1 r -> f_emin <= e1 ->
  m1 * 2 ^ (e1 - f_emin) < 2 ^ (emax - f_emin) ->
  good r /\ V r = m1 * 2 ^ (e1 - f_emin).
Proof.
  intros [[-> ->] | (m2 & e2 & He & Hm & Hc & ->)] Hmin Hlt.
  - split; [exact I | reflexivity].
  - assert (Z.pos m2 * 2 ^ (e2 - f_emin) = m1 * 2 ^ (e1 - f_emin)) as HV.
    { rewrite <- Hm. rewrite (pow2_split (e2 - f_emin) (e1 - f_emin)) by lia.
      replace (e2 - f_emin - (e1 - f_emin)) with (e2 - e1) by lia. ring. }
    assert (e2 <= emax - prec) as Hfin.
    { destruct (Z.le_gt_cases e2 (emax - prec)) as [|C]; [assumption|exfalso].
      apply canonical_bounds in Hc as (_ & _ & L).
      unfold emax, prec, f_emin in *.
      specialize (L ltac:(lia)).
      assert (2 ^ 2046 <= 2 ^ (e2 - -1074)) by (apply pow2_le; lia).
      assert (2 ^ 52 * 2 ^ 2046 = 2 ^ (1024 - -1074)) by (rewrite <- Z.pow_add_r by lia; reflexivity).
      nia. }
    apply Z.leb_le in Hfin. rewrite Hfin.
    apply Z.leb_le in Hfin.
    split; [split; assumption | exact HV].
Qed.

Lemma iter_xO m d : Z.pos (Pos.iter xO m d) = Z.pos m * 2 ^ Z.pos d.
Proof.
  induction d as [|d IH] using Pos.peano_ind.
  - cbn [Pos.iter]. rewrite Z.pow_1_r. lia.
  - rewrite Pos.iter_succ, Pos2Z.inj_xO, IH, Pos2Z.inj_succ, Z.pow_succ_r by lia. ring.
Qed.

Lemma shl_align_spec mx ex ex' :
  let '(mz, ez) := shl_align mx ex ex' in
  ez = Z.min ex ex' /\ Z.pos mz = Z.pos mx * 2 ^ (ex - ez).
Proof.
  unfold shl_align. destruct (ex' - ex) as [|d|d] eqn:E.
  - split; [lia|]. rewrite Z.sub_diag, Z.pow_0_r. lia.
  - split; [lia|]. rewrite Z.sub_diag, Z.pow_0_r. lia.
  - split; [lia|]. rewrite iter_xO. do 2 f_equal. lia.
Qed.

Lemma mul_pow2_digits m k :
  0 < m -> 0 <= k -> Zdigits2 (m * 2 ^ k) = Zdigits2 m + k.
Proof.
  intros Hm Hk.
  pose proof (Zdigits2_bounds m Hm) as [L U].
  pose proof (Zdigits2_pos m Hm).
  pose proof (pow2_pos k Hk).
  apply Zdigits2_unique; [|lia].
  replace (Zdigits2 m + k - 1) with (Zdigits2 m - 1 + k) by lia.
  rewrite !Z.pow_add_r by lia. nia.
Qed.

(** [binary_round false p e] rounds [p * 2^e]. *)
Lemma binary_round_spec p e :
  let e1 := f_fexp (Z.pos (digits2_pos p) + e) in
  exists m1,
    (e1 <= e -> m1 = Z.pos p * 2 ^ (e - e1))
    /\ (e <= e1 -> rnd_ok (Z.pos p) (e1 - e) loc_Exact m1)
    /\ is_rounding false m1 e1 (binary_round prec emax false p e).
Proof.
  intros e1. unfold binary_round. rewrite fexp_eq. fold e1.
  pose proof (shl_align_spec p e e1) as A.
  destruct (shl_align p e e1) as [mz ez]. destruct A as [Ez Em].
  assert (Zdigits2 (Z.pos mz) + ez = Z.pos (digits2_pos p) + e) as HX.
  { rewrite Em, mul_pow2_digits by lia. cbn [Zdigits2]. lia. }
  destruct (binary_round_aux_spec false (Z.pos mz) ez loc_Exact) as (m1 & Hr & Hi).
  - lia.
  - rewrite HX. fold e1. lia.
  - rewrite HX in Hr, Hi. fold e1 in Hr, Hi.
    exists m1. split; [|split]; [intros H | intros H | exact Hi].
    + assert (ez = e1) as -> by lia. rewrite Z.sub_diag in Hr.
      unfold rnd_ok in Hr. rewrite Z.pow_0_r, Z.div_1_r in Hr.
      destruct Hr as [[-> _] | [_ [[_ C] | [C _]]]]; [exact Em | congruence | lia].
    + assert (ez = e) as Ee by lia. rewrite Ee in *.
      rewrite Z.sub_diag, Z.pow_0_r, Z.mul_1_r in Em. rewrite Em in Hr. exact Hr.
Qed.

Lemma rnd_ok_range m n l m1 :
  rnd_ok m n l m1 -> m / 2 ^ n <= m1 <= m / 2 ^ n + 1.
Proof. intros [[-> _] | [-> _]]; lia. Qed.

(** Integers below [2^53] convert exactly. *)
Lemma of_Z_exact k :
  0 <= k < 2 ^ 53 -> good (of_Z k) /\ V (of_Z k) = k * 2 ^ (- f_emin).
Proof.
  intros Hk. destruct k as [|p|p]; try lia.
  - split; [exact I | reflexivity].
  - unfold of_Z, binary_normalize.
    destruct (binary_round_spec p 0) as (m1 & H1 & H2 & H3).
    pose proof (Zdigits2_le_pow (Z.pos p) 53 ltac:(lia) ltac:(lia) ltac:(lia)) as Hd.
    cbn [Zdigits2] in Hd.
    set (e1 := f_fexp (Z.pos (digits2_pos p) + 0)) in *.
    assert (f_emin <= e1 <= 0) as He1 by (unfold e1, f_fexp, f_emin; lia).
    specialize (H1 ltac:(lia)). clear H2.
    assert (m1 * 2 ^ (e1 - f_emin) = Z.pos p * 2 ^ (- f_emin)) as HV.
    { rewrite H1, <- Z.mul_assoc, <- Z.pow_add_r by lia. do 2 f_equal. lia. }
    destruct (is_rounding_good m1 e1 _ H3) as [G E]; [lia| |].
    + rewrite HV. unfold f_emin, emax.
      assert (2 ^ 53 * 2 ^ (- -1074) < 2 ^ (1024 - -1074)) by (rewrite <- Z.pow_add_r by lia; apply pow2_lt; lia).
      assert (0 < 2 ^ (- -1074)) by (apply pow2_pos; lia). nia.
    + split; [exact G | now rewrite E].
Qed.

Example of_Z_1 : of_Z 1 = S754_finite false 4503599627370496 (-52).
Proof. reflexivity. Qed.

Lemma good_V_bound t : good t -> V t < 2 ^ (emax - f_emin).
Proof.
  destruct t as [s| | |s m e]; try contradiction; intros G.
  - cbn [V]. apply pow2_pos. unfold emax, f_emin; lia.
  - destruct s; try contradiction. destruct G as [C Hle].
    apply canonical_bounds in C as (Emin & U & _).
    cbn [V]. unfold emax, prec, f_emin in *.
    assert (2 ^ (e - -1074) <= 2 ^ 2045) by (apply pow2_le; lia).
    assert (0 < 2 ^ (e - -1074)) by (apply pow2_pos; lia).
    assert (2 ^ 53 * 2 ^ 2045 = 2 ^ (1024 - -1074)) by (rewrite <- Z.pow_add_r by lia; reflexivity).
    nia.
Qed.

Lemma mul_digits a b :
  0 < a -> 0 < b ->
  Zdigits2 a + Zdigits2 b - 1 <= Zdigits2 (a * b) <= Zdigits2 a + Zdigits2 b.
Proof.
  intros Ha Hb.
  pose proof (Zdigits2_bounds a Ha) as [La Ua].
  pose proof (Zdigits2_bounds b Hb) as [Lb Ub].
  pose proof (Zdigits2_pos a Ha). pose proof (Zdigits2_pos b Hb).
  pose proof (pow2_pos (Zdigits2 a - 1) ltac:(lia)).
  pose proof (pow2_pos (Zdigits2 b - 1) ltac:(lia)).
  split.
  - assert (2 ^ (Zdigits2 a + Zdigits2 b - 2) <= a * b) as L.
    { replace (Zdigits2 a + Zdigits2 b - 2) with ((Zdigits2 a - 1) + (Zdigits2 b - 1)) by lia.
      rewrite Z.pow_add_r by lia. nia. }
    pose proof (Zdigits2_ge_pow _ _ L ltac:(lia)). lia.
  - apply Zdigits2_le_pow; [nia| |lia].
    rewrite Z.pow_add_r by lia. nia.
Qed.

(** The product of two good positive floats is the rounding of the exact
    product. *)
Lemma fmul_spec mx ex my ey :
  good (S754_finite false mx ex) -> good (S754_finite false my ey) ->
  let P := Z.pos mx * Z.pos my in
  let e1 := f_fexp (Zdigits2 P + (ex + ey)) in
  ex + ey <= e1
  /\ exists m1,
      rnd_ok P (e1 - (ex + ey)) loc_Exact m1
      /\ is_rounding false m1 e1 (fmul (S754_finite false mx ex) (S754_finite false my ey)).
Proof.
  intros [Cx _] [Cy _] P e1.
  pose proof (mul_digits (Z.pos mx) (Z.pos my) ltac:(lia) ltac:(lia)) as [DL _].
  fold P in DL. cbn [Zdigits2] in DL.
  pose proof (canonical_bounds _ _ Cx) as (Ex & _ & _).
  pose proof (canonical_bounds _ _ Cy) as (Ey & _ & _).
  assert (ex + ey <= e1) as Hpre.
  { unfold e1. unfold f_fexp, f_emin in *. lia. }
  split; [exact Hpre|].
  unfold fmul, SFmul. cbn [xorb].
  change (Z.pos (mx * my)) with P.
  apply binary_round_aux_spec; [unfold P; lia | exact Hpre].
Qed.

(** A good float below one times a good float [t] is at most [t], and
    strictly below it when [t >= 2^-1021]. *)
Lemma fmul_unit x t :
  good x -> V x < 2 ^ (- f_emin) -> good t ->
  good (fmul x t) /\ V (fmul x t) <= V t
  /\ (2 ^ 53 <= V t -> V (fmul x t) < V t).
Proof.
  intros Gx Hx Gt.
  pose proof (good_V_bound t Gt) as Hfin.
  destruct t as [st| | |st mt et]; try contradiction.
  { destruct x as [sx| | |sx mx ex]; try contradiction;
      unfold fmul; cbn [SFmul V]; repeat split; lia. }
  destruct st; try contradiction.
  destruct x as [sx| | |sx mx ex]; try contradiction.
  { unfold fmul; cbn [SFmul]. pose proof (V_nonneg (S754_finite false mt et)).
    change (V (S754_zero (xorb sx false))) with 0. repeat split; lia. }
  destruct sx; try contradiction.
  destruct (fmul_spec mx ex mt et Gx Gt) as (Hpre & m1 & Hr & Hi).
  destruct Gx as [Cx _], Gt as [Ct Hle].
  pose proof (canonical_bounds _ _ Cx) as (Ex & Ux & Lx).
  pose proof (canonical_bounds _ _ Ct) as (Et & Ut & Lt).
  cbn [V] in *.
  set (P := Z.pos mx * Z.pos mt) in *.
  set (e1 := f_fexp (Zdigits2 P + (ex + et))) in *.
  set (n := e1 - (ex + et)) in *.
  (* x < 1 *)
  assert (ex <= -53) as Hex.
  { destruct (Z.le_gt_cases ex (-53)) as [|C]; [assumption|exfalso].
    specialize (Lx ltac:(unfold f_emin; lia)).
    assert (2 ^ (-52 - f_emin) <= 2 ^ (ex - f_emin)) by (apply pow2_le; unfold f_emin; lia).
    assert (2 ^ 52 * 2 ^ (-52 - f_emin) = 2 ^ (- f_emin))
      by (rewrite <- Z.pow_add_r by (unfold f_emin; lia); reflexivity).
    nia. }
  set (A := 2 ^ (- ex)).
  assert (Z.pos mx < A) as HmxA.
  { assert (2 ^ (- f_emin) = A * 2 ^ (ex - f_emin)) as E.
    { unfold A. rewrite <- Z.pow_add_r by (unfold f_emin in *; lia). f_equal. lia. }
    rewrite E in Hx.
    pose proof (pow2_pos (ex - f_emin) ltac:(lia)). nia. }
  assert (2 ^ 53 <= A) as HA53 by (apply pow2_le; lia).
  (* the exponent of the product is at most that of t *)
  assert (e1 <= et) as He1.
  { assert (P < 2 ^ (53 - ex)) as HP.
    { replace (53 - ex) with (53 + - ex) by lia. rewrite Z.pow_add_r by lia.
      fold A. unfold P. nia. }
    pose proof (Zdigits2_le_pow P (53 - ex) ltac:(unfold P; lia) HP ltac:(lia)).
    unfold e1, f_fexp. lia. }
  assert (f_emin <= e1) as He1min by (unfold e1, f_fexp; lia).
  assert (0 <= n) as Hn by (unfold n; lia).
  set (T0 := Z.pos mt * 2 ^ (et - e1)).
  assert (T0 * 2 ^ n = Z.pos mt * A) as HT0.
  { unfold T0, A. rewrite <- Z.mul_assoc, <- Z.pow_add_r by lia. do 2 f_equal. unfold n. lia. }
  pose proof (pow2_pos n Hn) as Hpn.
  pose proof (pow2_pos (et - e1) ltac:(lia)) as Hpt.
  assert (1 <= T0) as HT1 by (unfold T0; nia).
  assert (P < 2 ^ n * T0) as HPT by (rewrite Z.mul_comm, HT0; unfold P; nia).
  assert (P / 2 ^ n < T0) as Hm0 by (apply Z.div_lt_upper_bound; assumption).
  assert (m1 <= T0) as Hm1le by (pose proof (rnd_ok_range _ _ _ _ Hr); lia).
  assert (2 ^ 53 <= Z.pos mt * 2 ^ (et - f_emin) -> m1 < T0) as Hm1.
  { intros Ht.
    (* t is normal *)
    assert (f_emin < et) as Het.
    { destruct (Z.eq_dec et f_emin) as [E|]; [|lia].
      rewrite E, Z.sub_diag, Z.pow_0_r in Ht. lia. }
    specialize (Lt Het).
    destruct Hr as [[-> _] | [-> [[_ C] | [Hn0 Hhalf]]]]; [assumption | congruence |].
    destruct (Z.lt_ge_cases (P / 2 ^ n + 1) T0) as [|C]; [assumption|exfalso].
    assert (P / 2 ^ n = T0 - 1) as Em0 by lia.
    pose proof (Z.div_mod P (2 ^ n) ltac:(lia)) as DM. rewrite Em0 in DM.
    assert (2 * (Z.pos mt * A) <= 2 * P + 2 ^ n) as I1 by (rewrite <- HT0; nia).
    destruct (Z.eq_dec ex (-53)) as [E53 | NE53].
    - assert (A = 2 ^ 53) as EA by (unfold A; rewrite E53; reflexivity).
      assert (n <= 53) as Hn53 by (unfold n; lia).
      assert (2 ^ n <= 2 ^ 53) as Hpn53 by (apply pow2_le; lia).
      assert (P <= (2 ^ 53 - 1) * Z.pos mt) as HP1
        by (unfold P; apply Z.mul_le_mono_nonneg_r; lia).
      rewrite EA in I1.
      assert (Z.pos mt = 2 ^ 52) as Emt by lia.
      assert (2 ^ n = 2 ^ 53) as Epn by lia.
      assert (n = 53) as En.
      { destruct (Z.eq_dec n 53); [assumption|].
        assert (2 ^ n < 2 ^ 53) by (apply pow2_lt; lia). lia. }
      assert (P < 2 ^ 105) as HP2 by (unfold P; rewrite Emt; nia).
      pose proof (Zdigits2_le_pow P 105 ltac:(unfold P; lia) HP2 ltac:(lia)).
      unfold n, e1, f_fexp in En. lia.
    - assert (A = 2 * 2 ^ (- ex - 1)) as EA.
      { unfold A. replace (- ex) with (1 + (- ex - 1)) at 1 by lia.
        rewrite Z.pow_add_r by lia. reflexivity. }
      assert (2 ^ 53 <= 2 ^ (- ex - 1)) by (apply pow2_le; lia).
      assert (P < 2 ^ (- ex - 1) * Z.pos mt) as HP0
        by (unfold P; apply Z.mul_lt_mono_pos_r; lia).
      assert (2 * P < Z.pos mt * A) as HP1 by (rewrite EA; lia).
      assert (T0 * 2 ^ n < 2 ^ n) by lia.
      pose proof (Z.mul_le_mono_nonneg_r 1 T0 (2 ^ n) ltac:(lia) HT1). lia. }
  assert (Z.pos mt * 2 ^ (et - f_emin) = T0 * 2 ^ (e1 - f_emin)) as EVt.
  { rewrite (pow2_split (et - f_emin) (e1 - f_emin)) by lia.
    replace (et - f_emin - (e1 - f_emin)) with (et - e1) by lia.
    rewrite Z.mul_assoc. reflexivity. }
  pose proof (pow2_pos (e1 - f_emin) ltac:(lia)) as Hp1.
  assert (m1 * 2 ^ (e1 - f_emin) <= T0 * 2 ^ (e1 - f_emin)) as HVle
      by (apply Z.mul_le_mono_nonneg_r; lia).
  destruct (is_rounding_good m1 e1 _ Hi He1min ltac:(lia)) as [G E].
  split; [exact G|]. rewrite E, EVt. split; [exact HVle|].
  intros Ht. rewrite <- EVt in Ht. specialize (Hm1 Ht).
  apply Z.mul_lt_mono_pos_r; assumption.
Qed.

Lemma fmul_lt x t :
  good x -> V x < 2 ^ (- f_emin) -> good t -> 2 ^ 53 <= V t ->
  good (fmul x t) /\ V (fmul x t) < V t.
Proof.
  intros Gx Hx Gt Ht. destruct (fmul_unit x t Gx Hx Gt) as (G & _ & L). auto.
Qed.

Lemma good_finite_inv s m e :
  good (S754_finite s m e) ->
  s = false /\ f_emin <= e <= emax - prec /\ Z.pos m < 2 ^ 53
  /\ (f_emin < e -> 2 ^ 52 <= Z.pos m /\ Z.pos (digits2_pos m) = 53).
Proof.
  destruct s; [contradiction|]. intros [C Hle].
  pose proof (canonical_bounds _ _ C) as (E & U & L).
  repeat split; try assumption; try (apply L; assumption).
  unfold f_fexp, f_emin in *. lia.
Qed.

(** A good float of value at least [2^-1021] is normal. *)
Lemma good_normal s m e :
  good (S754_finite s m e) -> 2 ^ 53 <= V (S754_finite s m e) -> f_emin < e.
Proof.
  intros G H. apply good_finite_inv in G as (_ & [E _] & U & _).
  cbn [V] in H. destruct (Z.eq_dec e f_emin) as [->|]; [|lia].
  rewrite Z.sub_diag, Z.pow_0_r in H. lia.
Qed.

Lemma new_location_exact nb r : new_location nb r <> loc_Exact -> r <> 0.
Proof.
  intros H ->. apply H. unfold new_location, new_location_even, new_location_odd.
  destruct (Z.even nb); reflexivity.
Qed.

(** A quotient of normal floats [a <= b], not too far apart, is at most one. *)
Lemma fdiv_le_one ma ea mb eb :
  let a := S754_finite false ma ea in
  let b := S754_finite false mb eb in
  good a -> good b -> 2 ^ 53 <= V a -> V a <= V b -> f_emin + 53 <= ea - eb ->
  good (fdiv a b) /\ V (fdiv a b) <= 2 ^ (- f_emin).
Proof.
  intros a b Ga Gb Ha Hab Hrange.
  assert (2 ^ 53 <= V b) as Hb by lia.
  pose proof (good_normal _ _ _ Ga Ha) as Na.
  pose proof (good_normal _ _ _ Gb Hb) as Nb.
  apply good_finite_inv in Ga as (_ & [Ea Ea'] & Ua & La).
  apply good_finite_inv in Gb as (_ & [Eb Eb'] & Ub & Lb).
  destruct (La Na) as [La1 Da]. destruct (Lb Nb) as [Lb1 Db]. clear La Lb.
  unfold a, b in *. cbn [V] in Hab.
  (* a <= b forces ea <= eb *)
  assert (ea <= eb) as Hle.
  { destruct (Z.le_gt_cases ea eb) as [|C]; [assumption|exfalso].
    rewrite (pow2_split (ea - f_emin) (eb - f_emin)) in Hab by lia.
    replace (ea - f_emin - (eb - f_emin)) with (ea - eb) in Hab by lia.
    pose proof (pow2_pos (eb - f_emin) ltac:(lia)).
    assert (2 <= 2 ^ (ea - eb)) by (change 2 with (2 ^ 1) at 1; apply pow2_le; lia).
    assert (Z.pos mb < Z.pos ma * 2 ^ (ea - eb)) by nia.
    rewrite Z.mul_assoc in Hab. nia. }
  assert (Z.pos ma <= Z.pos mb * 2 ^ (eb - ea)) as Hab'.
  { rewrite (pow2_split (eb - f_emin) (ea - f_emin)) in Hab by lia.
    replace (eb - f_emin - (ea - f_emin)) with (eb - ea) in Hab by lia.
    pose proof (pow2_pos (ea - f_emin) ltac:(lia)).
    rewrite Z.mul_assoc in Hab. nia. }
  set (e' := ea - eb - 53).
  set (q := Z.pos ma * 2 ^ 53 / Z.pos mb).
  set (r := (Z.pos ma * 2 ^ 53) mod Z.pos mb).
  assert (SFdiv_core_binary prec emax (Z.pos ma) ea (Z.pos mb) eb
          = (q, e', new_location (Z.pos mb) r)) as Hcore.
  { unfold SFdiv_core_binary. cbn [Zdigits2]. rewrite Da, Db, fexp_eq.
    replace (Z.min (f_fexp (53 + ea - (53 + eb))) (ea - eb)) with e'
      by (unfold e', f_fexp; lia).
    replace (ea - eb - e') with 53 by (unfold e'; lia).
    rewrite Z.shiftl_mul_pow2 by lia.
    unfold q, r, Z.div, Z.modulo.
    destruct (Z.div_eucl (Z.pos ma * 2 ^ 53) (Z.pos mb)); reflexivity. }
  pose proof (Z.div_mod (Z.pos ma * 2 ^ 53) (Z.pos mb) ltac:(lia)) as DM.
  pose proof (Z.mod_pos_bound (Z.pos ma * 2 ^ 53) (Z.pos mb) ltac:(lia)) as RB.
  fold q in DM. fold r in DM, RB.
  assert (2 ^ 52 <= q) as Hq1 by (apply Z.div_le_lower_bound; lia).
  assert (q < 2 ^ 54) as Hq2 by (apply Z.div_lt_upper_bound; lia).
  pose proof (Zdigits2_ge_pow q 52 Hq1 ltac:(lia)) as Dq1.
  pose proof (Zdigits2_le_pow q 54 ltac:(lia) Hq2 ltac:(lia)) as Dq2.
  set (e1 := f_fexp (Zdigits2 q + e')).
  assert (e1 = Zdigits2 q + e' - 53) as He1 by (unfold e1, e', f_fexp; lia).
  destruct (binary_round_aux_spec false q e' (new_location (Z.pos mb) r))
    as (m1 & Hr & Hi); [lia | fold e1; lia |].
  fold e1 in Hr, Hi.
  set (B := 2 ^ (eb - ea + 53)).
  assert (q * Z.pos mb <= Z.pos mb * B /\ (r <> 0 -> q * Z.pos mb < Z.pos mb * B)) as [HqB HqB'].
  { unfold B. rewrite Z.pow_add_r by lia. split; [|intro]; nia. }
  assert (q <= B) as HqB1 by nia.
  assert (m1 <= 2 ^ (- e1)) as Hm1.
  { destruct (Z.eq_dec (Zdigits2 q) 53) as [D53 | D54].
    - (* no shift *)
      replace (e1 - e') with 0 in Hr by lia.
      replace (- e1) with (eb - ea + 53) by (unfold e' in *; lia). fold B.
      unfold rnd_ok in Hr. rewrite Z.pow_0_r, Z.div_1_r in Hr.
      destruct Hr as [[-> _] | [-> [[_ NE] | [C _]]]]; [assumption | | lia].
      apply new_location_exact in NE. specialize (HqB' NE). nia.
    - (* one bit is shifted out *)
      replace (e1 - e') with 1 in Hr by lia.
      assert (B = 2 * 2 ^ (- e1)) as EB.
      { unfold B. replace (eb - ea + 53) with (1 + - e1) by (unfold e' in *; lia).
        rewrite Z.pow_add_r by (unfold e' in *; lia). reflexivity. }
      pose proof (pow2_pos (- e1) ltac:(unfold e' in *; lia)).
      unfold rnd_ok in Hr. rewrite Z.pow_1_r in Hr.
      pose proof (Z.div_mod q 2 ltac:(lia)) as DM2.
      pose proof (Z.mod_pos_bound q 2 ltac:(lia)) as RB2.
      destruct Hr as [[-> _] | [-> [[C _] | [_ Hodd]]]]; [| lia |].
      + apply Z.div_le_upper_bound; lia.
      + assert (q mod 2 = 1) as Q1 by lia.
        assert (q / 2 < 2 ^ (- e1)); [|lia].
        apply Z.div_lt_upper_bound; lia. }
  assert (f_emin <= e1) as He1min by (unfold e1, f_fexp; lia).
  assert (m1 * 2 ^ (e1 - f_emin) <= 2 ^ (- f_emin)) as HV.
  { rewrite (pow2_split (- f_emin) (e1 - f_emin)) by (unfold e', f_emin in *; lia).
    replace (- f_emin - (e1 - f_emin)) with (- e1) by lia.
    apply Z.mul_le_mono_nonneg_r; [|exact Hm1].
    apply Z.lt_le_incl, pow2_pos. lia. }
  unfold fdiv, SFdiv. rewrite Hcore. cbn [xorb].
  destruct (is_rounding_good m1 e1 _ Hi He1min) as [G E].
  - assert (2 ^ (- f_emin) < 2 ^ (emax - f_emin)) by (apply pow2_lt; unfold emax, f_emin; lia).
    lia.
  - split; [exact G | rewrite E; exact HV].
Qed.

(** Conversion never moves an integer across a good float, and keeps a
    positive integer at or above one. *)
Lemma of_Z_bounds k :
  0 < k < 2 ^ 1000 ->
  good (of_Z k)
  /\ 2 ^ (- f_emin) <= V (of_Z k)
  /\ (forall b, good b -> k * 2 ^ (- f_emin) <= V b -> V (of_Z k) <= V b).
Proof.
  intros Hk.
  pose proof (pow2_pos (- f_emin) ltac:(unfold f_emin; lia)) as HU.
  destruct (Z.lt_ge_cases k (2 ^ 53)) as [Hs | Hl].
  { destruct (of_Z_exact k ltac:(lia)) as [G E]. rewrite E.
    split; [exact G|]. split; [nia | auto]. }
  destruct k as [|p|p]; try lia.
  unfold of_Z, binary_normalize.
  destruct (binary_round_spec p 0) as (m1 & _ & H2 & H3).
  change (Z.pos (digits2_pos p)) with (Zdigits2 (Z.pos p)) in *.
  pose proof (Zdigits2_ge_pow (Z.pos p) 53 Hl ltac:(lia)) as D1.
  pose proof (Zdigits2_le_pow (Z.pos p) 1000 ltac:(lia) ltac:(lia) ltac:(lia)) as D2.
  pose proof (Zdigits2_bounds (Z.pos p) ltac:(lia)) as [DL DU].
  set (d := Zdigits2 (Z.pos p)) in *.
  replace (f_fexp (d + 0)) with (d - 53) in * by (unfold f_fexp, f_emin; lia).
  specialize (H2 ltac:(lia)). replace (d - 53 - 0) with (d - 53) in H2 by lia.
  set (n := d - 53) in *.
  pose proof (pow2_pos n ltac:(lia)) as Hpn.
  assert (2 ^ 52 <= Z.pos p / 2 ^ n < 2 ^ 53) as [Q1 Q2].
  { split.
    - apply Z.div_le_lower_bound; [lia|]. rewrite <- Z.pow_add_r by lia.
      replace (n + 52) with (d - 1) by (unfold n; lia). try exact DL.
    - apply Z.div_lt_upper_bound; [lia|]. rewrite <- Z.pow_add_r by lia.
      replace (n + 53) with d by (unfold n; lia). try exact DU. }
  pose proof (rnd_ok_range _ _ _ _ H2) as [R1 R2].
  assert (2 ^ (n - f_emin) = 2 ^ n * 2 ^ (- f_emin)) as Epow.
  { rewrite <- Z.pow_add_r by (unfold f_emin; lia). f_equal; lia. }
  destruct (is_rounding_good m1 n _ H3) as [G E].
  - unfold f_emin; lia.
  - assert (2 ^ (n - f_emin) <= 2 ^ (emax - f_emin - 54))
      by (apply pow2_le; unfold emax, f_emin; lia).
    assert (2 ^ 54 * 2 ^ (emax - f_emin - 54) = 2 ^ (emax - f_emin))
      by (rewrite <- Z.pow_add_r by (unfold emax, f_emin; lia); f_equal; lia).
    pose proof (pow2_pos (n - f_emin) ltac:(unfold f_emin; lia)). nia.
  - split; [exact G|]. rewrite E, Epow. split; [nia|].
    intros b Gb Hb.
    destruct b as [sb| | |sb mb eb]; try contradiction.
    apply good_finite_inv in Gb as (_ & [Eb _] & Ub & _).
    cbn [V] in *.
    (* b is at least 2^53, so its exponent is at least n *)
    assert (n <= eb) as Hne.
    { destruct (Z.le_gt_cases n eb) as [|C]; [assumption|exfalso].
      assert (2 ^ (eb - f_emin) <= 2 ^ (n - 1 - f_emin)) by (apply pow2_le; unfold f_emin in *; lia).
      assert (2 ^ (n - 1 - f_emin) * 2 = 2 ^ n * 2 ^ (- f_emin)).
      { rewrite <- Epow. replace (n - f_emin) with (n - 1 - f_emin + 1) by lia.
        rewrite Z.pow_add_r by (unfold f_emin; lia). reflexivity. }
      pose proof (pow2_pos (eb - f_emin) ltac:(lia)).
      assert (2 ^ 52 * 2 ^ n <= Z.pos p).
      { pose proof (Z.div_mod (Z.pos p) (2 ^ n) ltac:(lia)).
        pose proof (Z.mod_pos_bound (Z.pos p) (2 ^ n) ltac:(lia)).
        pose proof (Z.mul_le_mono_nonneg_l _ _ (2 ^ n) ltac:(lia) Q1). lia. }
      nia. }
    rewrite (pow2_split (eb - f_emin) (n - f_emin)) by (unfold f_emin in *; lia).
    replace (eb - f_emin - (n - f_emin)) with (eb - n) by lia.
    rewrite (pow2_split (eb - f_emin) (n - f_emin)) in Hb by (unfold f_emin in *; lia).
    replace (eb - f_emin - (n - f_emin)) with (eb - n) in Hb by lia.
    rewrite Epow in *.
    set (Tb := Z.pos mb * 2 ^ (eb - n)) in *.
    rewrite Z.mul_assoc in *. fold Tb. fold Tb in Hb.
    assert (Z.pos p <= Tb * 2 ^ n) as Hb' by nia.
    assert (m1 <= Tb); [|nia].
    pose proof (Z.div_mod (Z.pos p) (2 ^ n) ltac:(lia)) as DM.
    pose proof (Z.mod_pos_bound (Z.pos p) (2 ^ n) ltac:(lia)) as RB.
    destruct H2 as [[-> _] | [-> [[C _] | [_ Hup]]]]; [| lia |].
    + apply Z.div_le_upper_bound; lia.
    + assert (Z.pos p / 2 ^ n < Tb); [|lia].
      destruct (Z.lt_ge_cases (Z.pos p / 2 ^ n) Tb); [assumption|nia].
Qed.

(** The floor of a good float. *)
Lemma floorZ_good r :
  good r ->
  exists k, floorZ r = Some k /\ 0 <= k
            /\ k * 2 ^ (- f_emin) <= V r < (k + 1) * 2 ^ (- f_emin).
Proof.
  intros G. pose proof (pow2_pos (- f_emin) ltac:(unfold f_emin; lia)) as HU.
  destruct r as [s| | |s m e]; try contradiction.
  - exists 0. cbn. repeat split; lia.
  - apply good_finite_inv in G as (-> & [E _] & _ & _).
    cbn [floorZ cond_Zopp V]. eexists; split; [reflexivity|].
    destruct (Z.le_gt_cases 0 e) as [He | He].
    + rewrite Z.shiftl_mul_pow2 by lia.
      pose proof (pow2_pos e He).
      replace (e - f_emin) with (e + - f_emin) by lia.
      rewrite Z.pow_add_r by (unfold f_emin; lia).
      split; [nia|]. split; nia.
    + rewrite Z.shiftl_div_pow2 by lia.
      pose proof (pow2_pos (- e) ltac:(lia)) as Hp.
      pose proof (Z.div_mod (Z.pos m) (2 ^ (- e)) ltac:(lia)) as DM.
      pose proof (Z.mod_pos_bound (Z.pos m) (2 ^ (- e)) ltac:(lia)) as RB.
      assert (0 <= Z.pos m / 2 ^ (- e)) by (apply Z.div_pos; lia).
      assert (2 ^ (- f_emin) = 2 ^ (- e) * 2 ^ (e - f_emin)) as EU.
      { rewrite <- Z.pow_add_r by lia. f_equal; lia. }
      pose proof (pow2_pos (e - f_emin) ltac:(lia)).
      rewrite EU. split; [assumption|]. split; nia.
Qed.

(** ** Sums *)

Lemma is_rounding_cases m1 e1 r :
  is_rounding false m1 e1 r -> f_emin <= e1 ->
  r = S754_infinity false \/ (good r /\ V r = m1 * 2 ^ (e1 - f_emin)).
Proof.
  intros [[-> ->] | (m2 & e2 & He & Hm & Hc & ->)] Hmin.
  - right. split; [exact I | reflexivity].
  - destruct (Z.leb_spec e2 (emax - prec)) as [Hle|Hgt]; [right | now left].
    split; [split; assumption|].
    cbn [V]. rewrite <- Hm.
    rewrite (pow2_split (e2 - f_emin) (e1 - f_emin)) by lia.
    replace (e2 - f_emin - (e1 - f_emin)) with (e2 - e1) by lia. ring.
Qed.

(** Rounding to nearest does not go below a good float that the exact
    value is at or above. *)
Lemma binary_round_ge p e mB eB :
  f_emin <= e -> good (S754_finite false mB eB) ->
  V (S754_finite false mB eB) <= Z.pos p * 2 ^ (e - f_emin) ->
  binary_round prec emax false p e = S754_infinity false
  \/ (good (binary_round prec emax false p e)
      /\ V (S754_finite false mB eB) <= V (binary_round prec emax false p e)).
Proof.
  intros He GB HB.
  destruct (binary_round_spec p e) as (m1 & H1 & H2 & H3).
  change (Z.pos (digits2_pos p)) with (Zdigits2 (Z.pos p)) in *.
  set (e1 := f_fexp (Zdigits2 (Z.pos p) + e)) in *.
  assert (f_emin <= e1) as He1 by (unfold e1, f_fexp; lia).
  destruct (is_rounding_cases _ _ _ H3 He1) as [Inf | [G E]]; [now left | right].
  split; [exact G|]. rewrite E. cbn [V] in *.
  apply good_finite_inv in GB as (_ & [EB _] & UB & _).
  pose proof (pow2_pos (e1 - f_emin) ltac:(lia)) as Hp1.
  pose proof (pow2_pos (e - f_emin) ltac:(lia)) as Hpe.
  destruct (Z.le_gt_cases e1 e) as [Hle | Hgt].
  - (* the value is representable as it is *)
    rewrite (H1 Hle).
    rewrite <- Z.mul_assoc, <- Z.pow_add_r by lia.
    replace (e - e1 + (e1 - f_emin)) with (e - f_emin) by lia. exact HB.
  - specialize (H2 ltac:(lia)). set (n := e1 - e) in *.
    pose proof (rnd_ok_range _ _ _ _ H2) as [R1 _].
    pose proof (pow2_pos n ltac:(unfold n; lia)) as Hpn.
    destruct (Z.le_gt_cases e1 eB) as [HB1 | HB1].
    + assert (Z.pos mB * 2 ^ (eB - e1) <= m1) as Hm.
      { etransitivity; [|exact R1].
        apply Z.div_le_lower_bound; [lia|].
        apply (Z.mul_le_mono_pos_r _ _ (2 ^ (e - f_emin))); [lia|].
        replace (2 ^ n * (Z.pos mB * 2 ^ (eB - e1)) * 2 ^ (e - f_emin))
          with (Z.pos mB * (2 ^ (eB - e1) * 2 ^ n * 2 ^ (e - f_emin))) by ring.
        rewrite <- !Z.pow_add_r by (unfold n; lia).
        replace (eB - e1 + n + (e - f_emin)) with (eB - f_emin) by (unfold n; lia).
        exact HB. }
      rewrite (pow2_split (eB - f_emin) (e1 - f_emin)) by lia.
      replace (eB - f_emin - (e1 - f_emin)) with (eB - e1) by lia.
      rewrite Z.mul_assoc.
      apply Z.mul_le_mono_nonneg_r; [lia | exact Hm].
    + (* the result is normal, above every float of a smaller exponent *)
      assert (e1 = Zdigits2 (Z.pos p) + e - 53) as Ee1 by (unfold e1, f_fexp in *; lia).
      pose proof (Zdigits2_bounds (Z.pos p) ltac:(lia)) as [DL _].
      assert (2 ^ 52 <= m1) as Hm.
      { etransitivity; [|exact R1].
        apply Z.div_le_lower_bound; [lia|].
        rewrite <- Z.pow_add_r by (unfold n; lia).
        replace (n + 52) with (Zdigits2 (Z.pos p) - 1) by (unfold n; lia). exact DL. }
      assert (2 ^ (eB - f_emin) * 2 <= 2 ^ (e1 - f_emin)) as Hpow.
      { replace (2 ^ (eB - f_emin) * 2) with (2 ^ (eB - f_emin + 1))
          by (rewrite Z.pow_add_r by lia; reflexivity).
        apply pow2_le. lia. }
      pose proof (pow2_pos (eB - f_emin) ltac:(lia)).
      assert (Z.pos mB * 2 ^ (eB - f_emin) <= 2 ^ 52 * 2 ^ (e1 - f_emin)) by nia.
      etransitivity; [eassumption|].
      apply Z.mul_le_mono_nonneg_r; lia.
Qed.

(** Rounding to nearest does not go above a good float that the exact
    value is at or below, and so stays finite. *)
Lemma binary_round_le p e mB eB :
  f_emin <= e -> good (S754_finite false mB eB) ->
  Z.pos p * 2 ^ (e - f_emin) <= V (S754_finite false mB eB) ->
  good (binary_round prec emax false p e)
  /\ V (binary_round prec emax false p e) <= V (S754_finite false mB eB).
Proof.
  intros He GB HB.
  pose proof (good_V_bound _ GB) as Hfin.
  destruct (binary_round_spec p e) as (m1 & H1 & H2 & H3).
  change (Z.pos (digits2_pos p)) with (Zdigits2 (Z.pos p)) in *.
  set (e1 := f_fexp (Zdigits2 (Z.pos p) + e)) in *.
  assert (f_emin <= e1) as He1 by (unfold e1, f_fexp; lia).
  apply good_finite_inv in GB as (_ & [EB _] & UB & _).
  cbn [V] in *.
  pose proof (pow2_pos (e1 - f_emin) ltac:(lia)) as Hp1.
  pose proof (pow2_pos (e - f_emin) ltac:(lia)) as Hpe.
  pose proof (pow2_pos (eB - f_emin) ltac:(lia)) as HpB.
  assert (m1 * 2 ^ (e1 - f_emin) <= Z.pos mB * 2 ^ (eB - f_emin)) as HV.
  { destruct (Z.le_gt_cases e1 e) as [Hle | Hgt].
    - rewrite (H1 Hle).
      rewrite <- Z.mul_assoc, <- Z.pow_add_r by lia.
      replace (e - e1 + (e1 - f_emin)) with (e - f_emin) by lia. exact HB.
    - specialize (H2 ltac:(lia)). set (n := e1 - e) in *.
      pose proof (pow2_pos n ltac:(unfold n; lia)) as Hpn.
      assert (e1 = Zdigits2 (Z.pos p) + e - 53) as Ee1 by (unfold e1, f_fexp in *; lia).
      pose proof (Zdigits2_bounds (Z.pos p) ltac:(lia)) as [DL _].
      (* the bound has an exponent of at least e1 *)
      assert (e1 <= eB) as HeB.
      { destruct (Z.le_gt_cases e1 eB) as [|C]; [assumption|exfalso].
        assert (2 ^ (Zdigits2 (Z.pos p) - 1) * 2 ^ (e - f_emin)
                = 2 ^ 52 * 2 ^ (e1 - f_emin)) as E.
        { rewrite <- !Z.pow_add_r by (unfold e1, f_fexp in *; lia). f_equal. lia. }
        assert (2 ^ (eB - f_emin) * 2 <= 2 ^ (e1 - f_emin)) as Hpow.
        { replace (2 ^ (eB - f_emin) * 2) with (2 ^ (eB - f_emin + 1))
            by (rewrite Z.pow_add_r by lia; reflexivity).
          apply pow2_le. lia. }
        assert (2 ^ 52 * 2 ^ (e1 - f_emin) <= Z.pos p * 2 ^ (e - f_emin)).
        { rewrite <- E. apply Z.mul_le_mono_nonneg_r; lia. }
        nia. }
      set (Tb := Z.pos mB * 2 ^ (eB - e1)).
      assert (Z.pos mB * 2 ^ (eB - f_emin) = Tb * 2 ^ (e1 - f_emin)) as EB'.
      { unfold Tb. rewrite <- Z.mul_assoc, <- Z.pow_add_r by lia. do 2 f_equal. lia. }
      assert (2 ^ (e1 - f_emin) = 2 ^ n * 2 ^ (e - f_emin)) as En.
      { rewrite <- Z.pow_add_r by (unfold n; lia). f_equal. unfold n. lia. }
      assert (Z.pos p <= Tb * 2 ^ n) as Hb'.
      { apply (Z.mul_le_mono_pos_r _ _ (2 ^ (e - f_emin))); [lia|].
        rewrite <- Z.mul_assoc, <- En, <- EB'. exact HB. }
      rewrite EB'. apply Z.mul_le_mono_nonneg_r; [lia|].
      pose proof (Z.div_mod (Z.pos p) (2 ^ n) ltac:(lia)) as DM.
      pose proof (Z.mod_pos_bound (Z.pos p) (2 ^ n) ltac:(lia)) as RB.
      destruct H2 as [[-> _] | [-> [[C _] | [_ Hup]]]]; [| unfold n in C; lia |].
      + apply Z.div_le_upper_bound; lia.
      + assert (Z.pos p / 2 ^ n < Tb); [|lia].
        destruct (Z.lt_ge_cases (Z.pos p / 2 ^ n) Tb); [assumption|nia]. }
  destruct (is_rounding_good m1 e1 _ H3 He1 ltac:(lia)) as [G E].
  split; [exact G | rewrite E; exact HV].
Qed.

(** A rounding below [2^-1021] is exact. *)
Lemma binary_round_exact_or_normal p e :
  f_emin <= e ->
  binary_round prec emax false p e = S754_infinity false
  \/ (good (binary_round prec emax false p e)
      /\ 0 < V (binary_round prec emax false p e)
      /\ (V (binary_round prec emax false p e) = Z.pos p * 2 ^ (e - f_emin)
          \/ 2 ^ 53 <= V (binary_round prec emax false p e))).
Proof.
  intros He.
  destruct (binary_round_spec p e) as (m1 & H1 & H2 & H3).
  change (Z.pos (digits2_pos p)) with (Zdigits2 (Z.pos p)) in *.
  set (e1 := f_fexp (Zdigits2 (Z.pos p) + e)) in *.
  assert (f_emin <= e1) as He1 by (unfold e1, f_fexp; lia).
  destruct (is_rounding_cases _ _ _ H3 He1) as [Inf | [G E]]; [now left | right].
  split; [exact G|]. rewrite E.
  pose proof (pow2_pos (e1 - f_emin) ltac:(lia)) as Hp1.
  destruct (Z.le_gt_cases e1 e) as [Hle | Hgt].
  - rewrite (H1 Hle).
    rewrite <- Z.mul_assoc, <- Z.pow_add_r by lia.
    replace (e - e1 + (e1 - f_emin)) with (e - f_emin) by lia.
    pose proof (pow2_pos (e - f_emin) ltac:(lia)).
    split; [nia | now left].
  - specialize (H2 ltac:(lia)). set (n := e1 - e) in *.
    pose proof (rnd_ok_range _ _ _ _ H2) as [R1 _].
    pose proof (pow2_pos n ltac:(unfold n; lia)) as Hpn.
    assert (e1 = Zdigits2 (Z.pos p) + e - 53) as Ee1 by (unfold e1, f_fexp in *; lia).
    pose proof (Zdigits2_bounds (Z.pos p) ltac:(lia)) as [DL _].
    assert (2 ^ 52 <= m1) as Hm.
    { etransitivity; [|exact R1].
      apply Z.div_le_lower_bound; [lia|].
      rewrite <- Z.pow_add_r by (unfold n; lia).
      replace (n + 52) with (Zdigits2 (Z.pos p) - 1) by (unfold n; lia). exact DL. }
    assert (2 <= 2 ^ (e1 - f_emin))
      by (change 2 with (2 ^ 1) at 1; apply pow2_le; lia).
    split; [nia | right; nia].
Qed.

(** The sum of two good floats is [+inf] or a good float above both. *)
Lemma fadd_good a b :
  good a -> good b ->
  fadd a b = S754_infinity false
  \/ (good (fadd a b) /\ V a <= V (fadd a b) /\ V b <= V (fadd a b)).
Proof.
  intros Ga Gb.
  destruct a as [sa| | |sa ma ea]; try contradiction;
    destruct b as [sb| | |sb mb eb]; try contradiction.
  - right. destruct sa, sb; cbn; repeat split; lia.
  - right. cbn [fadd SFadd]. repeat split; try assumption; [apply V_nonneg | lia].
  - right. cbn [fadd SFadd]. repeat split; try assumption; [lia | apply V_nonneg].
  - pose proof (good_finite_inv _ _ _ Ga) as (-> & [Ea _] & _).
    pose proof (good_finite_inv _ _ _ Gb) as (-> & [Eb _] & _).
    unfold fadd, SFadd. cbn [cond_Zopp].
    set (ez := Z.min ea eb).
    pose proof (shl_align_spec ma ea ez) as Sa.
    pose proof (shl_align_spec mb eb ez) as Sb.
    destruct (shl_align ma ea ez) as [ma' ea'], (shl_align mb eb ez) as [mb' eb'].
    destruct Sa as [Sa1 Sa2], Sb as [Sb1 Sb2]. cbn [fst].
    assert (ea' = ez) as -> by (unfold ez in *; lia).
    assert (eb' = ez) as -> by (unfold ez in *; lia).
    change (Z.pos ma' + Z.pos mb') with (Z.pos (ma' + mb')).
    cbn [binary_normalize].
    pose proof (pow2_pos (ez - f_emin) ltac:(unfold ez; lia)) as Hpz.
    assert (V (S754_finite false ma ea) = Z.pos ma' * 2 ^ (ez - f_emin)) as Va.
    { cbn [V]. rewrite Sa2, <- Z.mul_assoc, <- Z.pow_add_r by (unfold ez; lia).
      do 2 f_equal. lia. }
    assert (V (S754_finite false mb eb) = Z.pos mb' * 2 ^ (ez - f_emin)) as Vb.
    { cbn [V]. rewrite Sb2, <- Z.mul_assoc, <- Z.pow_add_r by (unfold ez; lia).
      do 2 f_equal. lia. }
    pose proof (binary_round_ge (ma' + mb') ez ma ea ltac:(unfold ez; lia) Ga
                  ltac:(rewrite Va; nia)) as [Inf | [G La]]; [now left|].
    pose proof (binary_round_ge (ma' + mb') ez mb eb ltac:(unfold ez; lia) Gb
                  ltac:(rewrite Vb; nia)) as [Inf | [_ Lb]]; [now left|].
    right. repeat split; assumption.
Qed.


(** ** Floats of either sign *)

Lemma good_valid x : good x -> valid x /\ SV x = V x.
Proof.
  destruct x as [s| | |s m e]; try contradiction.
  - intros _. split; [exact I | reflexivity].
  - destruct s; [contradiction|]. intros G. split; [exact G | reflexivity].
Qed.

Lemma valid_abs x : valid x -> good (SFabs x) /\ V (SFabs x) = Z.abs (SV x).
Proof.
  destruct x as [s| | |s m e]; try contradiction; intros Hv.
  - split; [exact I | reflexivity].
  - split; [exact Hv|]. destruct Hv as [C _].
    apply canonical_bounds in C as (E & _).
    pose proof (pow2_pos (e - f_emin) ltac:(lia)).
    destruct s; cbn [SFabs V SV]; lia.
Qed.

Lemma valid_nonneg_good x : valid x -> 0 <= SV x -> good x /\ V x = SV x.
Proof.
  destruct x as [s| | |s m e]; try contradiction; intros Hv Hs.
  - split; [exact I | reflexivity].
  - destruct s.
    + exfalso. destruct Hv as [C _]. apply canonical_bounds in C as (E & _).
      pose proof (pow2_pos (e - f_emin) ltac:(lia)). cbn [SV] in Hs. lia.
    + split; [exact Hv | reflexivity].
Qed.

Lemma SV_opp x : SV (SFopp x) = - SV x.
Proof. destruct x as [s| s | |s m e]; try reflexivity. destruct s; cbn; lia. Qed.

Lemma valid_opp x : valid x -> valid (SFopp x).
Proof. destruct x; auto. Qed.

(** On valid floats the comparison of the format is the order of the
    signed values. *)
Lemma SFcompare_SV a b :
  valid a -> valid b -> SFcompare a b = Some (SV a ?= SV b).
Proof.
  intros Ha Hb.
  destruct a as [sa| | |sa ma ea]; try contradiction;
    destruct b as [sb| | |sb mb eb]; try contradiction.
  - reflexivity.
  - pose proof (valid_abs _ Hb) as [_ E]. cbn [SFabs V] in E.
    pose proof (proj1 Hb) as C. apply canonical_bounds in C as (Eb & _).
    pose proof (pow2_pos (eb - f_emin) ltac:(lia)).
    destruct sb; cbn [SFcompare SV]; f_equal; symmetry;
      [apply Z.compare_gt_iff | apply Z.compare_lt_iff]; lia.
  - pose proof (proj1 Ha) as C. apply canonical_bounds in C as (Ea & _).
    pose proof (pow2_pos (ea - f_emin) ltac:(lia)).
    destruct sa; cbn [SFcompare SV]; f_equal; symmetry;
      [apply Z.compare_lt_iff | apply Z.compare_gt_iff]; lia.
  - pose proof (proj1 Ha) as Ca. apply canonical_bounds in Ca as (Ea & _).
    pose proof (proj1 Hb) as Cb. apply canonical_bounds in Cb as (Eb & _).
    pose proof (pow2_pos (ea - f_emin) ltac:(lia)).
    pose proof (pow2_pos (eb - f_emin) ltac:(lia)).
    destruct sa, sb.
    + (* both negative: the order of the absolute values, reversed *)
      pose proof (SFcompare_V (S754_finite false mb eb) (S754_finite false ma ea) Hb Ha) as E.
      cbn [SFcompare V] in E. cbn [SFcompare SV].
      rewrite Z.compare_opp. rewrite <- E. f_equal.
      rewrite (Z.compare_antisym ea eb), (Pos.compare_cont_antisym ma mb Eq).
      destruct (ea ?= eb); reflexivity.
    + cbn [SFcompare SV]. f_equal. symmetry. apply Z.compare_lt_iff. lia.
    + cbn [SFcompare SV]. f_equal. symmetry. apply Z.compare_gt_iff. lia.
    + apply (SFcompare_V (S754_finite false ma ea) (S754_finite false mb eb)); assumption.
Qed.

Lemma SFltb_SV a b : valid a -> valid b -> SFltb a b = true <-> SV a < SV b.
Proof.
  intros Ha Hb. unfold SFltb. rewrite (SFcompare_SV a b Ha Hb).
  destruct (Z.compare_spec (SV a) (SV b)); split; intros; try lia; try discriminate; reflexivity.
Qed.

Lemma SFleb_SV a b : valid a -> valid b -> SFleb a b = true <-> SV a <= SV b.
Proof.
  intros Ha Hb. unfold SFleb. rewrite (SFcompare_SV a b Ha Hb).
  destruct (Z.compare_spec (SV a) (SV b)); split; intros; try lia; try discriminate; reflexivity.
Qed.

Lemma SFeqb_SV a b : valid a -> valid b -> SFeqb a b = true <-> SV a = SV b.
Proof.
  intros Ha Hb. unfold SFeqb. rewrite (SFcompare_SV a b Ha Hb).
  destruct (Z.compare_spec (SV a) (SV b)); split; intros; try lia; try discriminate; reflexivity.
Qed.

Lemma binary_round_opp p e :
  binary_round prec emax true p e = SFopp (binary_round prec emax false p e).
Proof.
  unfold binary_round. destruct (shl_align p e _) as [mz ez].
  unfold binary_round_aux.
  destruct (shr_fexp prec emax (Z.pos mz) ez loc_Exact) as [mrs e'].
  destruct (shr_fexp prec emax _ e' loc_Exact) as [mrs'' e''].
  destruct (shr_m mrs'') as [|m|m]; try reflexivity.
  destruct (e'' <=? emax - prec); reflexivity.
Qed.

(** Rounding an integer multiple of [2^e] keeps it between two valid
    floats that enclose it. *)
Lemma normalize_between z e Bl Bu :
  f_emin <= e -> valid Bl -> valid Bu ->
  SV Bl <= z * 2 ^ (e - f_emin) <= SV Bu ->
  valid (binary_normalize prec emax z e false)
  /\ SV Bl <= SV (binary_normalize prec emax z e false) <= SV Bu.
Proof.
  intros He Hl Hu [HL HU].
  pose proof (pow2_pos (e - f_emin) ltac:(lia)) as Hpe.
  destruct z as [|p|p]; cbn [binary_normalize].
  - cbn [SV]. split; [exact I | lia].
  - (* a positive value *)
    destruct (valid_nonneg_good Bu Hu ltac:(nia)) as [Gu Vu].
    destruct Bu as [su| | |su mu eu]; try contradiction.
    { cbn [SV] in HU. nia. }
    destruct su; [contradiction|].
    destruct (binary_round_le p e mu eu He Gu ltac:(rewrite Vu; exact HU)) as [G L].
    destruct (good_valid _ G) as [Hv Es]. split; [exact Hv|]. rewrite Es.
    split; [|rewrite <- Vu; exact L].
    destruct (Z.le_gt_cases (SV Bl) 0) as [|Hpos];
      [pose proof (V_nonneg (binary_round prec emax false p e)); lia|].
    destruct (valid_nonneg_good Bl Hl ltac:(lia)) as [Gl Vl].
    destruct Bl as [sl| | |sl ml el]; try contradiction.
    { cbn [SV] in Hpos. lia. }
    destruct sl; [contradiction|].
    destruct (binary_round_ge p e ml el He Gl ltac:(rewrite Vl; exact HL)) as [Inf | [_ L']].
    + rewrite Inf in G. contradiction.
    + rewrite <- Vl. exact L'.
  - (* a negative value: the mirror image *)
    rewrite binary_round_opp, SV_opp.
    destruct (valid_abs Bl Hl) as [Gl Vl].
    destruct Bl as [sl| | |sl ml el]; try contradiction.
    { cbn [SV] in HL. nia. }
    assert (SV (S754_finite sl ml el) < 0) as Hneg by nia.
    cbn [SFabs] in Gl, Vl.
    destruct (binary_round_le p e ml el He Gl) as [G L].
    { rewrite Vl. change (Z.neg p) with (- Z.pos p) in HL. lia. }
    destruct (good_valid _ G) as [Hv Es].
    split; [apply valid_opp; exact Hv|].
    split; [rewrite Vl in L; lia|].
    destruct (Z.le_gt_cases 0 (SV Bu)) as [|Hnegu];
      [pose proof (V_nonneg (binary_round prec emax false p e)); lia|].
    destruct (valid_abs Bu Hu) as [Gu Vu].
    destruct Bu as [su| | |su mu eu]; try contradiction.
    { cbn [SV] in Hnegu. lia. }
    cbn [SFabs] in Gu, Vu.
    destruct (binary_round_ge p e mu eu He Gu) as [Inf | [_ L']].
    { rewrite Vu. change (Z.neg p) with (- Z.pos p) in HU. lia. }
    + rewrite Inf in G. contradiction.
    + rewrite Vu in L'. lia.
Qed.

Lemma aligned_value s m e ez :
  f_emin <= ez <= e ->
  cond_Zopp s (Z.pos (fst (shl_align m e ez))) * 2 ^ (ez - f_emin)
  = SV (S754_finite s m e).
Proof.
  intros He. pose proof (shl_align_spec m e ez) as A.
  destruct (shl_align m e ez) as [m' e']. destruct A as [A1 A2]. cbn [fst].
  assert (e' = ez) as -> by lia.
  assert (Z.pos m' * 2 ^ (ez - f_emin) = Z.pos m * 2 ^ (e - f_emin)) as E.
  { rewrite A2, <- Z.mul_assoc, <- Z.pow_add_r by lia. do 2 f_equal. lia. }
  destruct s; cbn [cond_Zopp SV]; lia.
Qed.

Lemma valid_exponent s m e : valid (S754_finite s m e) -> f_emin <= e.
Proof. intros [C _]. now apply canonical_bounds in C as (E & _). Qed.

(** A sum of valid floats stays between two valid floats that enclose
    its exact value. *)
Lemma fadd_between a b Bl Bu :
  valid a -> valid b -> valid Bl -> valid Bu ->
  SV Bl <= SV a + SV b <= SV Bu ->
  valid (fadd a b) /\ SV Bl <= SV (fadd a b) <= SV Bu.
Proof.
  intros Ha Hb Hl Hu Hs.
  destruct a as [sa| | |sa ma ea]; try contradiction;
    destruct b as [sb| | |sb mb eb]; try contradiction.
  - cbn [SV] in Hs. destruct sa, sb; cbn; (split; [exact I | lia]).
  - cbn [fadd SFadd]. cbn [SV] in Hs |- *. split; [exact Hb | lia].
  - cbn [fadd SFadd]. cbn [SV] in Hs |- *. split; [exact Ha | lia].
  - pose proof (valid_exponent _ _ _ Ha). pose proof (valid_exponent _ _ _ Hb).
    unfold fadd, SFadd.
    apply normalize_between; try assumption; [lia|].
    rewrite Z.mul_add_distr_r, !aligned_value by lia. exact Hs.
Qed.

(** The difference of valid floats [min < max]: if it does not overflow,
    it is a good positive float, exact or at least [2^-1021], and not above
    any good float that the exact difference is at or below. *)
Lemma fsub_pos max min :
  valid max -> valid min -> SV min < SV max ->
  fsub max min = S754_infinity false
  \/ (good (fsub max min)
      /\ 0 < V (fsub max min)
      /\ (V (fsub max min) = SV max - SV min \/ 2 ^ 53 <= V (fsub max min))
      /\ (forall B, good B -> SV max - SV min <= V B -> V (fsub max min) <= V B)).
Proof.
  intros Hmax Hmin Hlt.
  destruct max as [sx| | |sx mx ex]; try contradiction;
    destruct min as [sy| | |sy my ey]; try contradiction.
  - cbn [SV] in Hlt. lia.
  - right. cbn [fsub SFsub].
    destruct (valid_abs _ Hmin) as [G E]. cbn [SFabs] in G, E.
    change (SV (S754_zero sx)) with 0 in *.
    rewrite Z.abs_neq in E by lia.
    assert (sy = true) as -> .
    { destruct sy; [reflexivity|]. pose proof (V_nonneg (S754_finite false my ey)).
      change (SV (S754_finite false my ey)) with (V (S754_finite false my ey)) in Hlt. lia. }
    cbn [negb].
    split; [exact G|]. split; [lia|]. split; [left; lia|].
    intros B _ HB. lia.
  - right. cbn [fsub SFsub].
    change (SV (S754_zero sy)) with 0 in *.
    destruct (valid_nonneg_good _ Hmax ltac:(lia)) as [G E].
    split; [exact G|]. split; [lia|]. split; [left; lia|].
    intros B _ HB. lia.
  - pose proof (valid_exponent _ _ _ Hmax). pose proof (valid_exponent _ _ _ Hmin).
    unfold fsub, SFsub. set (ez := Z.min ex ey).
    set (z := cond_Zopp sx (Z.pos (fst (shl_align mx ex ez)))
              - cond_Zopp sy (Z.pos (fst (shl_align my ey ez)))).
    pose proof (pow2_pos (ez - f_emin) ltac:(unfold ez; lia)) as Hpz.
    assert (z * 2 ^ (ez - f_emin)
            = SV (S754_finite sx mx ex) - SV (S754_finite sy my ey)) as Ez.
    { unfold z. rewrite Z.mul_sub_distr_r, !aligned_value by (unfold ez; lia).
      reflexivity. }
    destruct z as [|p|p]; [lia | | lia].
    cbn [binary_normalize]. rewrite <- Ez.
    destruct (binary_round_exact_or_normal p ez ltac:(unfold ez; lia))
      as [Inf | (G & Hpos & Hex)]; [now left | right].
    repeat split; try assumption.
    intros B GB HB.
    destruct B as [sB| | |sB mB eB]; try contradiction.
    { cbn [V] in HB. lia. }
    destruct sB; [contradiction|].
    apply binary_round_le; [unfold ez; lia | exact GB | exact HB].
Qed.

Lemma fmul_comm a b : fmul a b = fmul b a.
Proof.
  destruct a as [sa|sa| |sa ma ea], b as [sb|sb| |sb mb eb];
    cbn [fmul SFmul]; try reflexivity; try (now rewrite xorb_comm).
  unfold fmul, SFmul. now rewrite xorb_comm, Pos.mul_comm, Z.add_comm.
Qed.

(** One turn of the loop of [next_in_crange], for finite [min < max] whose
    difference does not overflow: the candidate lies in [[min, max]]. *)
Lemma crange_candidate min max u :
  valid min -> valid max -> SV min < SV max -> good (fsub max min) ->
  good u -> V u < 2 ^ (- f_emin) ->
  let x := fadd (fmul (fsub max min) u) min in
  valid x /\ SV min <= SV x <= SV max.
Proof.
  intros Hmin Hmax Hlt Gd Gu Lu x.
  destruct (fsub_pos max min Hmax Hmin Hlt) as [Inf | (_ & _ & Hex & Hup)].
  { rewrite Inf in Gd. contradiction. }
  destruct (fmul_unit u (fsub max min) Gu Lu Gd) as (Gp & Lp & Lp').
  rewrite <- fmul_comm in Gp, Lp, Lp'.
  set (p := fmul (fsub max min) u) in *.
  assert (V p <= SV max - SV min) as Hp.
  { destruct Hex as [E | Hbig]; [lia|].
    specialize (Lp' Hbig).
    destruct (Z.le_gt_cases (V p) (SV max - SV min)) as [|C]; [assumption|].
    specialize (Hup p Gp ltac:(lia)). lia. }
  destruct (good_valid p Gp) as [Vp Ep].
  pose proof (V_nonneg p).
  apply fadd_between; try assumption. rewrite Ep. lia.
Qed.

(** ** The unit draw *)

Lemma T_wrap_range T z : 0 <= T_wrap T z <= T_max T.
Proof.
  unfold T_wrap, T_max. pose proof (wrap_range (bits T) z).
  destruct T; cbn [bits] in *; lia.
Qed.

Lemma T_wrap_small T z : 0 <= z <= T_max T -> T_wrap T z = z.
Proof.
  intros H. apply wrap_small. unfold T_max in H. lia.
Qed.

Lemma T_max_lt T : T_max T < 2 ^ 64.
Proof. destruct T; unfold T_max; cbn [bits]; lia. Qed.

Lemma of_Z_T_max T :
  exists m e, of_Z (T_max T) = S754_finite false m e
              /\ good (S754_finite false m e)
              /\ e <= 12
              /\ T_max T * 2 ^ (- f_emin) <= V (S754_finite false m e).
Proof.
  destruct T.
  - exists 9007199252643840%positive, (-21).
    split; [reflexivity|]. split; [split; [reflexivity | unfold emax, prec; lia]|].
    split; [lia|]. vm_compute. discriminate.
  - exists 4503599627370496%positive, 12.
    split; [reflexivity|]. split; [split; [reflexivity | unfold emax, prec; lia]|].
    split; [lia|]. vm_compute. discriminate.
Qed.

Lemma good_ge_one_exponent s m e :
  good (S754_finite s m e) -> 2 ^ (- f_emin) <= V (S754_finite s m e) -> -52 <= e.
Proof.
  intros G H. apply good_finite_inv in G as (_ & [E _] & U & _).
  cbn [V] in H.
  destruct (Z.le_gt_cases (-52) e) as [|C]; [assumption|exfalso].
  assert (2 ^ (e - f_emin) <= 2 ^ (-53 - f_emin)) by (apply pow2_le; lia).
  assert (2 ^ 53 * 2 ^ (-53 - f_emin) = 2 ^ (- f_emin))
    by (rewrite <- Z.pow_add_r by (unfold f_emin; lia); reflexivity).
  pose proof (pow2_pos (e - f_emin) ltac:(lia)). nia.
Qed.

Lemma pow53_le_unit : 2 ^ 53 <= 2 ^ (- f_emin).
Proof. apply pow2_le. unfold f_emin. lia. Qed.

(** Every candidate of [next_unit] is a good float in [[0, 1]]. *)
Lemma unit_of_good T g :
  0 <= g <= T_max T ->
  good (Generator.unit_of T g) /\ V (Generator.unit_of T g) <= 2 ^ (- f_emin).
Proof.
  intros Hg. unfold Generator.unit_of.
  destruct (of_Z_T_max T) as (mb & eb & Eb & Gb & Heb & Vb). rewrite Eb.
  destruct (Z.eq_dec g 0) as [-> | Hnz].
  { cbn. split; [exact I | lia]. }
  pose proof (T_max_lt T).
  destruct (of_Z_bounds g) as (Ga & La & Ua).
  { split; [lia|]. assert (2 ^ 64 < 2 ^ 1000) by (apply pow2_lt; lia). lia. }
  pose proof pow53_le_unit.
  pose proof (pow2_pos (- f_emin) ltac:(unfold f_emin; lia)).
  specialize (Ua _ Gb ltac:(nia)).
  destruct (of_Z g) as [sa| | |sa ma ea]; try contradiction.
  pose proof (good_ge_one_exponent _ _ _ Ga La).
  pose proof (good_finite_inv _ _ _ Ga) as (-> & _).
  apply fdiv_le_one; try assumption; try lia. unfold f_emin. lia.
Qed.

Lemma V_f_one : V f_one = 2 ^ (- f_emin).
Proof. reflexivity. Qed.

Lemma f_one_eq : f_one = S754_finite false 4503599627370496 (-52).
Proof. reflexivity. Qed.

Lemma good_f_one : good f_one.
Proof. rewrite f_one_eq. split; [reflexivity | unfold emax, prec; lia]. Qed.

Lemma good_f_zero : good f_zero.
Proof. exact I. Qed.

(** What [next_unit] returns is a candidate that is not [1.0]. *)
Lemma next_unit_Ok T t x t' :
  Generator.next_unit T t = Ok x t' ->
  exists g, 0 <= g <= T_max T /\ x = Generator.unit_of T g /\ feqb x f_one = false.
Proof.
  induction t as [|g t IH]; cbn [Generator.next_unit]; [discriminate|].
  destruct (feqb (Generator.unit_of T (T_wrap T g)) f_one) eqn:E.
  - exact IH.
  - intros [= <- <-]. exists (T_wrap T g).
    split; [apply T_wrap_range|]. split; [reflexivity | exact E].
Qed.

Lemma next_unit_no_throw T t : 
  match Generator.next_unit T t with
  | Ok _ _ | Starved => True
  | _ => False
  end.
Proof.
  induction t as [|g t IH]; cbn [Generator.next_unit]; [exact I|].
  destruct (feqb _ f_one); [exact IH | exact I].
Qed.

Lemma next_unit_below_one T t x t' :
  Generator.next_unit T t = Ok x t' -> good x /\ V x < 2 ^ (- f_emin).
Proof.
  intros H. destruct (next_unit_Ok _ _ _ _ H) as (g & Hg & -> & Hne).
  destruct (unit_of_good T g Hg) as [G L]. split; [exact G|].
  destruct (Z.eq_dec (V (Generator.unit_of T g)) (2 ^ (- f_emin))) as [E|]; [|lia].
  rewrite <- V_f_one in E. apply (SFeqb_V _ _ G good_f_one) in E.
  unfold feqb in Hne. congruence.
Qed.

(** C8.  Every candidate of [next_unit], the raw draw divided by the
    largest value of [T], lies in [[0, 1]]; and whenever the rejection loop
    ends, the value returned is not [1.0] and lies in [[0, 1)]. *)
Theorem next_unit_in_unit_interval T :
  (forall g,
      let c := Generator.unit_of T (T_wrap T g) in
      fleb f_zero c = true /\ fleb c f_one = true)
  /\ (forall t x t',
         Generator.next_unit T t = Ok x t' ->
         feqb x f_one = false /\ fleb f_zero x = true /\ fltb x f_one = true).
Proof.
  split.
  - intros g c. destruct (unit_of_good T (T_wrap T g) (T_wrap_range T g)) as [G L].
    fold c in G, L. unfold fleb. split.
    + apply (SFleb_V _ _ good_f_zero G). apply V_nonneg.
    + apply (SFleb_V _ _ G good_f_one). rewrite V_f_one. exact L.
  - intros t x t' H.
    destruct (next_unit_below_one _ _ _ _ H) as [G L].
    destruct (next_unit_Ok _ _ _ _ H) as (g & _ & _ & Hne).
    split; [exact Hne|]. unfold fleb, fltb. split.
    + apply (SFleb_V _ _ good_f_zero G). apply V_nonneg.
    + apply (SFltb_V _ _ G good_f_one). rewrite V_f_one. exact L.
Qed.

Lemma next_unit_in_unit_interval_witness :
  let x := Generator.unit_of U32 5 in
  feqb x f_one = false /\ fleb f_zero x = true /\ fltb x f_one = true.
Proof.
  apply (proj2 (next_unit_in_unit_interval U32) [2 ^ 32 - 1; 5] _ []).
  reflexivity.
Defined.

(** ** next_in_range *)

Lemma fmul_zero_r x : good x -> exists s, fmul x f_zero = S754_zero s.
Proof.
  destruct x as [s| | |s m e]; try contradiction; intros _; cbn; eauto.
Qed.

Lemma to_int64_small z : 0 <= z <= int64_max -> to_int64 z = z.
Proof.
  intros H. unfold to_int64, u64, int64_max in *.
  rewrite wrap_small by lia.
  destruct (Z.ltb_spec z (2 ^ 63)); lia.
Qed.

(** The scaled draw of a range of [n >= 1] values floors to one of
    [0 .. n - 1]. *)
Lemma scaled_floor x n :
  good x -> V x < 2 ^ (- f_emin) -> 0 < n < 2 ^ 64 ->
  exists k, floorZ (fmul x (of_Z n)) = Some k /\ 0 <= k < n.
Proof.
  intros Gx Hx Hn.
  pose proof (pow2_pos (- f_emin) ltac:(unfold f_emin; lia)) as HU.
  destruct (of_Z_bounds n) as (Gn & Ln & Un).
  { split; [lia|]. assert (2 ^ 64 < 2 ^ 1000) by (apply pow2_lt; lia). lia. }
  pose proof pow53_le_unit.
  destruct (fmul_lt x (of_Z n) Gx Hx Gn ltac:(lia)) as [Gu Lu].
  destruct (floorZ_good _ Gu) as (k & Ek & Hk0 & Hk1 & _).
  exists k. split; [exact Ek|]. split; [exact Hk0|].
  destruct (Z.lt_ge_cases k n) as [|C]; [assumption|exfalso].
  specialize (Un _ Gu ltac:(nia)). lia.
Qed.

(** C1, as amended.  For [0 <= min <= max] in [T] with [max] no larger than
    the largest [int64_t], whenever the unit draw ends, [next_in_range]
    returns a value of [[min, max]]; for [min = max] it is [min]. *)
Theorem next_in_range_in_range T min max t x t' :
  0 <= min <= max -> max <= T_max T -> max <= int64_max ->
  Generator.next_unit T t = Ok x t' ->
  exists r,
    Generator.next_in_range T min max t = Ok r t'
    /\ min <= r <= max
    /\ (min = max -> r = min).
Proof.
  intros Hmm HT H64 Hx.
  destruct (next_unit_below_one _ _ _ _ Hx) as [Gx Lx].
  unfold Generator.next_in_range, bind. rewrite Hx.
  pose proof (T_max_lt T) as HTlt.
  destruct (Z.eq_dec (max - min + 1) (T_max T + 1)) as [Efull | Hpart].
  - (* the whole of a 32-bit T: the size of the range wraps to 0 *)
    assert (min = 0 /\ max = T_max T) as [-> ->] by lia.
    destruct T; [|unfold T_max, int64_max in *; cbn [bits] in *; lia].
    replace (T_wrap U32 (T_max U32 - 0 + 1)) with 0 by reflexivity.
    change (of_Z 0) with f_zero.
    destruct (fmul_zero_r x Gx) as [s ->].
    exists 0. split; [reflexivity|]. unfold T_max; cbn [bits]. lia.
  - rewrite T_wrap_small by lia.
    destruct (scaled_floor x (max - min + 1) Gx Lx ltac:(lia)) as (k & Ek & Hk).
    unfold cast_int64_floor. rewrite Ek.
    replace ((int64_min <=? k) && (k <=? int64_max)) with true
      by (symmetry; apply andb_true_iff; split; apply Z.leb_le;
          unfold int64_min, int64_max in *; lia).
    exists (k + min).
    split; [|lia].
    unfold Generator.add_min, undefined, ret. destruct T.
    + replace ((int64_min <=? k + min) && (k + min <=? int64_max)) with true
        by (symmetry; apply andb_true_iff; split; apply Z.leb_le;
            unfold int64_min, int64_max in *; lia).
      reflexivity.
    + unfold u64 at 2. rewrite (wrap_small 64 k) by (unfold int64_max in *; lia).
      unfold u64. rewrite wrap_small by (unfold int64_max in *; lia).
      rewrite to_int64_small by lia. reflexivity.
Qed.

Lemma next_in_range_in_range_witness :
  exists r, Generator.next_in_range U32 10 20 [7] = Ok r [] /\ 10 <= r <= 20 /\ (10 = 20 -> r = 10).
Proof.
  apply (next_in_range_in_range U32 10 20 [7] (Generator.unit_of U32 7) []);
    [lia | unfold T_max; cbn [bits]; lia | unfold int64_max; lia | reflexivity].
Defined.

(** With a 64-bit [T] and [min = max = 2^63] the value returned is [-2^63]:
    the claim of C1 fails as it is stated. *)
Lemma next_in_range_leaves_range :
  ~ (forall T min max t r t',
        0 <= min <= max -> max <= T_max T ->
        Generator.next_in_range T min max t = Ok r t' ->
        min <= r <= max /\ (min = max -> r = min)).
Proof.
  intros C.
  specialize (C U64 (2 ^ 63) (2 ^ 63) [0] (- 2 ^ 63) []).
  destruct C as [[C _] _]; [lia | unfold T_max; cbn [bits]; lia | reflexivity | lia].
Qed.

(** ** next_in_crange *)

Lemma feqb_refl x : valid x -> feqb x x = true.
Proof. intros Hx. unfold feqb. now apply (SFeqb_SV x x Hx Hx). Qed.

(** C7, as amended.  Whenever [next_in_crange] returns, the value it
    returns does not compare equal to [max]; and for finite [min < max]
    whose difference [max - min] does not overflow, that value lies in the
    half-open interval [[min, max)]. *)
Theorem next_in_crange_half_open T min max t x t' :
  Generator.next_in_crange T min max t = Ok x t' ->
  feqb x max = false
  /\ (valid min -> valid max -> fltb min max = true -> good (fsub max min) ->
      fleb min x = true /\ fltb x max = true).
Proof.
  unfold Generator.next_in_crange.
  generalize (S (List.length t)) as fuel. intros fuel Hrun.
  assert (feqb x max = false
          /\ (valid min -> valid max -> SV min < SV max -> good (fsub max min) ->
              valid x /\ SV min <= SV x <= SV max)) as [Hne Hin].
  { assert (forall fuel0 x0,
               x0 = max \/ (valid min -> valid max -> SV min < SV max ->
                            good (fsub max min) ->
                            valid x0 /\ SV min <= SV x0 <= SV max) ->
               forall t0,
               Generator.crange_loop T fuel0 min max x0 t0 = Ok x t' ->
               feqb x max = false
               /\ (valid min -> valid max -> SV min < SV max -> good (fsub max min) ->
                   valid x /\ SV min <= SV x <= SV max)) as Hloop.
    { clear Hrun. induction fuel0 as [|fuel0 IH]; intros x0 Hx0 t0;
        cbn [Generator.crange_loop].
      - destruct (feqb x0 max) eqn:E; [discriminate|]. intros [= <- <-].
        split; [exact E|]. intros Hmin Hmax Hlt Gd.
        destruct Hx0 as [-> | Hx0]; [|now apply Hx0].
        rewrite feqb_refl in E by assumption. discriminate.
      - destruct (feqb x0 max) eqn:E.
        + destruct (Generator.next_unit T t0) as [u rest|e rest|u|] eqn:Hu;
            try discriminate.
          intros Hrun'. refine (IH _ _ _ Hrun'). right. intros Hmin Hmax Hlt Gd.
          destruct (next_unit_below_one _ _ _ _ Hu) as [Gu Lu].
          now apply crange_candidate.
        + intros [= <- <-]. split; [exact E|]. intros Hmin Hmax Hlt Gd.
          destruct Hx0 as [-> | Hx0]; [|now apply Hx0].
          rewrite feqb_refl in E by assumption. discriminate. }
    apply (Hloop fuel max (or_introl eq_refl) t Hrun). }
  split; [exact Hne|]. intros Hmin Hmax Hlt Gd.
  apply (SFltb_SV min max Hmin Hmax) in Hlt.
  destruct (Hin Hmin Hmax Hlt Gd) as (Hx & Hlo & Hhi).
  unfold fleb, fltb. split.
  - now apply (SFleb_SV min x Hmin Hx).
  - apply (SFltb_SV x max Hx Hmax).
    destruct (Z.eq_dec (SV x) (SV max)) as [E|]; [|lia].
    apply (SFeqb_SV x max Hx Hmax) in E. unfold feqb in Hne. congruence.
Qed.

Lemma next_in_crange_half_open_witness :
  exists x,
    Generator.next_in_crange U32 (of_Z (-1)) (of_Z 2) [2 ^ 31] = Ok x []
    /\ feqb x (of_Z 2) = false
    /\ fleb (of_Z (-1)) x = true /\ fltb x (of_Z 2) = true.
Proof.
  eexists. split; [vm_compute; reflexivity|].
  destruct (next_in_crange_half_open U32 (of_Z (-1)) (of_Z 2) [2 ^ 31] _ [] eq_refl)
    as [Hne Hin].
  split; [exact Hne|]. apply Hin.
  - vm_compute. split; [reflexivity | discriminate].
  - vm_compute. split; [reflexivity | discriminate].
  - reflexivity.
  - vm_compute. split; [reflexivity | discriminate].
Defined.

(** When [max - min] overflows the value returned is [+inf]. *)
Lemma next_in_crange_overflow :
  let big := S754_finite false 9007199254740991 971 in
  Generator.next_in_crange U32 (SFopp big) big [2 ^ 31] = Ok (S754_infinity false) [].
Proof. vm_compute. reflexivity. Qed.

(** A raw draw of [0] makes [next_in_crange] return [min] itself, so its
    result is not always strictly above [min]: the claim of C7 fails as it
    is stated. *)
Lemma next_in_crange_returns_min :
  ~ (forall T min max t x t',
        fltb min max = true ->
        Generator.next_in_crange T min max t = Ok x t' ->
        feqb x max = false /\ fltb min x = true /\ fltb x max = true).
Proof.
  intros C.
  specialize (C U32 f_zero f_one [0] f_zero [] eq_refl eq_refl).
  destruct C as (_ & C & _). discriminate C.
Qed.

(** ** choice *)

(** C6.  On an empty sequence [choice] signals no error, whatever the
    tape: once the unit draw has ended it reads the element at index 0,
    which does not exist. *)
Theorem choice_empty_reads_out_of_bounds T {A} t :
  (forall x t',
      Generator.next_unit T t = Ok x t' ->
      Generator.choice T (@nil A) t = Undefined (OutOfBounds 0))
  /\ (forall e t', Generator.choice T (@nil A) t <> Throw e t').
Proof.
  assert (forall x t',
             Generator.next_unit T t = Ok x t' ->
             Generator.choice T (@nil A) t = Undefined (OutOfBounds 0)) as Hrun.
  { intros x t' Hx. destruct (next_unit_below_one _ _ _ _ Hx) as [Gx _].
    unfold Generator.choice, Generator.next_in_range, bind. rewrite Hx.
    cbn [List.length Z.of_nat].
    replace (T_wrap T (T_wrap T (0 - 1) - T_wrap T 0 + 1)) with 0
      by (destruct T; reflexivity).
    change (of_Z 0) with f_zero.
    destruct (fmul_zero_r x Gx) as [s ->].
    replace (T_wrap T 0) with 0 by (destruct T; reflexivity).
    destruct T; reflexivity. }
  split; [exact Hrun|].
  intros e t'.
  pose proof (next_unit_no_throw T t) as N.
  destruct (Generator.next_unit T t) as [x t1|e1 t1|u|] eqn:Hx; try contradiction.
  - rewrite (Hrun x t1 eq_refl). discriminate.
  - unfold Generator.choice, Generator.next_in_range, bind. rewrite Hx. discriminate.
Qed.

Lemma choice_empty_reads_out_of_bounds_witness :
  Generator.choice U64 (@nil Z) [5] = Undefined (OutOfBounds 0).
Proof.
  apply (proj1 (choice_empty_reads_out_of_bounds U64 [5]) (Generator.unit_of U64 5) []).
  reflexivity.
Defined.

(** ** upper_bound *)

Section UpperBound.
Context {W : Type} `{Weight W}.
Variable c : list W.
Variable u : real_t.

Local Abbreviation exceeds := (exceeds c u).

Lemma div2_lt n : (Nat.div2 (S n) <= n)%nat.
Proof. pose proof (Nat.lt_div2 (S n) ltac:(lia)). lia. Qed.

(** On a range where the test is monotone the search returns the first
    index that passes it, and the end of the range if none does. *)
Lemma upper_bound_loop_spec fuel :
  forall first len,
    (len <= fuel)%nat ->
    (forall i j, (first <= i <= j)%nat -> (j < first + len)%nat ->
                 exceeds i = true -> exceeds j = true) ->
    let r := upper_bound_loop fuel c u first len in
    (first <= r <= first + len)%nat
    /\ (forall j, (first <= j < r)%nat -> exceeds j = false)
    /\ ((r < first + len)%nat -> exceeds r = true).
Proof.
  induction fuel as [|fuel IH]; intros first len Hlen Hmono.
  - assert (len = 0%nat) as -> by lia. cbn. repeat split; lia.
  - cbn [upper_bound_loop]. destruct len as [|l].
    + cbn. repeat split; lia.
    + set (half := Nat.div2 (S l)).
      pose proof (div2_lt l) as Hhalf. fold half in Hhalf.
      change (fltb u (w_real (nth (first + half) c w_zero))) with (exceeds (first + half)).
      destruct (exceeds (first + half)) eqn:E.
      * destruct (IH first half ltac:(lia)) as (R1 & R2 & R3).
        { intros i j Hij Hj. apply Hmono; lia. }
        cbn zeta. repeat split; try lia; [exact R2|].
        intros _.
        destruct (Nat.eq_dec (upper_bound_loop fuel c u first half) (first + half)) as [Er|Nr].
        -- rewrite Er. exact E.
        -- apply R3. lia.
      * destruct (IH (S (first + half)) (S l - half - 1)%nat ltac:(lia)) as (R1 & R2 & R3).
        { intros i j Hij Hj. apply Hmono; lia. }
        cbn zeta. repeat split; try lia.
        -- intros j Hj.
           destruct (Nat.le_gt_cases j (first + half)) as [Hle|Hgt].
           ++ destruct (exceeds j) eqn:Ej; [|reflexivity].
              rewrite (Hmono j (first + half)%nat ltac:(lia) ltac:(lia) Ej) in E.
              discriminate.
           ++ apply R2. lia.
        -- intros Hr. apply R3. lia.
Qed.

Lemma upper_bound_spec :
  (forall i j, (i <= j < List.length c)%nat -> exceeds i = true -> exceeds j = true) ->
  let r := upper_bound c u in
  (r <= List.length c)%nat
  /\ (forall j, (j < r)%nat -> exceeds j = false)
  /\ ((r < List.length c)%nat -> exceeds r = true).
Proof.
  intros Hmono.
  destruct (upper_bound_loop_spec (List.length c) 0 (List.length c) ltac:(lia)) as (R1 & R2 & R3).
  { intros i j Hij Hj. apply Hmono. lia. }
  fold (upper_bound c u) in R1, R2, R3.
  cbn zeta. repeat split; try lia.
  - intros j Hj. apply R2. lia.
  - intros Hr. apply R3. lia.
Qed.

(** If no cumulative weight exceeds the draw, the search ends past the
    last one. *)
Lemma upper_bound_none :
  (forall i, (i < List.length c)%nat -> exceeds i = false) ->
  upper_bound c u = List.length c.
Proof.
  intros Hnone.
  destruct upper_bound_spec as (R1 & _ & R3).
  { intros i j Hij Ei. rewrite Hnone in Ei by lia. discriminate. }
  destruct (Nat.eq_dec (upper_bound c u) (List.length c)) as [|N]; [assumption|].
  specialize (R3 ltac:(lia)). rewrite Hnone in R3 by lia. discriminate.
Qed.




End UpperBound.

(** ** Weighted choice: the errors *)


Section WeightedErrors.
Context {A W : Type} `{Weight W}.
Variable T : uint_t.



(** Past the two checks the call is the draw and the search. *)
Lemma choice_weighted_valid (s : list A) (ws : list W) t :
  List.length s = List.length ws -> s <> [] ->
  Generator.choice_weighted T s ws t =
  match cumulate w_zero ws with
  | None => Undefined SignedOverflow
  | Some c =>
      match Generator.next_unit T t with
      | Ok x t' =>
          Generator.deref s (Z.of_nat (upper_bound c (fmul x (w_real (last c w_zero))))) t'
      | Throw e t' => Throw e t'
      | Undefined b => Undefined b
      | Starved => Starved
      end
  end.
Proof.
  intros E N. unfold Generator.choice_weighted.
  apply Nat.eqb_eq in E. rewrite E. cbn [negb].
  destruct s as [|a s']; [contradiction|]. cbn [List.length Nat.eqb].
  destruct (cumulate w_zero ws); reflexivity.
Qed.




End WeightedErrors.

(** ** Weighted choice: weights that are all zero *)

Lemma cumulate_length {W} `{Weight W} (ws : list W) :
  forall prev c, cumulate prev ws = Some c -> List.length c = List.length ws.
Proof.
  induction ws as [|w ws IH]; intros prev c; cbn [cumulate].
  - now intros [= <-].
  - destruct (w_add prev w) as [c0|]; [|discriminate].
    destruct (cumulate c0 ws) as [cs|] eqn:E; [|discriminate].
    intros [= <-]. cbn [List.length]. f_equal. eapply IH; eassumption.
Qed.

Lemma fmul_zero_not_below x z1 z2 :
  is_zero z1 -> is_zero z2 -> fltb (fmul x z1) z2 = false.
Proof.
  destruct z1; try contradiction. destruct z2; try contradiction. intros _ _.
  destruct x; reflexivity.
Qed.

Lemma Forall_last {A} (P : A -> Prop) (l : list A) d :
  Forall P l -> P d -> P (last l d).
Proof.
  intros Hl Hd. induction Hl as [|a l Ha Hl IH]; [exact Hd|].
  destruct l; [exact Ha | exact IH].
Qed.

Lemma Forall_nth_default {A} (P : A -> Prop) (l : list A) d i :
  Forall P l -> P d -> P (nth i l d).
Proof.
  intros Hl Hd. revert i. induction Hl as [|a l Ha Hl IH]; intros [|i]; cbn; auto.
Qed.

Lemma deref_end {A} (s : list A) t :
  Generator.deref s (Z.of_nat (List.length s)) t
  = Undefined (OutOfBounds (Z.of_nat (List.length s))).
Proof.
  unfold Generator.deref, undefined.
  destruct (Z.ltb_spec (Z.of_nat (List.length s)) 0); [lia|].
  rewrite Nat2Z.id.
  replace (nth_error s (List.length s)) with (@None A); [reflexivity|].
  symmetry. apply nth_error_None. lia.
Qed.

(** When every cumulative weight is a zero, the search finds nothing and
    the element one past the end is read. *)
Lemma choice_weighted_zero_sums T {A W} `{Weight W} (s : list A) (ws c : list W) t x t' :
  List.length s = List.length ws -> s <> [] ->
  cumulate w_zero ws = Some c ->
  Forall (fun w => is_zero (w_real w)) c -> is_zero (w_real w_zero) ->
  Generator.next_unit T t = Ok x t' ->
  Generator.choice_weighted T s ws t
  = Undefined (OutOfBounds (Z.of_nat (List.length s))).
Proof.
  intros El Hs Hc Hz Hz0 Hx.
  rewrite choice_weighted_valid by assumption. rewrite Hc, Hx.
  rewrite upper_bound_none.
  - rewrite (cumulate_length _ _ _ Hc), <- El. apply deref_end.
  - intros i _. unfold exceeds. apply fmul_zero_not_below.
    + apply (Forall_last (fun w => is_zero (w_real w))); assumption.
    + apply (Forall_nth_default (fun w => is_zero (w_real w))); assumption.
Qed.

Lemma cumulate_int_zeros (ws : list Z) :
  Forall (fun w => w = 0) ws -> cumulate (W := Z) 0 ws = Some ws.
Proof.
  induction 1 as [|w ws -> _ IH]; [reflexivity|].
  cbn [cumulate w_add int_Weight]. cbn [Z.add in_int].
  change (in_int 0) with true. cbn iota. now rewrite IH.
Qed.

Lemma cumulate_real_zeros (ws : list real_t) :
  Forall is_zero ws ->
  forall prev, is_zero prev ->
  exists c, cumulate (W := real_t) prev ws = Some c /\ Forall is_zero c.
Proof.
  induction 1 as [|w ws Hw _ IH]; intros prev Hp.
  - exists []. split; [reflexivity | constructor].
  - cbn [cumulate w_add real_Weight].
    assert (is_zero (fadd prev w)) as Hz.
    { destruct prev; try contradiction. destruct w; try contradiction.
      destruct s, s0; exact I. }
    destruct (IH _ Hz) as (c & -> & Hc).
    eexists; split; [reflexivity|]. now constructor.
Qed.

(** C10.  With equal, non-zero lengths and every weight zero, of type
    [int] or of type [real_t], the search returns the past-the-end position
    whatever the unit draw is, and the element read is the one at index
    [length], one past the end of the sequence. *)
Theorem choice_weighted_all_zero T {A} (s : list A) t x t' :
  s <> [] -> Generator.next_unit T t = Ok x t' ->
  (forall ws : list Z,
      List.length s = List.length ws -> Forall (fun w => w = 0) ws ->
      upper_bound ws (fmul x (of_Z 0)) = List.length ws
      /\ Generator.choice_weighted T s ws t
         = Undefined (OutOfBounds (Z.of_nat (List.length s))))
  /\ (forall ws : list real_t,
         List.length s = List.length ws -> Forall is_zero ws ->
         Generator.choice_weighted T s ws t
         = Undefined (OutOfBounds (Z.of_nat (List.length s)))).
Proof.
  intros Hs Hx. split.
  - intros ws El Hz. split.
    + apply upper_bound_none. intros i _. unfold exceeds.
      apply fmul_zero_not_below; [exact I|].
      apply (Forall_nth_default (fun w => is_zero (w_real w))); [|exact I].
      eapply Forall_impl; [|exact Hz]. intros w ->. exact I.
    + apply (choice_weighted_zero_sums T s ws ws t x t'); auto.
      * now apply cumulate_int_zeros.
      * eapply Forall_impl; [|exact Hz]. intros w ->. exact I.
      * exact I.
  - intros ws El Hz.
    destruct (cumulate_real_zeros ws Hz f_zero I) as (c & Hc & Hzc).
    apply (choice_weighted_zero_sums T s ws c t x t'); auto. exact I.
Qed.

Lemma choice_weighted_all_zero_witness :
  upper_bound [0; 0; 0] (fmul (Generator.unit_of U32 9) (of_Z 0)) = 3%nat
  /\ Generator.choice_weighted U32 [1; 2; 3] [0; 0; 0] [9] = Undefined (OutOfBounds 3).
Proof.
  apply (proj1 (choice_weighted_all_zero U32 [1; 2; 3] [9] (Generator.unit_of U32 9) []
                  ltac:(discriminate) eq_refl) [0; 0; 0] eq_refl).
  repeat constructor.
Defined.

(** ** Weighted choice: weights of type int *)

Lemma total_cons w ws : total (w :: ws) = w + total ws.
Proof. reflexivity. Qed.

Lemma total_nonneg ws : Forall (fun w => 0 <= w) ws -> 0 <= total ws.
Proof. induction 1; rewrite ?total_cons; cbn; lia. Qed.

Lemma psums_length ws : forall prev, List.length (psums prev ws) = List.length ws.
Proof. induction ws; intro; cbn; auto. Qed.

(** Without overflow the loop of the code computes the prefix sums. *)
Lemma cumulate_int ws :
  Forall (fun w => 0 <= w) ws ->
  forall prev, 0 <= prev -> prev + total ws < 2 ^ 31 ->
  cumulate (W := Z) prev ws = Some (psums prev ws).
Proof.
  induction 1 as [|w ws Hw Hws IH]; intros prev Hp Ht; [reflexivity|].
  rewrite total_cons in Ht. pose proof (total_nonneg ws Hws).
  cbn [cumulate psums w_add int_Weight].
  replace (in_int (prev + w)) with true
    by (symmetry; unfold in_int; apply andb_true_iff; split;
        [apply Z.leb_le | apply Z.ltb_lt]; lia).
  rewrite IH by lia. reflexivity.
Qed.

Lemma psums_bounds ws :
  Forall (fun w => 0 <= w) ws ->
  forall prev i, (i < List.length ws)%nat ->
  prev <= nth i (psums prev ws) 0 <= prev + total ws.
Proof.
  induction 1 as [|w ws Hw Hws IH]; intros prev i Hi; cbn [List.length] in Hi; [lia|].
  rewrite total_cons. pose proof (total_nonneg ws Hws).
  destruct i as [|i]; cbn [psums nth]; [lia|].
  specialize (IH (prev + w) i ltac:(lia)). lia.
Qed.

Lemma psums_mono ws :
  Forall (fun w => 0 <= w) ws ->
  forall prev i j, (i <= j < List.length ws)%nat ->
  nth i (psums prev ws) 0 <= nth j (psums prev ws) 0.
Proof.
  induction 1 as [|w ws Hw Hws IH]; intros prev i j Hij; cbn [List.length] in Hij; [lia|].
  destruct i as [|i], j as [|j]; cbn [psums nth]; try lia.
  - pose proof (psums_bounds ws Hws (prev + w) j ltac:(lia)). lia.
  - apply IH. lia.
Qed.

Lemma psums_last ws :
  ws <> [] -> forall prev, last (psums prev ws) 0 = prev + total ws.
Proof.
  induction ws as [|w ws IH]; [contradiction|]. intros _ prev.
  rewrite total_cons. destruct ws as [|w' ws'].
  - cbn. lia.
  - change (last (psums prev (w :: w' :: ws')) 0)
      with (last (psums (prev + w) (w' :: ws')) 0).
    rewrite IH by discriminate. lia.
Qed.

Lemma psums_nth_last ws :
  ws <> [] -> forall prev,
  nth (List.length ws - 1) (psums prev ws) 0 = prev + total ws.
Proof.
  induction ws as [|w ws IH]; [contradiction|]. intros _ prev.
  rewrite total_cons. destruct ws as [|w' ws'].
  - cbn. lia.
  - specialize (IH ltac:(discriminate) (prev + w)).
    replace (List.length (w' :: ws') - 1)%nat with (List.length ws') in IH
      by (cbn [List.length]; lia).
    replace (List.length (w :: w' :: ws') - 1)%nat with (S (List.length ws'))
      by (cbn [List.length]; lia).
    change (nth (S (List.length ws')) (psums prev (w :: w' :: ws')) 0)
      with (nth (List.length ws') (psums (prev + w) (w' :: ws')) 0).
    rewrite IH. lia.
Qed.

(** A weight of zero leaves the cumulative weight where it was. *)
Lemma psums_zero_weight ws :
  forall prev i, (i < List.length ws)%nat -> nth i ws 0 = 0 ->
  nth i (psums prev ws) 0 =
  match i with O => prev | S i' => nth i' (psums prev ws) 0 end.
Proof.
  induction ws as [|w ws IH]; intros prev i Hi Hz; cbn [List.length] in Hi; [lia|].
  destruct i as [|i]; cbn [psums nth] in *; [lia|].
  rewrite (IH (prev + w) i ltac:(lia) Hz).
  destruct i; reflexivity.
Qed.

Lemma exceeds_int_iff u a :
  good u -> 0 <= a < 2 ^ 53 ->
  fltb u (of_Z a) = true <-> V u < a * 2 ^ (- f_emin).
Proof.
  intros Gu Ha. destruct (of_Z_exact a Ha) as [Ga Ea].
  unfold fltb. rewrite (SFltb_V _ _ Gu Ga), Ea. reflexivity.
Qed.

Lemma deref_inside {A} (s : list A) i a t :
  nth_error s i = Some a -> Generator.deref s (Z.of_nat i) t = Ok a t.
Proof.
  intros E. unfold Generator.deref, ret.
  destruct (Z.ltb_spec (Z.of_nat i) 0); [lia|].
  now rewrite Nat2Z.id, E.
Qed.

(** With non-negative [int] weights of total [1 .. 2^31 - 1] the loop of
    the code computes the prefix sums, the draw is a good float strictly
    below the total, and the search ends inside the sequence. *)
Lemma weighted_search_int T {A} (s : list A) (ws : list Z) t x t' :
  List.length s = List.length ws -> s <> [] ->
  Forall (fun w => 0 <= w) ws -> 0 < total ws < 2 ^ 31 ->
  Generator.next_unit T t = Ok x t' ->
  let c := psums 0 ws in
  let u := fmul x (of_Z (total ws)) in
  cumulate (W := Z) 0 ws = Some c
  /\ (forall i, exceeds c u i = true <-> V u < nth i c 0 * 2 ^ (- f_emin))
  /\ (upper_bound c u < List.length s)%nat
  /\ exceeds c u (upper_bound c u) = true
  /\ (forall j, (j < upper_bound c u)%nat -> exceeds c u j = false)
  /\ Generator.choice_weighted T s ws t
     = Generator.deref s (Z.of_nat (upper_bound c u)) t'.
Proof.
  intros El Hs Hnn Htot Hx c u.
  assert (ws <> []) as Hws by (intros ->; destruct s; [contradiction | discriminate]).
  destruct (next_unit_below_one _ _ _ _ Hx) as [Gx Lx].
  pose proof (cumulate_int ws Hnn 0 ltac:(lia) ltac:(lia)) as Hc. fold c in Hc.
  pose proof (pow2_pos (- f_emin) ltac:(unfold f_emin; lia)) as HU.
  pose proof pow53_le_unit as H53.
  assert (2 ^ 31 < 2 ^ 53) as H31 by (apply pow2_lt; lia).
  (* the draw is a good float strictly below the total *)
  destruct (of_Z_exact (total ws) ltac:(lia)) as [Gt Et].
  destruct (fmul_lt x (of_Z (total ws)) Gx Lx Gt ltac:(rewrite Et; nia)) as [Gu Lu].
  fold u in Gu, Lu. rewrite Et in Lu.
  assert (forall i, 0 <= nth i c 0 < 2 ^ 53) as Hrange.
  { intros i. destruct (Nat.lt_ge_cases i (List.length ws)) as [Hi|Hi].
    - pose proof (psums_bounds ws Hnn 0 i Hi) as B. fold c in B. lia.
    - rewrite nth_overflow by (unfold c; rewrite psums_length; lia). lia. }
  assert (forall i, exceeds c u i = true <-> V u < nth i c 0 * 2 ^ (- f_emin)) as Hex.
  { intros i. unfold exceeds. cbn [w_real w_zero int_Weight].
    apply exceeds_int_iff; auto. }
  destruct (upper_bound_spec c u) as (R1 & R2 & R3).
  { intros i j Hij Ei. apply Hex. apply Hex in Ei.
    unfold c in Hij. rewrite psums_length in Hij.
    pose proof (psums_mono ws Hnn 0 i j ltac:(lia)) as M. fold c in M. nia. }
  assert (exceeds c u (List.length ws - 1) = true) as Hlast.
  { apply Hex. unfold c. rewrite psums_nth_last by assumption. lia. }
  assert (List.length ws <> 0%nat) as Hlen by (destruct ws; [contradiction | discriminate]).
  unfold c in R1, R3. rewrite psums_length in R1, R3. fold c in R1, R3.
  assert (upper_bound c u < List.length ws)%nat as Hr.
  { destruct (Nat.lt_ge_cases (upper_bound c u) (List.length ws)) as [|C]; [assumption|exfalso].
    rewrite R2 in Hlast by lia. discriminate. }
  split; [exact Hc|]. split; [exact Hex|]. split; [rewrite El; exact Hr|].
  split; [apply R3; exact Hr|]. split; [exact R2|].
  rewrite choice_weighted_valid by assumption.
  cbn [w_real w_zero int_Weight]. rewrite Hc, Hx.
  unfold c at 2. rewrite psums_last by assumption. rewrite Z.add_0_l.
  reflexivity.
Qed.

(** ** Weighted choice: weights of type real_t *)

Lemma fadd_inf_l b : good b -> fadd (S754_infinity false) b = S754_infinity false.
Proof. destruct b as [s| | |s m e]; try contradiction; reflexivity. Qed.

Lemma fadd_zero_r a w : good a -> is_zero w -> V (fadd a w) = V a.
Proof.
  destruct w as [sw| | |]; try contradiction.
  destruct a as [sa| | |sa ma ea]; try contradiction; intros _ _.
  - destruct sa, sw; reflexivity.
  - reflexivity.
Qed.

Lemma cumulate_real ws : forall prev, cumulate (W := real_t) prev ws = Some (rsums prev ws).
Proof.
  induction ws as [|w ws IH]; intro prev; [reflexivity|].
  cbn [cumulate rsums w_add real_Weight]. now rewrite IH.
Qed.

Lemma rsums_length ws : forall prev, List.length (rsums prev ws) = List.length ws.
Proof. induction ws; intro; cbn; auto. Qed.

Lemma rsums_inf ws :
  Forall good ws -> last (rsums (S754_infinity false) ws) (S754_infinity false)
                    = S754_infinity false.
Proof.
  induction 1 as [|w ws Hw _ IH]; [reflexivity|].
  cbn [rsums]. rewrite fadd_inf_l by assumption.
  destruct ws as [|w' ws']; [reflexivity|]. exact IH.
Qed.

Lemma last_cons_default {A} (l : list A) :
  forall a d, last (a :: l) d = last l a.
Proof.
  induction l as [|b l IH]; intros a d; [reflexivity|].
  change (last (a :: b :: l) d) with (last (b :: l) d).
  now rewrite (IH b d), (IH b a).
Qed.

(** If the last cumulative weight is a good float, all of them are, and
    they do not decrease. *)
Lemma rsums_good ws :
  Forall good ws ->
  forall prev, good prev -> good (last (rsums prev ws) prev) ->
  Forall good (rsums prev ws)
  /\ (forall i, (i < List.length ws)%nat -> V prev <= V (nth i (rsums prev ws) f_zero))
  /\ (forall i j, (i <= j < List.length ws)%nat ->
                  V (nth i (rsums prev ws) f_zero) <= V (nth j (rsums prev ws) f_zero)).
Proof.
  induction 1 as [|w ws Hw Hws IH]; intros prev Gp Gl.
  - repeat split; [constructor | |]; cbn; intros; lia.
  - cbn [rsums] in *. rewrite last_cons_default in Gl.
    destruct (fadd_good prev w Gp Hw) as [Inf | (G & L1 & L2)].
    + exfalso. rewrite Inf in Gl. rewrite rsums_inf in Gl by assumption. exact Gl.
    + destruct (IH _ G Gl) as (F & B & M).
      split; [now constructor|]. split.
      * intros [|i] Hi; cbn [nth]; [exact L1|].
        cbn [List.length] in Hi. specialize (B i ltac:(lia)). lia.
      * intros [|i] [|j] Hij; cbn [nth List.length] in *; try lia.
        -- apply B. lia.
        -- apply M. lia.
Qed.

Lemma rsums_zero_weight ws :
  Forall good ws ->
  forall prev, good prev -> good (last (rsums prev ws) prev) ->
  forall i, (i < List.length ws)%nat -> is_zero (nth i ws f_zero) ->
  V (nth i (rsums prev ws) f_zero) =
  match i with O => V prev | S i' => V (nth i' (rsums prev ws) f_zero) end.
Proof.
  induction 1 as [|w ws Hw Hws IH]; intros prev Gp Gl i Hi Hz;
    cbn [List.length] in Hi; [lia|].
  cbn [rsums] in *. rewrite last_cons_default in Gl.
  destruct i as [|i]; cbn [nth] in *.
  - now apply fadd_zero_r.
  - destruct (fadd_good prev w Gp Hw) as [Inf | (G & _)].
    + exfalso. rewrite Inf in Gl. rewrite rsums_inf in Gl by assumption. exact Gl.
    + rewrite (IH _ G Gl i ltac:(lia) Hz). destruct i; reflexivity.
Qed.

Lemma last_nth_default {A} (l : list A) d :
  l <> [] -> last l d = nth (List.length l - 1) l d.
Proof.
  induction l as [|a l IH]; [contradiction|]. intros _.
  destruct l as [|b l]; [reflexivity|].
  change (last (a :: b :: l) d) with (last (b :: l) d).
  rewrite IH by discriminate. cbn [List.length].
  replace (S (S (List.length l)) - 1)%nat with (S (S (List.length l) - 1)) by lia.
  reflexivity.
Qed.

(** With good [real_t] weights whose total is finite and at least
    [2^-1021], the draw is strictly below the total and the search ends
    inside the sequence. *)
Lemma weighted_search_real T {A} (s : list A) (ws : list real_t) t x t' :
  List.length s = List.length ws -> s <> [] ->
  Forall good ws ->
  let c := rsums f_zero ws in
  good (last c f_zero) -> 2 ^ 53 <= V (last c f_zero) ->
  Generator.next_unit T t = Ok x t' ->
  let u := fmul x (last c f_zero) in
  cumulate (W := real_t) f_zero ws = Some c
  /\ (forall i, (i < List.length ws)%nat ->
                (exceeds c u i = true <-> V u < V (nth i c f_zero)))
  /\ (upper_bound c u < List.length s)%nat
  /\ exceeds c u (upper_bound c u) = true
  /\ (forall j, (j < upper_bound c u)%nat -> exceeds c u j = false)
  /\ Generator.choice_weighted T s ws t
     = Generator.deref s (Z.of_nat (upper_bound c u)) t'.
Proof.
  intros El Hs Hg c Gl Hl Hx u.
  assert (ws <> []) as Hws by (intros ->; destruct s; [contradiction | discriminate]).
  assert (List.length ws <> 0%nat) as Hlen by (destruct ws; [contradiction | discriminate]).
  destruct (next_unit_below_one _ _ _ _ Hx) as [Gx Lx].
  pose proof (cumulate_real ws f_zero) as Hc. fold c in Hc.
  pose proof (rsums_length ws f_zero) as Lc. fold c in Lc.
  destruct (rsums_good ws Hg f_zero I Gl) as (Fc & _ & Mc). fold c in Fc, Mc.
  destruct (fmul_lt x (last c f_zero) Gx Lx Gl Hl) as [Gu Lu]. fold u in Gu, Lu.
  assert (forall i, (i < List.length ws)%nat ->
                    (exceeds c u i = true <-> V u < V (nth i c f_zero))) as Hex.
  { intros i Hi. unfold exceeds. cbn [w_real w_zero real_Weight]. unfold fltb.
    apply SFltb_V; [exact Gu|].
    apply (Forall_nth_default good); [exact Fc | exact I]. }
  destruct (upper_bound_spec c u) as (R1 & R2 & R3).
  { intros i j Hij Ei. rewrite Lc in Hij.
    apply Hex; [lia|]. apply Hex in Ei; [|lia].
    specialize (Mc i j ltac:(lia)). lia. }
  rewrite Lc in R1, R3.
  assert (exceeds c u (List.length ws - 1) = true) as Hlast.
  { apply Hex; [lia|]. rewrite <- Lc, <- last_nth_default; [exact Lu|].
    intros E. rewrite E in Lc. cbn in Lc. lia. }
  assert (upper_bound c u < List.length ws)%nat as Hr.
  { destruct (Nat.lt_ge_cases (upper_bound c u) (List.length ws)) as [|C]; [assumption|exfalso].
    rewrite R2 in Hlast by lia. discriminate. }
  split; [exact Hc|]. split; [exact Hex|]. split; [rewrite El; exact Hr|].
  split; [apply R3; exact Hr|]. split; [exact R2|].
  rewrite choice_weighted_valid by assumption.
  cbn [w_real w_zero real_Weight]. rewrite Hc, Hx. reflexivity.
Qed.
(** ** Weighted choice: any weights with a total that exceeds its own draw *)



(** C4, as amended.  For every call with equal, non-zero lengths and
    non-negative weights, either of type [int] with a total of at least 1
    that fits [int], or of type [real_t] with a total that is finite and at
    least [2^-1021], whenever the unit draw ends, the element returned is
    the one at the first index whose cumulative weight strictly exceeds the
    draw [u = next_unit() * total]; the weight of that element is not
    zero. *)
Theorem choice_weighted_first_exceeding T {A} (s : list A) t x t' :
  s <> [] -> Generator.next_unit T t = Ok x t' ->
  (forall ws : list Z,
      List.length s = List.length ws ->
      Forall (fun w => 0 <= w) ws -> 0 < total ws < 2 ^ 31 ->
      let c := psums 0 ws in
      let u := fmul x (of_Z (total ws)) in
      exists i a,
        Generator.choice_weighted T s ws t = Ok a t'
        /\ nth_error s i = Some a
        /\ cumulate (W := Z) 0 ws = Some c
        /\ upper_bound c u = i
        /\ exceeds c u i = true
        /\ (forall j, (j < i)%nat -> exceeds c u j = false)
        /\ nth i ws 0 <> 0)
  /\ (forall ws : list real_t,
         List.length s = List.length ws ->
         Forall good ws ->
         let c := rsums f_zero ws in
         good (last c f_zero) -> 2 ^ 53 <= V (last c f_zero) ->
         let u := fmul x (last c f_zero) in
         exists i a,
           Generator.choice_weighted T s ws t = Ok a t'
           /\ nth_error s i = Some a
           /\ cumulate (W := real_t) f_zero ws = Some c
           /\ upper_bound c u = i
           /\ exceeds c u i = true
           /\ (forall j, (j < i)%nat -> exceeds c u j = false)
           /\ ~ is_zero (nth i ws f_zero)).
Proof.
  intros Hs Hx. split.
  - intros ws El Hnn Htot c u.
    destruct (weighted_search_int T s ws t x t' El Hs Hnn Htot Hx)
      as (Hc & Hex & Hr & Hfirst & Hbefore & Hrun).
    fold c in Hc, Hex, Hr, Hfirst, Hbefore, Hrun.
    fold u in Hex, Hr, Hfirst, Hbefore, Hrun.
    set (r := upper_bound c u) in *.
    destruct (nth_error s r) as [a|] eqn:Ea; [|apply nth_error_None in Ea; lia].
    exists r, a. repeat split; auto.
    + rewrite Hrun. now apply deref_inside.
    + (* a weight of zero would make the index before pass the test too *)
      intros Hz.
      pose proof (psums_zero_weight ws 0 r ltac:(lia) Hz) as Z0. fold c in Z0.
      apply Hex in Hfirst. rewrite Z0 in Hfirst.
      destruct r as [|r'].
      * pose proof (V_nonneg u). lia.
      * apply Hex in Hfirst. rewrite Hbefore in Hfirst by lia. discriminate.
  - intros ws El Hg c Gl Hl u.
    destruct (weighted_search_real T s ws t x t' El Hs Hg Gl Hl Hx)
      as (Hc & Hex & Hr & Hfirst & Hbefore & Hrun).
    fold c in Hc, Hex, Hr, Hfirst, Hbefore, Hrun.
    fold u in Hex, Hr, Hfirst, Hbefore, Hrun.
    set (r := upper_bound c u) in *.
    destruct (nth_error s r) as [a|] eqn:Ea; [|apply nth_error_None in Ea; lia].
    exists r, a. repeat split; auto.
    + rewrite Hrun. now apply deref_inside.
    + intros Hz.
      pose proof (rsums_zero_weight ws Hg f_zero I Gl r ltac:(lia) Hz) as Z0. fold c in Z0.
      apply Hex in Hfirst; [|lia]. rewrite Z0 in Hfirst.
      destruct r as [|r'].
      * pose proof (V_nonneg u). change (V f_zero) with 0 in Hfirst. lia.
      * apply Hex in Hfirst; [|lia]. rewrite Hbefore in Hfirst by lia. discriminate.
Qed.

Lemma choice_weighted_first_exceeding_witness :
  (let c := psums 0 [1; 0; 3] in
   let u := fmul (Generator.unit_of U32 (2 ^ 30)) (of_Z (total [1; 0; 3])) in
   exists i a,
     Generator.choice_weighted U32 [10; 20; 30] [1; 0; 3] [2 ^ 30] = Ok a []
     /\ nth_error [10; 20; 30] i = Some a
     /\ cumulate (W := Z) 0 [1; 0; 3] = Some c
     /\ upper_bound c u = i
     /\ exceeds c u i = true
     /\ (forall j, (j < i)%nat -> exceeds c u j = false)
     /\ nth i [1; 0; 3] 0 <> 0)
  /\ (exists i a,
         Generator.choice_weighted U32 [10; 20; 30] [of_Z 1; f_zero; of_Z 3] [2 ^ 30]
         = Ok a []
         /\ nth_error [10; 20; 30] i = Some a
         /\ ~ is_zero (nth i [of_Z 1; f_zero; of_Z 3] f_zero)).
Proof.
  destruct (choice_weighted_first_exceeding U32 [10; 20; 30] [2 ^ 30]
              (Generator.unit_of U32 (2 ^ 30)) [] ltac:(discriminate) eq_refl)
    as [Hint Hreal].
  split.
  - apply (Hint [1; 0; 3]).
    + reflexivity.
    + repeat constructor; lia.
    + cbn; lia.
  - destruct (Hreal [of_Z 1; f_zero; of_Z 3] eq_refl)
      as (i & a & Hrun & Hnth & _ & _ & _ & _ & Hnz).
    + constructor; [vm_compute; split; [reflexivity | discriminate]|].
      constructor; [exact I|].
      constructor; [vm_compute; split; [reflexivity | discriminate]|].
      constructor.
    + vm_compute. split; [reflexivity | discriminate].
    + vm_compute. discriminate.
    + exists i, a. repeat split; assumption.
Defined.

(** The smallest positive [real_t] as the only weight: the total is
    strictly positive, yet the product of a unit draw above one half with
    it rounds back to the total, no cumulative weight exceeds it, and the
    read is past the end.  The claim of C4 fails as it is stated. *)
Lemma choice_weighted_subnormal_total :
  ~ (forall T (A W : Type) (HW : Weight W) (s : list A) (ws c : list W) t x t',
        List.length s = List.length ws -> s <> [] ->
        Forall (fun w => fleb f_zero (w_real w) = true) ws ->
        cumulate w_zero ws = Some c ->
        fltb f_zero (w_real (last c w_zero)) = true ->
        Generator.next_unit T t = Ok x t' ->
        exists i a,
          Generator.choice_weighted T s ws t = Ok a t'
          /\ nth_error s i = Some a
          /\ exceeds c (fmul x (w_real (last c w_zero))) i = true).
Proof.
  intros C.
  destruct (C U32 Z real_t real_Weight [7] [S754_finite false 1 (-1074)]
              [S754_finite false 1 (-1074)] [2 ^ 32 - 2]
              (Generator.unit_of U32 (2 ^ 32 - 2)) [])
    as (i & a & E & _); try reflexivity.
  - discriminate.
  - repeat constructor.
  - vm_compute in E. discriminate E.
Qed.




(** ** shuffle *)

Lemma upd_split {A} (l : list A) i a :
  (i < List.length l)%nat -> upd l i a = firstn i l ++ a :: skipn (S i) l.
Proof.
  revert i. induction l as [|h l IH]; intros i Hi; cbn [List.length] in Hi; [lia|].
  destruct i as [|i]; cbn [upd firstn skipn app]; [reflexivity|].
  f_equal. apply IH. lia.
Qed.

Lemma upd_length {A} (l : list A) i a : List.length (upd l i a) = List.length l.
Proof.
  revert i. induction l as [|h l IH]; intros [|i]; cbn; auto.
Qed.

Lemma nth_error_split_at {A} (v : list A) k a :
  nth_error v k = Some a -> v = firstn k v ++ a :: skipn (S k) v.
Proof.
  revert k. induction v as [|h v IH]; intros [|k]; cbn; try discriminate.
  - now intros [= ->].
  - intros E. f_equal. now apply IH.
Qed.

Lemma erase_perm {A} (v : list A) k a :
  nth_error v k = Some a -> Permutation (a :: erase v k) v.
Proof.
  intros E. rewrite (nth_error_split_at v k a E) at 2.
  unfold erase. apply Permutation_middle.
Qed.

Lemma erase_length {A} (v : list A) k a :
  nth_error v k = Some a -> S (List.length (erase v k)) = List.length v.
Proof.
  intros E. apply (Permutation_length (erase_perm v k a E)).
Qed.

(** The loop writes the elements it picks, in order, over the positions
    [i .. i + n - 1], and what it picks is a rearrangement of the pool. *)
Lemma shuffle_loop_spec T {A} n :
  forall len i (arr v : list A) t arr' t',
    Generator.shuffle_loop T n len i arr v t = Ok arr' t' ->
    List.length v = n -> (i + n <= List.length arr)%nat ->
    exists picks,
      Permutation picks v
      /\ arr' = firstn i arr ++ picks ++ skipn (i + n) arr.
Proof.
  induction n as [|n IH]; intros len i arr v t arr' t' Hrun Hv Hi.
  - cbn in Hrun. injection Hrun as <- <-.
    destruct v; [|discriminate]. exists []. split; [constructor|].
    rewrite Nat.add_0_r. cbn [app]. symmetry. apply firstn_skipn.
  - cbn [Generator.shuffle_loop] in Hrun. unfold bind in Hrun.
    destruct (Generator.next_in_range T _ _ t) as [r t1|e t1|u|]; try discriminate.
    destruct (nth_error v (Z.to_nat (T_wrap T r))) as [a|] eqn:Ea; [|discriminate].
    set (k := Z.to_nat (T_wrap T r)) in *.
    pose proof (erase_length v k a Ea) as Hlen.
    destruct (IH len (S i) (upd arr i a) (erase v k) t1 arr' t' Hrun) as (picks & Hp & ->).
    + lia.
    + rewrite upd_length. lia.
    + exists (a :: picks). split.
      * etransitivity; [|apply (erase_perm v k a Ea)]. now constructor.
      * rewrite upd_split by lia.
        replace (S i) with (i + 1)%nat by lia.
        rewrite firstn_app, firstn_firstn, Nat.min_r by lia.
        rewrite length_firstn, Nat.min_l by lia.
        replace (i + 1 - i)%nat with 1%nat by lia. cbn [firstn].
        rewrite skipn_app, length_firstn, Nat.min_l by lia.
        rewrite (skipn_all2 (firstn i arr)) by (rewrite length_firstn; lia).
        replace (i + 1 + n - i)%nat with (S n) by lia. cbn [skipn app].
        rewrite skipn_skipn.
        replace (n + (i + 1))%nat with (i + S n)%nat by lia.
        rewrite <- app_assoc. reflexivity.
Qed.

Lemma shuffle_array_perm T {A} (arr : list A) len t arr' t' :
  0 <= len <= Z.of_nat (List.length arr) ->
  Generator.shuffle_array T arr len t = Ok arr' t' -> Permutation arr arr'.
Proof.
  intros Hlen Hrun. unfold Generator.shuffle_array in Hrun.
  destruct (2 ^ 31 <=? len); [discriminate|].
  set (n := Z.to_nat len) in *.
  assert (n <= List.length arr)%nat as Hn by (unfold n; lia).
  destruct (shuffle_loop_spec T n len 0 arr (firstn n arr) t arr' t' Hrun)
    as (picks & Hp & ->).
  - rewrite length_firstn. lia.
  - lia.
  - cbn [firstn app plus]. rewrite <- (firstn_skipn n arr) at 1.
    apply Permutation_app_tail. symmetry. exact Hp.
Qed.

Lemma T_wrap_le T z : 0 <= z -> 0 <= T_wrap T z <= z.
Proof.
  intros Hz. unfold T_wrap, wrap.
  assert (0 < 2 ^ bits T) by (destruct T; cbn; lia).
  split; [apply Z.mod_pos_bound; lia | apply Z.mod_le; lia].
Qed.


(** *** The element type and the length *)

(** For a trivially copyable element type the copy into the raw storage is
    a plain copy, and [shuffle] is [shuffle_array] on it. *)
Lemma shuffle_trivially_copyable T {A} {E : Element A} (s : list A) t :
  trivially_copyable = true ->
  Generator.shuffle T s t
  = Generator.shuffle_array T s (T_wrap T (Z.of_nat (List.length s))) t.
Proof.
  intros Ht. unfold Generator.shuffle, Generator.copy_to_raw, bind, ret.
  destruct s; [reflexivity|]. rewrite Ht. reflexivity.
Qed.

(** When [shuffle] completes, [shuffle_array] has run on a copy of the
    sequence. *)
Lemma shuffle_Ok_inv T {A} {E : Element A} (s : list A) t s' t' :
  Generator.shuffle T s t = Ok s' t' ->
  Generator.shuffle_array T s (T_wrap T (Z.of_nat (List.length s))) t = Ok s' t'.
Proof.
  unfold Generator.shuffle, Generator.copy_to_raw, bind, ret, undefined.
  destruct s; [auto|]. destruct trivially_copyable; [auto | discriminate].
Qed.





(** * Further properties of the header *)

(** ** BigInt128 *)

(** X1.  [mod] by a 64-bit [n >= 1] always leaves two limbs: the
    remainder, or [n] itself when that was the value; a value up to [n] is
    not touched. *)
Theorem mod_result d0 d1 d2 d3 n :
  0 <= d0 < 2 ^ 32 -> 0 <= d1 < 2 ^ 32 -> 0 <= d2 < 2 ^ 32 -> 0 <= d3 < 2 ^ 32 ->
  1 <= n < 2 ^ 64 ->
  let b := BigInt128.make d0 d1 d2 d3 in
  exists r0 r1,
    BigInt128.mod_ b n = Some (BigInt128.make r0 r1 0 0)
    /\ 0 <= r0 < 2 ^ 32 /\ 0 <= r1 < 2 ^ 32
    /\ BigInt128.value (BigInt128.make r0 r1 0 0)
       = (if BigInt128.value b =? n then n else BigInt128.value b mod n)
    /\ (BigInt128.value b <= n -> BigInt128.make r0 r1 0 0 = b).
Proof.
  intros H0 H1 H2 H3 Hn b. subst b.
  destruct (Z.eqb_spec (BigInt128.value (BigInt128.make d0 d1 d2 d3)) n) as [E | NE].
  - pose proof E as E'. rewrite value_make in E'.
    assert (d3 = 0) as E3 by nia. assert (d2 = 0) as E2 by nia.
    exists d0, d1. subst d2 d3.
    rewrite (mod_at_modulus d0 d1 0 0 H0 H1 H2 H3 n) by lia.
    repeat split; try lia; exact E.
  - destruct (mod_correct_off_modulus d0 d1 d2 d3 H0 H1 H2 H3 n Hn NE)
      as (r0 & r1 & Em & R0 & R1 & Ev & Eu).
    exists r0, r1. repeat split; try assumption; try lia.
    intros Hle. apply Eu. lia.
Qed.

Lemma mod_result_witness :
  exists r0 r1,
    BigInt128.mod_ (BigInt128.make 1 2 3 4) 1000003 = Some (BigInt128.make r0 r1 0 0)
    /\ BigInt128.value (BigInt128.make r0 r1 0 0)
       = BigInt128.value (BigInt128.make 1 2 3 4) mod 1000003.
Proof.
  destruct (mod_result 1 2 3 4 1000003) as (r0 & r1 & E & _ & _ & V & _); try lia.
  exists r0, r1. split; [exact E | exact V].
Defined.

(** X2.  Reducing twice by the same modulus is reducing once. *)
Theorem mod_idempotent d0 d1 d2 d3 n :
  0 <= d0 < 2 ^ 32 -> 0 <= d1 < 2 ^ 32 -> 0 <= d2 < 2 ^ 32 -> 0 <= d3 < 2 ^ 32 ->
  1 <= n < 2 ^ 64 ->
  exists b',
    BigInt128.mod_ (BigInt128.make d0 d1 d2 d3) n = Some b'
    /\ BigInt128.mod_ b' n = Some b'.
Proof.
  intros H0 H1 H2 H3 Hn.
  destruct (Z.eq_dec (BigInt128.value (BigInt128.make d0 d1 d2 d3)) n) as [E | NE].
  - pose proof (mod_at_modulus d0 d1 d2 d3 H0 H1 H2 H3 n ltac:(lia) E) as Em.
    eexists. split; exact Em.
  - destruct (mod_correct_off_modulus d0 d1 d2 d3 H0 H1 H2 H3 n Hn NE)
      as (r0 & r1 & Em & R0 & R1 & Ev & _).
    exists (BigInt128.make r0 r1 0 0). split; [exact Em|].
    pose proof (Z.mod_pos_bound (BigInt128.value (BigInt128.make d0 d1 d2 d3)) n ltac:(lia)) as Hr.
    destruct (mod_correct_off_modulus r0 r1 0 0 R0 R1 ltac:(lia) ltac:(lia) n Hn ltac:(lia))
      as (s0 & s1 & Em' & _ & _ & _ & Eu).
    rewrite Em'. f_equal. apply Eu. lia.
Qed.

Lemma mod_idempotent_witness :
  exists b',
    BigInt128.mod_ (BigInt128.make 1 2 3 4) 1000003 = Some b'
    /\ BigInt128.mod_ b' 1000003 = Some b'.
Proof.
  apply (mod_idempotent 1 2 3 4 1000003); lia.
Defined.

(** X3.  [mod(0)] divides by zero, unless the value is zero itself. *)
Theorem mod_by_zero d0 d1 d2 d3 :
  0 <= d0 < 2 ^ 32 -> 0 <= d1 < 2 ^ 32 -> 0 <= d2 < 2 ^ 32 -> 0 <= d3 < 2 ^ 32 ->
  let b := BigInt128.make d0 d1 d2 d3 in
  BigInt128.mod_ b 0 = if BigInt128.value b =? 0 then Some b else None.
Proof.
  intros H0 H1 H2 H3 b. subst b.
  pose proof (needs_reduction_iff d0 d1 d2 d3 H0 H1 H2 H3 0 ltac:(lia)) as Hiff.
  pose proof (value_range d0 d1 d2 d3 H0 H1 H2 H3) as Hv.
  unfold BigInt128.mod_.
  destruct (BigInt128.needs_reduction (BigInt128.make d0 d1 d2 d3) 0) eqn:E.
  - cbn [Z.eqb]. pose proof (proj1 Hiff eq_refl).
    destruct (Z.eqb_spec (BigInt128.value (BigInt128.make d0 d1 d2 d3)) 0);
      [lia | reflexivity].
  - destruct (Z.eqb_spec (BigInt128.value (BigInt128.make d0 d1 d2 d3)) 0) as [|NE];
      [reflexivity|].
    assert (0 < BigInt128.value (BigInt128.make d0 d1 d2 d3)) as C by lia.
    apply Hiff in C. discriminate C.
Qed.

Lemma mod_by_zero_witness :
  BigInt128.mod_ (BigInt128.make 1 0 0 0) 0 = None.
Proof.
  apply (mod_by_zero 1 0 0 0); lia.
Defined.

Lemma u64_small z : 0 <= z < 2 ^ 64 -> u64 z = z.
Proof. intros; unfold u64; now apply wrap_small. Qed.

Lemma upd_same (l : list Z) : forall k, upd l k (get l k) = l.
Proof.
  unfold get. induction l as [|a l IH]; intros [|k]; cbn [upd nth]; try reflexivity.
  now rewrite IH.
Qed.

(** A turn of the inner loop of [square] that multiplies by a zero limb and
    finds no carry changes nothing. *)
Lemma square_body_idle data i j product :
  get data i * get data j = 0 ->
  0 <= get product (i + j) < 2 ^ 32 ->
  0 <= get product (i + j + 1) < 2 ^ 64 ->
  BigInt128.square_body data i j product = product.
Proof.
  intros Hz Hp Hn. unfold BigInt128.square_body. rewrite Hz.
  change (u64 0) with 0. rewrite Z.add_0_r, u64_small by lia.
  cbv zeta. rewrite upd_same.
  rewrite Z.shiftr_div_pow2, Z.div_small, Z.add_0_r, u64_small by lia.
  apply upd_same.
Qed.

Lemma square_of_limb d :
  0 <= d < 2 ^ 32 ->
  BigInt128.square (BigInt128.make d 0 0 0)
  = BigInt128.make ((d * d) mod 2 ^ 32) ((d * d) / 2 ^ 32) 0 0.
Proof.
  intros Hd.
  assert (0 <= d * d < 2 ^ 64) as Hdd by nia.
  assert (0 <= d * d / 2 ^ 32 < 2 ^ 32) as Hq.
  { split; [apply Z.div_pos; lia | apply Z.div_lt_upper_bound; lia]. }
  assert (BigInt128.square_product (BigInt128.make d 0 0 0)
          = [d * d; d * d / 2 ^ 32; 0; 0; 0; 0; 0; 0]) as Hp.
  { unfold BigInt128.square_product, BigInt128.make. cbn [seq fold_left].
    assert (BigInt128.square_body [d; 0; 0; 0] 0 0 [0; 0; 0; 0; 0; 0; 0; 0]
            = [d * d; d * d / 2 ^ 32; 0; 0; 0; 0; 0; 0]) as ->.
    { unfold BigInt128.square_body. cbn [upd get nth Nat.add].
      rewrite Z.add_0_l, !u64_small, Z.shiftr_div_pow2 by (rewrite ?u64_small; lia).
      rewrite Z.add_0_l, u64_small by lia. reflexivity. }
    repeat rewrite (square_body_idle [d; 0; 0; 0] _ _
                      [d * d; d * d / 2 ^ 32; 0; 0; 0; 0; 0; 0])
      by (unfold get; cbn [nth Nat.add]; lia).
    reflexivity. }
  unfold BigInt128.square. rewrite Hp. unfold BigInt128.make.
  cbn [seq fold_left upd get nth]. rewrite !land_mask32.
  rewrite (Z.mod_small (d * d / 2 ^ 32)) by lia. reflexivity.
Qed.

(** X5.  [square] is exact on a value of one limb: from [[d, 0, 0, 0]] it
    leaves the two limbs of [d * d], and nothing above them. *)
Theorem square_single_limb d :
  0 <= d < 2 ^ 32 ->
  BigInt128.square (BigInt128.make d 0 0 0)
  = BigInt128.make ((d * d) mod 2 ^ 32) ((d * d) / 2 ^ 32) 0 0
  /\ BigInt128.value (BigInt128.square (BigInt128.make d 0 0 0)) = d * d.
Proof.
  intros Hd.
  pose proof (square_of_limb d Hd) as Hs.
  split; [exact Hs|].
  rewrite Hs, value_make.
  pose proof (Z.div_mod (d * d) (2 ^ 32) ltac:(lia)). lia.
Qed.

Lemma square_single_limb_witness :
  BigInt128.square (BigInt128.make 4294967295 0 0 0)
  = BigInt128.make 1 4294967294 0 0
  /\ BigInt128.value (BigInt128.square (BigInt128.make 4294967295 0 0 0))
     = 4294967295 * 4294967295.
Proof.
  apply (square_single_limb 4294967295). lia.
Defined.

(** X6.  Squaring a one-limb value and reducing it: the remainder of the
    square, as long as the square is not the modulus itself. *)
Theorem square_then_mod d n :
  0 <= d < 2 ^ 32 -> 1 <= n < 2 ^ 64 -> d * d <> n ->
  exists r0 r1,
    BigInt128.mod_ (BigInt128.square (BigInt128.make d 0 0 0)) n
    = Some (BigInt128.make r0 r1 0 0)
    /\ 0 <= r0 < 2 ^ 32 /\ 0 <= r1 < 2 ^ 32
    /\ BigInt128.value (BigInt128.make r0 r1 0 0) = (d * d) mod n.
Proof.
  intros Hd Hn Hne.
  assert (0 <= d * d < 2 ^ 64) as Hdd by nia.
  assert (0 <= d * d / 2 ^ 32 < 2 ^ 32) as Hq.
  { split; [apply Z.div_pos; lia | apply Z.div_lt_upper_bound; lia]. }
  pose proof (Z.mod_pos_bound (d * d) (2 ^ 32) ltac:(lia)) as Hm.
  rewrite (square_of_limb d Hd).
  assert (BigInt128.value
            (BigInt128.make ((d * d) mod 2 ^ 32) ((d * d) / 2 ^ 32) 0 0) = d * d) as Hv.
  { rewrite value_make. pose proof (Z.div_mod (d * d) (2 ^ 32) ltac:(lia)). lia. }
  destruct (mod_correct_off_modulus _ _ 0 0 Hm Hq ltac:(lia) ltac:(lia) n Hn)
    as (r0 & r1 & Em & R0 & R1 & Ev & _); [rewrite Hv; exact Hne|].
  exists r0, r1. rewrite Hv in Ev. auto.
Qed.

Lemma square_then_mod_witness :
  exists r0 r1,
    BigInt128.mod_ (BigInt128.square (BigInt128.make 5 0 0 0)) 7
    = Some (BigInt128.make r0 r1 0 0)
    /\ 0 <= r0 < 2 ^ 32 /\ 0 <= r1 < 2 ^ 32
    /\ BigInt128.value (BigInt128.make r0 r1 0 0) = (5 * 5) mod 7.
Proof.
  apply (square_then_mod 5 7); lia.
Defined.

(** *** print *)

Lemma string_of_uint_no_space d : no_space (NilEmpty.string_of_uint d).
Proof.
  induction d; cbn [NilEmpty.string_of_uint no_space]; try exact I;
    (split; [discriminate | assumption]).
Qed.

Lemma decimal_no_space x : no_space (BigInt128.decimal x).
Proof. apply string_of_uint_no_space. Qed.

Lemma decimal_inj x y :
  0 <= x -> 0 <= y -> BigInt128.decimal x = BigInt128.decimal y -> x = y.
Proof.
  unfold BigInt128.decimal. intros Hx Hy E.
  apply (f_equal NilEmpty.uint_of_string) in E.
  rewrite !NilEmpty.usu in E. injection E as E.
  apply (f_equal N.of_uint) in E. rewrite !DecimalN.Unsigned.of_to in E.
  lia.
Qed.

(** Two fields that end at their first space are equal when what they
    start is. *)
Lemma field_split s1 : forall s2 r1 r2,
  no_space s1 -> no_space s2 ->
  (s1 ++ " " ++ r1 = s2 ++ " " ++ r2)%string -> s1 = s2 /\ r1 = r2.
Proof.
  induction s1 as [|c s1 IH]; intros [|c2 s2] r1 r2 N1 N2 E; cbn in E.
  - injection E as E. auto.
  - injection E as Ec _. destruct N2 as [N2 _]. congruence.
  - injection E as Ec _. destruct N1 as [N1 _]. congruence.
  - injection E as Ec E. destruct N1 as [_ N1], N2 as [_ N2].
    destruct (IH s2 r1 r2 N1 N2 E) as [-> ->]. subst. auto.
Qed.

Lemma append_cancel_l (p : string) : forall a b, (p ++ a = p ++ b)%string -> a = b.
Proof.
  induction p as [|c p IH]; intros a b E; cbn in E; [exact E|].
  injection E as E. auto.
Qed.

Lemma string_append_assoc (a : string) : forall b c,
  ((a ++ b) ++ c = a ++ b ++ c)%string.
Proof.
  induction a as [|x a IH]; intros b c; cbn; [reflexivity | now rewrite IH].
Qed.

Lemma print_make d0 d1 d2 d3 out :
  BigInt128.print (BigInt128.make d0 d1 d2 d3) out
  = (out ++ BigInt128.decimal d3 ++ " " ++ BigInt128.decimal d2 ++ " "
         ++ BigInt128.decimal d1 ++ " " ++ BigInt128.decimal d0 ++ " ")%string.
Proof.
  unfold BigInt128.print, BigInt128.make. cbn [fold_left get nth].
  now rewrite !string_append_assoc.
Qed.

(** X7.  [print] writes the four limbs from the most significant down, each
    followed by one space, so that the limbs can be read back from the output:
    arrays that print alike are equal. *)
Theorem print_injective a0 a1 a2 a3 b0 b1 b2 b3 out :
  0 <= a0 -> 0 <= a1 -> 0 <= a2 -> 0 <= a3 ->
  0 <= b0 -> 0 <= b1 -> 0 <= b2 -> 0 <= b3 ->
  BigInt128.print (BigInt128.make a0 a1 a2 a3) out
  = BigInt128.print (BigInt128.make b0 b1 b2 b3) out ->
  BigInt128.make a0 a1 a2 a3 = BigInt128.make b0 b1 b2 b3.
Proof.
  intros A0 A1 A2 A3 B0 B1 B2 B3 E.
  rewrite !print_make in E. apply append_cancel_l in E.
  apply field_split in E as [E3 E]; try apply decimal_no_space.
  apply field_split in E as [E2 E]; try apply decimal_no_space.
  apply field_split in E as [E1 E]; try apply decimal_no_space.
  apply field_split in E as [E0 _]; try apply decimal_no_space.
  apply decimal_inj in E0, E1, E2, E3; try assumption.
  now subst.
Qed.

Lemma print_injective_witness :
  BigInt128.print (BigInt128.make 25 0 7 1) EmptyString = "1 7 0 25 "%string
  /\ BigInt128.make 25 0 7 1 = BigInt128.make 25 0 7 1.
Proof.
  split; [reflexivity|].
  apply (print_injective 25 0 7 1 25 0 7 1 EmptyString); try lia.
  reflexivity.
Defined.
(** ** Division below one *)

(** The quotient of two normal floats [a < b] rounds below [1.0]: the
    largest float below [1.0] lies between the two. *)
Lemma fdiv_lt_one ma ea mb eb :
  let a := S754_finite false ma ea in
  let b := S754_finite false mb eb in
  good a -> good b -> 2 ^ 53 <= V a -> V a < V b -> f_emin + 53 <= ea - eb ->
  good (fdiv a b) /\ V (fdiv a b) < 2 ^ (- f_emin).
Proof.
  intros a b Ga Gb Ha Hab Hrange.
  assert (2 ^ 53 <= V b) as Hb by lia.
  pose proof (good_normal _ _ _ Ga Ha) as Na.
  pose proof (good_normal _ _ _ Gb Hb) as Nb.
  apply good_finite_inv in Ga as (_ & [Ea Ea'] & Ua & La).
  apply good_finite_inv in Gb as (_ & [Eb Eb'] & Ub & Lb).
  destruct (La Na) as [La1 Da]. destruct (Lb Nb) as [Lb1 Db]. clear La Lb.
  unfold a, b in *. cbn [V] in Hab.
  (* a < b forces ea <= eb *)
  assert (ea <= eb) as Hle.
  { destruct (Z.le_gt_cases ea eb) as [|C]; [assumption|exfalso].
    rewrite (pow2_split (ea - f_emin) (eb - f_emin)) in Hab by lia.
    replace (ea - f_emin - (eb - f_emin)) with (ea - eb) in Hab by lia.
    pose proof (pow2_pos (eb - f_emin) ltac:(lia)).
    assert (2 <= 2 ^ (ea - eb)) by (change 2 with (2 ^ 1) at 1; apply pow2_le; lia).
    assert (Z.pos mb < Z.pos ma * 2 ^ (ea - eb)) by nia.
    rewrite Z.mul_assoc in Hab. nia. }
  assert (Z.pos ma < Z.pos mb * 2 ^ (eb - ea)) as Hab'.
  { rewrite (pow2_split (eb - f_emin) (ea - f_emin)) in Hab by lia.
    replace (eb - f_emin - (ea - f_emin)) with (eb - ea) in Hab by lia.
    pose proof (pow2_pos (ea - f_emin) ltac:(lia)).
    rewrite Z.mul_assoc in Hab. nia. }
  set (e' := ea - eb - 53).
  set (q := Z.pos ma * 2 ^ 53 / Z.pos mb).
  set (r := (Z.pos ma * 2 ^ 53) mod Z.pos mb).
  assert (SFdiv_core_binary prec emax (Z.pos ma) ea (Z.pos mb) eb
          = (q, e', new_location (Z.pos mb) r)) as Hcore.
  { unfold SFdiv_core_binary. cbn [Zdigits2]. rewrite Da, Db, fexp_eq.
    replace (Z.min (f_fexp (53 + ea - (53 + eb))) (ea - eb)) with e'
      by (unfold e', f_fexp; lia).
    replace (ea - eb - e') with 53 by (unfold e'; lia).
    rewrite Z.shiftl_mul_pow2 by lia.
    unfold q, r, Z.div, Z.modulo.
    destruct (Z.div_eucl (Z.pos ma * 2 ^ 53) (Z.pos mb)); reflexivity. }
  pose proof (Z.div_mod (Z.pos ma * 2 ^ 53) (Z.pos mb) ltac:(lia)) as DM.
  pose proof (Z.mod_pos_bound (Z.pos ma * 2 ^ 53) (Z.pos mb) ltac:(lia)) as RB.
  fold q in DM. fold r in DM, RB.
  assert (2 ^ 52 <= q) as Hq1 by (apply Z.div_le_lower_bound; lia).
  assert (q < 2 ^ 54) as Hq2 by (apply Z.div_lt_upper_bound; lia).
  pose proof (Zdigits2_ge_pow q 52 Hq1 ltac:(lia)) as Dq1.
  pose proof (Zdigits2_le_pow q 54 ltac:(lia) Hq2 ltac:(lia)) as Dq2.
  set (e1 := f_fexp (Zdigits2 q + e')).
  assert (e1 = Zdigits2 q + e' - 53) as He1 by (unfold e1, e', f_fexp; lia).
  destruct (binary_round_aux_spec false q e' (new_location (Z.pos mb) r))
    as (m1 & Hr & Hi); [lia | fold e1; lia |].
  fold e1 in Hr, Hi.
  set (B := 2 ^ (eb - ea + 53)).
  assert ((q + 1) * Z.pos mb < Z.pos mb * B) as HqB.
  { unfold B. rewrite Z.pow_add_r by lia.
    set (K := 2 ^ (eb - ea)) in *.
    assert ((Z.pos ma + 1) * 2 ^ 53 <= Z.pos mb * K * 2 ^ 53)
      by (apply Z.mul_le_mono_nonneg_r; lia).
    lia. }
  assert (q + 1 < B) as HqB1.
  { apply (Z.mul_lt_mono_pos_r (Z.pos mb)); lia. }
  assert (m1 < 2 ^ (- e1)) as Hm1.
  { destruct (Z.eq_dec (Zdigits2 q) 53) as [D53 | D54].
    - (* no shift *)
      replace (e1 - e') with 0 in Hr by lia.
      replace (- e1) with (eb - ea + 53) by (unfold e' in *; lia). fold B.
      unfold rnd_ok in Hr. rewrite Z.pow_0_r, Z.div_1_r in Hr.
      destruct Hr as [[-> _] | [-> _]]; lia.
    - (* one bit is shifted out *)
      replace (e1 - e') with 1 in Hr by lia.
      assert (B = 2 * 2 ^ (- e1)) as EB.
      { unfold B. replace (eb - ea + 53) with (1 + - e1) by (unfold e' in *; lia).
        rewrite Z.pow_add_r by (unfold e' in *; lia). reflexivity. }
      pose proof (pow2_pos (- e1) ltac:(unfold e' in *; lia)).
      unfold rnd_ok in Hr. rewrite Z.pow_1_r in Hr.
      pose proof (Z.div_mod q 2 ltac:(lia)) as DM2.
      pose proof (Z.mod_pos_bound q 2 ltac:(lia)) as RB2.
      destruct Hr as [[-> _] | [-> [[C _] | [_ Hodd]]]]; lia. }
  assert (f_emin <= e1) as He1min by (unfold e1, f_fexp; lia).
  assert (m1 * 2 ^ (e1 - f_emin) < 2 ^ (- f_emin)) as HV.
  { rewrite (pow2_split (- f_emin) (e1 - f_emin)) by (unfold e', f_emin in *; lia).
    replace (- f_emin - (e1 - f_emin)) with (- e1) by lia.
    apply Z.mul_lt_mono_pos_r; [|exact Hm1].
    apply pow2_pos. lia. }
  unfold fdiv, SFdiv. rewrite Hcore. cbn [xorb].
  destruct (is_rounding_good m1 e1 _ Hi He1min) as [G E].
  - assert (2 ^ (- f_emin) < 2 ^ (emax - f_emin)) by (apply pow2_lt; unfold emax, f_emin; lia).
    lia.
  - split; [exact G | rewrite E; exact HV].
Qed.

(** ** next_unit: the draws it rejects *)

(** Conversion of an integer of 54 bits or more: the mantissa is the
    integer rounded to 53 bits. *)
Lemma of_Z_round k :
  2 ^ 53 <= k < 2 ^ 1000 ->
  let n := Zdigits2 k - 53 in
  exists m1,
    rnd_ok k n loc_Exact m1
    /\ good (of_Z k) /\ V (of_Z k) = m1 * 2 ^ (n - f_emin).
Proof.
  intros Hk n.
  destruct k as [|p|p]; try lia.
  unfold of_Z, binary_normalize.
  destruct (binary_round_spec p 0) as (m1 & _ & H2 & H3).
  change (Z.pos (digits2_pos p)) with (Zdigits2 (Z.pos p)) in *.
  pose proof (Zdigits2_ge_pow (Z.pos p) 53 ltac:(lia) ltac:(lia)) as D1.
  pose proof (Zdigits2_le_pow (Z.pos p) 1000 ltac:(lia) ltac:(lia) ltac:(lia)) as D2.
  pose proof (Zdigits2_bounds (Z.pos p) ltac:(lia)) as [DL DU].
  set (d := Zdigits2 (Z.pos p)) in *.
  replace (f_fexp (d + 0)) with (d - 53) in * by (unfold f_fexp, f_emin; lia).
  specialize (H2 ltac:(lia)). replace (d - 53 - 0) with (d - 53) in H2 by lia.
  fold n in H2, H3.
  pose proof (pow2_pos n ltac:(unfold n; lia)) as Hpn.
  assert (Z.pos p / 2 ^ n < 2 ^ 53) as Q2.
  { apply Z.div_lt_upper_bound; [lia|]. rewrite <- Z.pow_add_r by (unfold n; lia).
    replace (n + 53) with d by (unfold n; lia). exact DU. }
  pose proof (rnd_ok_range _ _ _ _ H2) as [R1 R2].
  exists m1. split; [exact H2|].
  apply (is_rounding_good m1 n _ H3).
  - unfold n, f_emin; lia.
  - assert (2 ^ (n - f_emin) <= 2 ^ (emax - f_emin - 54))
      by (apply pow2_le; unfold n, emax, f_emin; lia).
    assert (2 ^ 54 * 2 ^ (emax - f_emin - 54) = 2 ^ (emax - f_emin))
      by (rewrite <- Z.pow_add_r by (unfold emax, f_emin; lia); f_equal; lia).
    pose proof (pow2_pos (n - f_emin) ltac:(unfold n, f_emin; lia)).
    assert (m1 * 2 ^ (n - f_emin) <= 2 ^ 53 * 2 ^ (n - f_emin))
      by (apply Z.mul_le_mono_nonneg_r; lia).
    assert (2 ^ 53 * 2 ^ (n - f_emin) <= 2 ^ 53 * 2 ^ (emax - f_emin - 54))
      by (apply Z.mul_le_mono_nonneg_l; lia).
    assert (2 ^ 53 * 2 ^ (emax - f_emin - 54) < 2 ^ 54 * 2 ^ (emax - f_emin - 54))
      by (apply Z.mul_lt_mono_pos_r; [apply pow2_pos; unfold emax, f_emin|]; lia).
    lia.
Qed.

(** A positive draw whose conversion is below that of the maximum gives a
    candidate below [1.0]. *)
Lemma unit_of_lt_one T g :
  0 < g <= T_max T -> V (of_Z g) < V (of_Z (T_max T)) ->
  good (Generator.unit_of T g) /\ V (Generator.unit_of T g) < 2 ^ (- f_emin).
Proof.
  intros Hg Hlt. unfold Generator.unit_of.
  destruct (of_Z_T_max T) as (mb & eb & Eb & Gb & Heb & Vb). rewrite Eb in *.
  pose proof (T_max_lt T).
  destruct (of_Z_bounds g) as (Ga & La & _).
  { split; [lia|]. assert (2 ^ 64 < 2 ^ 1000) by (apply pow2_lt; lia). lia. }
  pose proof pow53_le_unit.
  destruct (of_Z g) as [sa| | |sa ma ea]; try contradiction.
  pose proof (good_ge_one_exponent _ _ _ Ga La).
  pose proof (good_finite_inv _ _ _ Ga) as (-> & _).
  apply fdiv_lt_one; try assumption; try lia. unfold f_emin. lia.
Qed.

Lemma below_one_not_one x :
  good x -> V x < 2 ^ (- f_emin) -> feqb x f_one = false.
Proof.
  intros G L. destruct (feqb x f_one) eqn:E; [|reflexivity].
  apply (SFeqb_V _ _ G good_f_one) in E. rewrite V_f_one in E. lia.
Qed.

Lemma unit_of_zero T : feqb (Generator.unit_of T 0) f_one = false.
Proof. destruct T; reflexivity. Qed.

(** A 32-bit draw converts exactly, so every draw but the maximum gives a
    candidate below [1.0]. *)
Lemma unit_of_U32_below g :
  0 <= g < T_max U32 -> feqb (Generator.unit_of U32 g) f_one = false.
Proof.
  intros Hg. destruct (Z.eq_dec g 0) as [-> | Hnz]; [apply unit_of_zero|].
  assert (T_max U32 = 2 ^ 32 - 1) as ET by reflexivity.
  destruct (unit_of_lt_one U32 g) as [G L]; [lia| |now apply below_one_not_one].
  destruct (of_Z_exact g) as [_ ->]; [lia|].
  destruct (of_Z_exact (T_max U32)) as [_ ->]; [lia|].
  apply Z.mul_lt_mono_pos_r; [apply pow2_pos; unfold f_emin|]; lia.
Qed.

(** A 64-bit draw is rounded to 53 bits: below [2^64 - 1024] it stays
    below [2^64], which is what the maximum converts to. *)
Lemma of_Z_U64_below g :
  0 < g < 2 ^ 64 - 1024 -> V (of_Z g) < V (of_Z (T_max U64)).
Proof.
  intros Hg.
  assert (V (of_Z (T_max U64)) = 2 ^ 53 * 2 ^ (11 - f_emin)) as -> by reflexivity.
  pose proof (pow2_pos (11 - f_emin) ltac:(unfold f_emin; lia)) as HP.
  destruct (Z.lt_ge_cases g (2 ^ 63)) as [Hs | Hl].
  - destruct (of_Z_bounds g) as (_ & _ & U).
    { split; [lia|]. assert (2 ^ 64 < 2 ^ 1000) by (apply pow2_lt; lia). lia. }
    specialize (U (S754_finite false (2 ^ 52) 11)).
    assert (V (S754_finite false (2 ^ 52) 11) = 2 ^ 52 * 2 ^ (11 - f_emin)) as EV
      by reflexivity.
    rewrite EV in U.
    assert (2 ^ (11 - f_emin) = 2 ^ 11 * 2 ^ (- f_emin)) as E11
      by (rewrite <- Z.pow_add_r by (unfold f_emin; lia); f_equal; lia).
    pose proof (pow2_pos (- f_emin) ltac:(unfold f_emin; lia)).
    enough (V (of_Z g) <= 2 ^ 52 * 2 ^ (11 - f_emin)) by lia.
    apply U.
    + split; [reflexivity | unfold emax, prec; lia].
    + rewrite E11, Z.mul_assoc. apply Z.mul_le_mono_nonneg_r; lia.
  - destruct (of_Z_round g) as (m1 & Hr & _ & ->).
    { split; [lia|]. assert (2 ^ 64 < 2 ^ 1000) by (apply pow2_lt; lia). lia. }
    assert (Zdigits2 g = 64) as ED by (apply Zdigits2_unique; lia).
    rewrite ED in *. replace (64 - 53) with 11 in * by lia.
    apply Z.mul_lt_mono_pos_r; [exact HP|].
    pose proof (Z.div_mod g (2 ^ 11) ltac:(lia)) as DM.
    pose proof (Z.mod_pos_bound g (2 ^ 11) ltac:(lia)) as RB.
    destruct Hr as [[-> _] | [-> [[C _] | [_ Hup]]]]; lia.
Qed.

Lemma unit_of_U64_below g :
  0 <= g < 2 ^ 64 - 1024 -> feqb (Generator.unit_of U64 g) f_one = false.
Proof.
  intros Hg. destruct (Z.eq_dec g 0) as [-> | Hnz]; [apply unit_of_zero|].
  assert (T_max U64 = 2 ^ 64 - 1) as ET by reflexivity.
  destruct (unit_of_lt_one U64 g) as [G L]; [lia| |now apply below_one_not_one].
  apply of_Z_U64_below. lia.
Qed.

(** The 1024 largest 64-bit draws all convert to [2^64]. *)
Lemma unit_of_U64_top g :
  2 ^ 64 - 1024 <= g < 2 ^ 64 -> feqb (Generator.unit_of U64 g) f_one = true.
Proof.
  intros Hg.
  assert (forallb (fun k => feqb (Generator.unit_of U64 (2 ^ 64 - 1024 + Z.of_nat k)) f_one)
                  (seq 0 1024) = true) as Hall by (vm_compute; reflexivity).
  rewrite forallb_forall in Hall.
  specialize (Hall (Z.to_nat (g - (2 ^ 64 - 1024)))).
  rewrite Z2Nat.id in Hall by lia.
  replace (2 ^ 64 - 1024 + (g - (2 ^ 64 - 1024))) with g in Hall by lia.
  apply Hall. apply in_seq. lia.
Qed.

(** X8.  [next_unit] rejects a draw exactly when the candidate rounds to [1.0]:
    with a 32-bit [T] that is the maximum alone, with a 64-bit [T] the 1024
    largest values. Any other draw is accepted at once. *)
Theorem next_unit_rejected_draws :
  (forall g t, 0 <= g <= T_max U32 ->
     Generator.next_unit U32 (g :: t)
     = if g =? T_max U32 then Generator.next_unit U32 t
       else Ok (Generator.unit_of U32 g) t)
  /\ (forall g t, 0 <= g <= T_max U64 ->
        Generator.next_unit U64 (g :: t)
        = if 2 ^ 64 - 1024 <=? g then Generator.next_unit U64 t
          else Ok (Generator.unit_of U64 g) t).
Proof.
  split; intros g t Hg; cbn [Generator.next_unit]; rewrite T_wrap_small by exact Hg.
  - destruct (Z.eqb_spec g (T_max U32)) as [-> | NE]; [reflexivity|].
    rewrite unit_of_U32_below by lia. reflexivity.
  - assert (T_max U64 = 2 ^ 64 - 1) as ET by reflexivity.
    destruct (Z.leb_spec (2 ^ 64 - 1024) g).
    + rewrite unit_of_U64_top by lia. reflexivity.
    + rewrite unit_of_U64_below by lia. reflexivity.
Qed.

Lemma next_unit_rejected_draws_witness :
  Generator.next_unit U32 [2 ^ 32 - 1; 7] = Generator.next_unit U32 [7]
  /\ Generator.next_unit U32 [7] = Ok (Generator.unit_of U32 7) []
  /\ Generator.next_unit U64 [2 ^ 64 - 1000; 7] = Generator.next_unit U64 [7]
  /\ Generator.next_unit U64 [7] = Ok (Generator.unit_of U64 7) [].
Proof.
  destruct next_unit_rejected_draws as [H32 H64].
  split; [|split; [|split]].
  - apply (H32 (2 ^ 32 - 1) [7]). unfold T_max; cbn [bits]; lia.
  - apply (H32 7 []). unfold T_max; cbn [bits]; lia.
  - apply (H64 (2 ^ 64 - 1000) [7]). unfold T_max; cbn [bits]; lia.
  - apply (H64 7 []). unfold T_max; cbn [bits]; lia.
Defined.
(** ** next_in_range, choice and shuffle *)

Lemma T_wrap_to_int64 z : 0 <= z < 2 ^ 64 -> T_wrap U64 (to_int64 z) = z.
Proof.
  intros Hz. unfold to_int64, u64, T_wrap. cbn [bits]. rewrite (wrap_small 64 z) by lia.
  destruct (Z.ltb_spec z (2 ^ 63)).
  - apply wrap_small; lia.
  - unfold wrap. replace (z - 2 ^ 64) with (z + (-1) * 2 ^ 64) by lia.
    rewrite Z.mod_add by lia. apply Z.mod_small; lia.
Qed.

(** For a range of [T] less than [2^63] wide, the value that
    [next_in_range] computes is [min] plus an offset inside the range; with
    a 64-bit [T] the sum is then read as an [int64_t]. *)
Lemma next_in_range_offset T min max t x t' :
  0 <= min <= max -> max <= T_max T -> max - min < 2 ^ 63 ->
  Generator.next_unit T t = Ok x t' ->
  exists k,
    0 <= k <= max - min
    /\ Generator.next_in_range T min max t
       = Ok (match T with U32 => k + min | U64 => to_int64 (k + min) end) t'.
Proof.
  intros Hmm HT Hw Hx.
  destruct (next_unit_below_one _ _ _ _ Hx) as [Gx Lx].
  unfold Generator.next_in_range, bind. rewrite Hx.
  pose proof (T_max_lt T) as HTlt.
  destruct (Z.eq_dec (max - min + 1) (T_max T + 1)) as [Efull | Hpart].
  - (* the whole of a 32-bit T: the size of the range wraps to 0 *)
    assert (min = 0 /\ max = T_max T) as [-> ->] by lia.
    destruct T; [|unfold T_max in *; cbn [bits] in *; lia].
    replace (T_wrap U32 (T_max U32 - 0 + 1)) with 0 by reflexivity.
    change (of_Z 0) with f_zero.
    destruct (fmul_zero_r x Gx) as [s ->].
    exists 0. split; [unfold T_max; cbn [bits]; lia | reflexivity].
  - rewrite T_wrap_small by lia.
    destruct (scaled_floor x (max - min + 1) Gx Lx ltac:(lia)) as (k & Ek & Hk).
    unfold cast_int64_floor. rewrite Ek.
    replace ((int64_min <=? k) && (k <=? int64_max)) with true
      by (symmetry; apply andb_true_iff; split; apply Z.leb_le;
          unfold int64_min, int64_max in *; lia).
    exists k. split; [lia|].
    unfold Generator.add_min, undefined, ret. destruct T.
    + replace ((int64_min <=? k + min) && (k + min <=? int64_max)) with true
        by (symmetry; apply andb_true_iff; split; apply Z.leb_le;
            unfold T_max, int64_min, int64_max in *; cbn [bits] in *; lia).
      reflexivity.
    + unfold u64 at 2. rewrite (wrap_small 64 k) by lia.
      unfold u64 at 1. rewrite wrap_small by lia. reflexivity.
Qed.

(** X9.  Read back as a value of [T], the result of [next_in_range] is in
    [[min, max]] for every range less than [2^63] wide, also where the
    [int64_t] returned is negative. *)
Theorem next_in_range_as_T T min max t x t' :
  0 <= min <= max -> max <= T_max T -> max - min < 2 ^ 63 ->
  Generator.next_unit T t = Ok x t' ->
  exists r,
    Generator.next_in_range T min max t = Ok r t'
    /\ int64_min <= r <= int64_max
    /\ min <= T_wrap T r <= max.
Proof.
  intros Hmm HT Hw Hx.
  destruct (next_in_range_offset T min max t x t' Hmm HT Hw Hx) as (k & Hk & E).
  rewrite E. eexists. split; [reflexivity|].
  pose proof (T_max_lt T).
  destruct T.
  - unfold T_max in HT; cbn [bits] in HT.
    rewrite T_wrap_small by (unfold T_max; cbn [bits]; lia).
    unfold int64_min, int64_max. lia.
  - rewrite T_wrap_to_int64 by lia. split; [|lia].
    unfold to_int64, u64, int64_min, int64_max. rewrite wrap_small by lia.
    destruct (Z.ltb_spec (k + min) (2 ^ 63)); lia.
Qed.

Lemma next_in_range_as_T_witness :
  exists r,
    Generator.next_in_range U64 (2 ^ 63) (2 ^ 63 + 5) [2 ^ 63] = Ok r []
    /\ int64_min <= r <= int64_max
    /\ 2 ^ 63 <= T_wrap U64 r <= 2 ^ 63 + 5.
Proof.
  apply (next_in_range_as_T U64 (2 ^ 63) (2 ^ 63 + 5) [2 ^ 63]
                            (Generator.unit_of U64 (2 ^ 63)) []);
    [lia | unfold T_max; cbn [bits]; lia | lia | reflexivity].
Defined.

(** X10.  When [max - min + 1] wraps to 0 in [T] (the whole range of [T], or
    [max] one below [min]) the scaled draw is 0 and the call returns [min],
    whatever is drawn. *)
Theorem next_in_range_wrapped_width T min max t x t' :
  0 <= min <= T_max T -> T_wrap T (max - min + 1) = 0 ->
  Generator.next_unit T t = Ok x t' ->
  Generator.next_in_range T min max t = Ok (to_int64 min) t'.
Proof.
  intros Hmin Hw Hx.
  destruct (next_unit_below_one _ _ _ _ Hx) as [Gx Lx].
  unfold Generator.next_in_range, bind. rewrite Hx, Hw.
  change (of_Z 0) with f_zero.
  destruct (fmul_zero_r x Gx) as [s ->].
  unfold cast_int64_floor, floorZ.
  replace ((int64_min <=? 0) && (0 <=? int64_max)) with true by reflexivity.
  pose proof (T_max_lt T).
  unfold Generator.add_min, ret. destruct T.
  - unfold T_max in Hmin; cbn [bits] in Hmin. rewrite Z.add_0_l.
    replace ((int64_min <=? min) && (min <=? int64_max)) with true
      by (symmetry; apply andb_true_iff; split; apply Z.leb_le;
          unfold int64_min, int64_max; lia).
    rewrite to_int64_small by (unfold int64_max; lia). reflexivity.
  - change (u64 0) with 0. rewrite Z.add_0_l.
    unfold T_max in Hmin; cbn [bits] in Hmin.
    rewrite u64_small by lia. reflexivity.
Qed.

Lemma next_in_range_wrapped_width_witness :
  Generator.next_in_range U32 0 (2 ^ 32 - 1) [123456789] = Ok (to_int64 0) [].
Proof.
  apply (next_in_range_wrapped_width U32 0 (2 ^ 32 - 1) [123456789]
                                      (Generator.unit_of U32 123456789) []);
    [unfold T_max; cbn [bits]; lia | reflexivity | reflexivity].
Defined.

(** X11.  [choice] on a sequence that is not empty, and whose last index is a
    value of [T], returns one of its elements. *)
Theorem choice_returns_element T {A} (s : list A) t x t' :
  s <> [] ->
  Z.of_nat (List.length s) - 1 <= T_max T ->
  Z.of_nat (List.length s) <= 2 ^ 63 ->
  Generator.next_unit T t = Ok x t' ->
  exists i a, Generator.choice T s t = Ok a t' /\ nth_error s i = Some a.
Proof.
  intros Hs HT H63 Hx.
  assert (0 < Z.of_nat (List.length s)) as Hlen by (destruct s; [contradiction | cbn; lia]).
  unfold Generator.choice, bind.
  rewrite (T_wrap_small T 0) by (pose proof (T_wrap_range T 0); unfold T_max in *; lia).
  rewrite (T_wrap_small T (Z.of_nat (List.length s) - 1)) by lia.
  destruct (next_in_range_offset T 0 (Z.of_nat (List.length s) - 1) t x t'
              ltac:(lia) HT ltac:(lia) Hx) as (k & Hk & ->).
  assert ((match T with U32 => k + 0 | U64 => to_int64 (k + 0) end) = k) as ->.
  { rewrite Z.add_0_r. destruct T; [reflexivity|].
    apply to_int64_small. unfold int64_max. lia. }
  destruct (nth_error s (Z.to_nat k)) as [a|] eqn:Ea.
  - exists (Z.to_nat k), a. split; [|exact Ea].
    rewrite <- (Z2Nat.id k) by lia. now apply deref_inside.
  - apply nth_error_None in Ea. lia.
Qed.

Lemma choice_returns_element_witness :
  exists i a, Generator.choice U32 [10; 20; 30] [2 ^ 31] = Ok a []
              /\ nth_error [10; 20; 30] i = Some a.
Proof.
  apply (choice_returns_element U32 [10; 20; 30] [2 ^ 31]
                                (Generator.unit_of U32 (2 ^ 31)) []);
    [discriminate | unfold T_max; cbn; lia | cbn; lia | reflexivity].
Defined.

(** *** shuffle *)

(** One turn of the loop of [shuffle_array] on a pool of [S n] elements:
    the index drawn is inside the pool. *)
Lemma shuffle_index_in_pool T {A} n len i (v : list A) t x t1 :
  List.length v = S n -> len = Z.of_nat (i + S n) -> len < 2 ^ 31 ->
  Generator.next_unit T t = Ok x t1 ->
  exists k a,
    Generator.next_in_range T (T_wrap T 0) (T_wrap T (len - Z.of_nat i - 1)) t = Ok k t1
    /\ 0 <= k /\ T_wrap T k = k
    /\ nth_error v (Z.to_nat k) = Some a.
Proof.
  intros Hv Hlen H31 Hx.
  assert (len <= T_max T) as HT by (destruct T; unfold T_max; cbn [bits]; lia).
  rewrite (T_wrap_small T 0) by lia.
  rewrite (T_wrap_small T (len - Z.of_nat i - 1)) by lia.
  destruct (next_in_range_offset T 0 (len - Z.of_nat i - 1) t x t1
              ltac:(lia) ltac:(lia) ltac:(lia) Hx) as (k & Hk & E).
  assert ((match T with U32 => k + 0 | U64 => to_int64 (k + 0) end) = k) as Ek.
  { rewrite Z.add_0_r. destruct T; [reflexivity|].
    apply to_int64_small. unfold int64_max. lia. }
  rewrite Ek in E.
  destruct (nth_error v (Z.to_nat k)) as [a|] eqn:Ea;
    [|apply nth_error_None in Ea; lia].
  exists k, a. split; [exact E|]. split; [lia|]. split; [|exact Ea].
  apply T_wrap_small. lia.
Qed.

Lemma shuffle_loop_progress T {A} n :
  forall len i (arr v : list A) t,
    List.length v = n -> len = Z.of_nat (i + n) -> len < 2 ^ 31 ->
    match Generator.shuffle_loop T n len i arr v t with
    | Ok _ _ | Starved => True
    | _ => False
    end.
Proof.
  induction n as [|n IH]; intros len i arr v t Hv Hlen H31; [exact I|].
  cbn [Generator.shuffle_loop]. unfold bind.
  pose proof (next_unit_no_throw T t) as Hnu.
  destruct (Generator.next_unit T t) as [x t1| | |] eqn:Hx; try contradiction.
  - destruct (shuffle_index_in_pool T n len i v t x t1 Hv Hlen H31 Hx)
      as (k & a & E & Hk & Ew & Ea).
    rewrite E, Ew, Ea.
    apply IH; try lia.
    pose proof (erase_length v _ a Ea). lia.
  - unfold Generator.next_in_range, bind. now rewrite Hx.
Qed.

(** X12.  On a sequence of fewer than [2^31] elements of a trivially
    copyable type, [shuffle] never reads outside the pool and never
    overflows: as long as draws keep coming it ends, with a permutation of
    what it was given. *)
Theorem shuffle_never_undefined T {A} {E : Element A} (s : list A) t :
  trivially_copyable = true ->
  Z.of_nat (List.length s) < 2 ^ 31 ->
  match Generator.shuffle T s t with
  | Ok s' _ => Permutation s s'
  | Starved => True
  | Throw _ _ | Undefined _ => False
  end.
Proof.
  intros Htc Hlen.
  assert (Z.of_nat (List.length s) <= T_max T) as HT
      by (destruct T; unfold T_max; cbn [bits]; lia).
  assert (match Generator.shuffle T s t with
          | Ok _ _ | Starved => True
          | _ => False
          end) as P.
  { rewrite shuffle_trivially_copyable by exact Htc.
    unfold Generator.shuffle_array.
    rewrite T_wrap_small by lia.
    destruct (Z.leb_spec (2 ^ 31) (Z.of_nat (List.length s))); [lia|].
    rewrite Nat2Z.id.
    apply shuffle_loop_progress; [rewrite length_firstn; lia | lia | lia]. }
  destruct (Generator.shuffle T s t) as [s' t'| | |] eqn:Hrun; try exact P.
  apply shuffle_Ok_inv in Hrun.
  eapply shuffle_array_perm; [|exact Hrun]. apply T_wrap_le. lia.
Qed.

Lemma shuffle_never_undefined_witness :
  match Generator.shuffle U64 [1; 2; 3] [2 ^ 63; 5; 2 ^ 64 - 1; 2 ^ 62] with
  | Ok s' _ => Permutation [1; 2; 3] s'
  | Starved => True
  | Throw _ _ | Undefined _ => False
  end.
Proof.
  apply (shuffle_never_undefined U64 [1; 2; 3]); [reflexivity | cbn; lia].
Defined.

Lemma shuffle_loop_consumes T {A} n :
  forall len i (arr v : list A) t,
    List.length v = n -> len = Z.of_nat (i + n) -> len < 2 ^ 31 ->
    (n <= List.length t)%nat ->
    Forall (fun g => feqb (Generator.unit_of T (T_wrap T g)) f_one = false)
           (firstn n t) ->
    exists arr', Generator.shuffle_loop T n len i arr v t = Ok arr' (skipn n t).
Proof.
  induction n as [|n IH]; intros len i arr v t Hv Hlen H31 Ht Hacc.
  - exists arr. reflexivity.
  - destruct t as [|g t]; [cbn in Ht; lia|].
    cbn [firstn] in Hacc. inversion Hacc as [|? ? Hg Hacc']; subst.
    assert (Generator.next_unit T (g :: t)
            = Ok (Generator.unit_of T (T_wrap T g)) t) as Hx
        by (cbn [Generator.next_unit]; now rewrite Hg).
    destruct (shuffle_index_in_pool T n (Z.of_nat (i + S n)) i v _ _ _ Hv eq_refl H31 Hx)
      as (k & a & E & Hk & Ew & Ea).
    cbn [Generator.shuffle_loop skipn]. unfold bind. rewrite E, Ew, Ea.
    apply IH; try assumption; try lia.
    + pose proof (erase_length v _ a Ea). lia.
    + cbn in Ht. lia.
Qed.

(** X13.  [shuffle] takes one accepted draw for each element: when the
    first [n] draws of the tape are draws that [next_unit] accepts, a
    sequence of [n < 2^31] elements of a trivially copyable type uses up
    exactly those. *)
Theorem shuffle_consumes T {A} {E : Element A} (s : list A) t :
  trivially_copyable = true ->
  Z.of_nat (List.length s) < 2 ^ 31 ->
  (List.length s <= List.length t)%nat ->
  Forall (fun g => feqb (Generator.unit_of T (T_wrap T g)) f_one = false)
         (firstn (List.length s) t) ->
  exists s',
    Generator.shuffle T s t = Ok s' (skipn (List.length s) t)
    /\ Permutation s s'.
Proof.
  intros Htc Hlen Ht Hacc.
  assert (Z.of_nat (List.length s) <= T_max T) as HT
      by (destruct T; unfold T_max; cbn [bits]; lia).
  assert (exists s', Generator.shuffle T s t = Ok s' (skipn (List.length s) t))
    as (s' & Hrun).
  { rewrite shuffle_trivially_copyable by exact Htc.
    unfold Generator.shuffle_array.
    rewrite T_wrap_small by lia.
    destruct (Z.leb_spec (2 ^ 31) (Z.of_nat (List.length s))); [lia|].
    rewrite Nat2Z.id.
    apply shuffle_loop_consumes; try assumption; try lia.
    rewrite length_firstn. lia. }
  exists s'. split; [exact Hrun|].
  apply shuffle_Ok_inv in Hrun.
  eapply shuffle_array_perm; [|exact Hrun]. apply T_wrap_le. lia.
Qed.

Lemma shuffle_consumes_witness :
  exists s',
    Generator.shuffle U32 [1; 2; 3] [0; 2 ^ 31; 5; 2 ^ 32 - 1] = Ok s' [2 ^ 32 - 1]
    /\ Permutation [1; 2; 3] s'.
Proof.
  apply (shuffle_consumes U32 [1; 2; 3] [0; 2 ^ 31; 5; 2 ^ 32 - 1]).
  - reflexivity.
  - cbn. lia.
  - cbn. lia.
  - repeat constructor.
Defined.
(** ** next_in_range on a 64-bit range of more than [2^63] values *)

(** The largest draw that a 64-bit [next_unit] accepts, [2^64 - 1025],
    gives the largest float below [1.0]. *)
Lemma unit_of_U64_largest :
  Generator.unit_of U64 (2 ^ 64 - 1025) = S754_finite false (2 ^ 53 - 1) (-53).
Proof. vm_compute. reflexivity. Qed.

(** The size of the range, converted: a float between [2^63 + 2^11] and
    [2^64]. *)
Lemma of_Z_wide n :
  2 ^ 63 + 2 ^ 11 <= n < 2 ^ 64 ->
  exists m e,
    of_Z n = S754_finite false m e
    /\ good (S754_finite false m e)
    /\ (e = 11 /\ 2 ^ 52 + 1 <= Z.pos m \/ e = 12 /\ Z.pos m = 2 ^ 52).
Proof.
  intros Hn.
  pose proof (pow2_pos (- f_emin) ltac:(unfold f_emin; lia)) as HU.
  destruct (of_Z_bounds n) as (G & _ & Up).
  { split; [lia|]. assert (2 ^ 64 < 2 ^ 1000) by (apply pow2_lt; lia). lia. }
  assert (V (of_Z n) <= 2 ^ 52 * 2 ^ (12 - f_emin)) as Hhi.
  { apply (Up (S754_finite false (2 ^ 52) 12)).
    - split; [reflexivity | unfold emax, prec; lia].
    - change (V (S754_finite false (2 ^ 52) 12)) with (2 ^ 52 * 2 ^ (12 - f_emin)).
      replace (2 ^ 52 * 2 ^ (12 - f_emin)) with (2 ^ 64 * 2 ^ (- f_emin)).
      + apply Z.mul_le_mono_nonneg_r; lia.
      + replace (12 - f_emin) with (12 + - f_emin) by lia.
        rewrite Z.pow_add_r by (unfold f_emin; lia). lia. }
  assert ((2 ^ 52 + 1) * 2 ^ (11 - f_emin) <= V (of_Z n)) as Hlo.
  { destruct n as [|p|p]; try lia.
    unfold of_Z, binary_normalize in *.
    destruct (binary_round_ge p 0 (2 ^ 52 + 1) 11) as [Inf | [_ L]].
    - unfold f_emin; lia.
    - split; [reflexivity | unfold emax, prec; lia].
    - change (V (S754_finite false (2 ^ 52 + 1) 11))
        with ((2 ^ 52 + 1) * 2 ^ (11 - f_emin)).
      replace (11 - f_emin) with (11 + - f_emin) by lia.
      rewrite Z.pow_add_r by (unfold f_emin; lia).
      change (0 - f_emin) with (- f_emin).
      rewrite Z.mul_assoc. apply Z.mul_le_mono_nonneg_r; lia.
    - rewrite Inf in G. contradiction.
    - exact L. }
  destruct (of_Z n) as [s| | |s m e]; try contradiction.
  destruct (good_finite_inv _ _ _ G) as (-> & [Emin Emax] & Um & Lm).
  exists m, e. split; [reflexivity|]. split; [exact G|].
  cbn [V] in Hhi, Hlo.
  assert (f_emin < e) as Hnorm.
  { destruct (Z.lt_ge_cases f_emin e) as [|C]; [assumption|exfalso].
    assert (e = f_emin) as -> by lia. rewrite Z.sub_diag, Z.pow_0_r, Z.mul_1_r in Hlo.
    assert (2 ^ 53 <= 2 ^ (11 - f_emin)) by (apply pow2_le; unfold f_emin; lia).
    nia. }
  destruct (Lm Hnorm) as [Lm' _].
  pose proof (pow2_pos (e - f_emin) ltac:(lia)) as Hpe.
  assert (11 <= e) as He1.
  { destruct (Z.le_gt_cases 11 e) as [|C]; [assumption|exfalso].
    assert (2 ^ (e - f_emin) * 2 <= 2 ^ (11 - f_emin)).
    { replace (11 - f_emin) with (10 - f_emin + 1) by lia.
      rewrite Z.pow_add_r, Z.pow_1_r by (unfold f_emin; lia).
      apply Z.mul_le_mono_nonneg_r; [lia|]. apply pow2_le. lia. }
    assert (Z.pos m * 2 ^ (e - f_emin) < 2 ^ 53 * 2 ^ (e - f_emin))
      by (apply Z.mul_lt_mono_pos_r; lia).
    pose proof (pow2_pos (11 - f_emin) ltac:(unfold f_emin; lia)). lia. }
  assert (e <= 12) as He2.
  { destruct (Z.le_gt_cases e 12) as [|C]; [assumption|exfalso].
    assert (2 ^ (12 - f_emin) * 2 <= 2 ^ (e - f_emin)).
    { replace (e - f_emin) with (e - 1 - f_emin + 1) by lia.
      rewrite Z.pow_add_r, Z.pow_1_r by lia.
      apply Z.mul_le_mono_nonneg_r; [lia|]. apply pow2_le. unfold f_emin in *. lia. }
    assert (2 ^ 52 * 2 ^ (e - f_emin) <= Z.pos m * 2 ^ (e - f_emin))
      by (apply Z.mul_le_mono_nonneg_r; lia).
    pose proof (pow2_pos (12 - f_emin) ltac:(unfold f_emin; lia)).
lia. }
  assert (e = 11 \/ e = 12) as [-> | ->] by lia.
  - left. split; [reflexivity|].
    pose proof (pow2_pos (11 - f_emin) ltac:(unfold f_emin; lia)).
    apply (Z.mul_le_mono_pos_r _ _ (2 ^ (11 - f_emin))); assumption.
  - right. split; [reflexivity|].
    pose proof (pow2_pos (12 - f_emin) ltac:(unfold f_emin; lia)).
    assert (Z.pos m <= 2 ^ 52); [|lia].
    apply (Z.mul_le_mono_pos_r _ _ (2 ^ (12 - f_emin))); assumption.
Qed.

(** The scaled draw of such a range, for the largest unit draw: at least
    [2^63]. *)
Lemma fmul_wide m e :
  good (S754_finite false m e) ->
  (e = 11 /\ 2 ^ 52 + 1 <= Z.pos m \/ e = 12 /\ Z.pos m = 2 ^ 52) ->
  let r := fmul (S754_finite false (2 ^ 53 - 1) (-53)) (S754_finite false m e) in
  good r /\ 2 ^ 63 * 2 ^ (- f_emin) <= V r.
Proof.
  intros G [[-> Hm] | [-> Hm]] r.
  - destruct (good_finite_inv _ _ _ G) as (_ & _ & Um & _).
    assert (good (S754_finite false (2 ^ 53 - 1) (-53))) as Gu
        by (split; [reflexivity | unfold emax, prec; lia]).
    destruct (fmul_spec (2 ^ 53 - 1) (-53) m 11 Gu G) as (_ & m1 & Hr & Hi).
    fold r in Hi.
    change (Z.pos (2 ^ 53 - 1)) with (2 ^ 53 - 1) in Hr, Hi.
    set (P := (2 ^ 53 - 1) * Z.pos m) in *.
    assert (2 ^ 105 <= P < 2 ^ 106) as HP by (unfold P; lia).
    assert (Zdigits2 P = 106) as ED by (apply Zdigits2_unique; lia).
    rewrite ED in Hr, Hi.
    replace (f_fexp (106 + (-53 + 11))) with 11 in Hr, Hi by reflexivity.
    replace (11 - (-53 + 11)) with 53 in Hr by lia.
    pose proof (rnd_ok_range _ _ _ _ Hr) as [R1 R2].
    assert (2 ^ 52 <= P / 2 ^ 53) as Q1 by (apply Z.div_le_lower_bound; lia).
    assert (P / 2 ^ 53 < 2 ^ 53) as Q2 by (apply Z.div_lt_upper_bound; lia).
    pose proof (pow2_pos (11 - f_emin) ltac:(unfold f_emin; lia)) as Hp.
    assert (2 ^ 63 * 2 ^ (- f_emin) = 2 ^ 52 * 2 ^ (11 - f_emin)) as E63 by reflexivity.
    destruct (is_rounding_good m1 11 r Hi) as [Gr Vr].
    + unfold f_emin; lia.
    + assert (m1 * 2 ^ (11 - f_emin) <= 2 ^ 53 * 2 ^ (11 - f_emin))
        by (apply Z.mul_le_mono_nonneg_r; lia).
      assert (2 ^ 53 * 2 ^ (11 - f_emin) < 2 ^ (emax - f_emin)) by reflexivity.
      lia.
    + split; [exact Gr|]. rewrite Vr, E63. apply Z.mul_le_mono_nonneg_r; lia.
  - assert (m = (2 ^ 52)%positive) as -> by lia.
    unfold r. vm_compute. split; [split; [reflexivity | discriminate] | discriminate].
Qed.

(** X19.  With a 64-bit [T] and a range of [2^63 + 2^11] values or more,
    the largest accepted draw scales to [2^63] or more, which [int64_t]
    cannot hold: the cast is undefined. *)
Theorem next_in_range_wide_cast min max t :
  0 <= min <= max -> max <= T_max U64 ->
  2 ^ 63 + 2 ^ 11 <= max - min + 1 < 2 ^ 64 ->
  Generator.next_in_range U64 min max ((2 ^ 64 - 1025) :: t)
  = Undefined CastOutOfRange.
Proof.
  intros Hmm HT Hw.
  assert (Generator.next_unit U64 ((2 ^ 64 - 1025) :: t)
          = Ok (S754_finite false (2 ^ 53 - 1) (-53)) t) as Hu.
  { cbn [Generator.next_unit].
    replace (T_wrap U64 (2 ^ 64 - 1025)) with (2 ^ 64 - 1025) by reflexivity.
    rewrite unit_of_U64_largest. reflexivity. }
  unfold Generator.next_in_range, bind. rewrite Hu.
  rewrite T_wrap_small by (unfold T_max; cbn [bits]; lia).
  destruct (of_Z_wide (max - min + 1) Hw) as (m & e & -> & G & Hme).
  destruct (fmul_wide m e G Hme) as [Gr Lr].
  destruct (floorZ_good _ Gr) as (k & Ek & _ & _ & Hk).
  unfold cast_int64_floor. rewrite Ek.
  pose proof (pow2_pos (- f_emin) ltac:(unfold f_emin; lia)) as HU.
  assert (2 ^ 63 <= k) as Hbig.
  { assert (2 ^ 63 < k + 1); [|lia].
    apply (Z.mul_lt_mono_pos_r (2 ^ (- f_emin))); lia. }
  replace (k <=? int64_max) with false
    by (symmetry; apply Z.leb_gt; unfold int64_max; lia).
  rewrite andb_false_r. reflexivity.
Qed.

Lemma next_in_range_wide_cast_witness :
  Generator.next_in_range U64 0 (2 ^ 64 - 2) [2 ^ 64 - 1025] = Undefined CastOutOfRange.
Proof.
  apply (next_in_range_wide_cast 0 (2 ^ 64 - 2) []);
    [lia | unfold T_max; cbn [bits]; lia | lia].
Defined.
(** ** next_in_crange with equal bounds *)

(** With [min = max] every candidate [(max - min) * u + min] is [max]
    again. *)
Lemma crange_same_candidate a u :
  valid a -> good u -> feqb (fadd (fmul (fsub a a) u) a) a = true.
Proof.
  intros Va Gu.
  destruct a as [s| | |s m e]; try contradiction.
  - destruct s, u as [[]| | |[] mu eu]; try contradiction; reflexivity.
  - assert (fsub (S754_finite s m e) (S754_finite s m e) = S754_zero false) as ->.
    { unfold fsub, SFsub. cbv zeta. now rewrite Z.sub_diag. }
    assert (exists z, fmul (S754_zero false) u = S754_zero z) as [z ->].
    { destruct u as [su| | |su mu eu]; try contradiction; cbn; eauto. }
    cbn [fadd SFadd]. now apply feqb_refl.
Qed.

Lemma crange_loop_same T a (Va : valid a) fuel :
  forall x t, feqb x a = true -> Generator.crange_loop T fuel a a x t = Starved.
Proof.
  induction fuel as [|fuel IH]; intros x t Hx; cbn [Generator.crange_loop]; rewrite Hx;
    [reflexivity|].
  pose proof (next_unit_no_throw T t) as Hnu.
  destruct (Generator.next_unit T t) as [u rest| | |] eqn:Eu; try contradiction;
    [|reflexivity].
  apply IH. apply crange_same_candidate; [exact Va|].
  now apply (next_unit_below_one T t u rest).
Qed.

(** X14.  [next_in_crange(a, a)] with a finite [a] never returns: the loop asks
    for draws as long as there are any. *)
Theorem next_in_crange_equal_bounds T a t :
  valid a -> Generator.next_in_crange T a a t = Starved.
Proof.
  intros Va. unfold Generator.next_in_crange.
  apply crange_loop_same; [exact Va | now apply feqb_refl].
Qed.

Lemma next_in_crange_equal_bounds_witness :
  Generator.next_in_crange U32 (of_Z 3) (of_Z 3) [1; 2; 3; 4; 5] = Starved.
Proof.
  apply (next_in_crange_equal_bounds U32 (of_Z 3) [1; 2; 3; 4; 5]).
  apply good_valid, of_Z_exact. lia.
Defined.

(** ** next_in_crange: the lower end *)

Lemma fadd_zero_l s x : valid x -> feqb (fadd (S754_zero s) x) x = true.
Proof.
  intros Vx. destruct x as [sx| | |sx mx ex]; try contradiction.
  - destruct s, sx; reflexivity.
  - cbn [fadd SFadd]. now apply feqb_refl.
Qed.

Lemma fadd_zero_l_valid s x : valid x -> valid (fadd (S754_zero s) x).
Proof.
  intros Vx. destruct x as [sx| | |sx mx ex]; try contradiction.
  - destruct s, sx; exact I.
  - exact Vx.
Qed.

(** X15.  A raw draw of 0 makes [next_in_crange] return [min] itself: for
    finite [min < max] whose difference does not overflow, the lower end of
    the range is a possible result. *)
Theorem next_in_crange_zero_draw T min max t :
  valid min -> valid max -> fltb min max = true -> good (fsub max min) ->
  exists x,
    Generator.next_in_crange T min max (0 :: t) = Ok x t /\ feqb x min = true.
Proof.
  intros Hmin Hmax Hlt Gd.
  assert (Generator.next_unit T (0 :: t) = Ok (S754_zero false) t) as Hu
      by (destruct T; reflexivity).
  assert (exists s, fmul (fsub max min) (S754_zero false) = S754_zero s) as [s Es].
  { destruct (fsub max min) as [sd| | |sd md ed]; try contradiction; cbn; eauto. }
  exists (fadd (S754_zero s) min).
  pose proof (fadd_zero_l s min Hmin) as Eq.
  pose proof (fadd_zero_l_valid s min Hmin) as Vx.
  split; [|exact Eq].
  unfold Generator.next_in_crange. cbn [List.length Generator.crange_loop].
  rewrite feqb_refl by exact Hmax. rewrite Hu, Es.
  assert (feqb (fadd (S754_zero s) min) max = false) as ->; [|reflexivity].
  destruct (feqb (fadd (S754_zero s) min) max) eqn:E; [|reflexivity].
  apply (SFeqb_SV _ _ Vx Hmax) in E.
  apply (SFeqb_SV _ _ Vx Hmin) in Eq.
  apply (SFltb_SV _ _ Hmin Hmax) in Hlt. lia.
Qed.

Lemma next_in_crange_zero_draw_witness :
  exists x,
    Generator.next_in_crange U64 (of_Z (-3)) (of_Z 4) [0; 17] = Ok x [17]
    /\ feqb x (of_Z (-3)) = true.
Proof.
  apply (next_in_crange_zero_draw U64 (of_Z (-3)) (of_Z 4) [17]).
  - vm_compute. split; [reflexivity | discriminate].
  - vm_compute. split; [reflexivity | discriminate].
  - reflexivity.
  - vm_compute. split; [reflexivity | discriminate].
Defined.

(** ** next_in_crange with the bounds swapped *)

Lemma binary_round_aux_opp m e l :
  binary_round_aux prec emax true m e l
  = SFopp (binary_round_aux prec emax false m e l).
Proof.
  unfold binary_round_aux.
  destruct (shr_fexp prec emax m e l) as [mrs e'].
  destruct (shr_fexp prec emax _ e' loc_Exact) as [mrs'' e''].
  destruct (shr_m mrs'') as [|p|p]; try reflexivity.
  destruct (e'' <=? emax - prec); reflexivity.
Qed.

Lemma SFopp_involutive x : SFopp (SFopp x) = x.
Proof. destruct x as [[]|[]| |[] ? ?]; reflexivity. Qed.

Lemma fmul_opp_l p u : fmul (SFopp p) u = SFopp (fmul p u).
Proof.
  destruct p as [sp|sp| |sp mp ep], u as [su|su| |su mu eu];
    try reflexivity; cbn [fmul SFmul SFopp];
    try (destruct sp, su; reflexivity).
  destruct sp, su; cbn [negb xorb];
    rewrite ?binary_round_aux_opp, ?SFopp_involutive; reflexivity.
Qed.

Lemma normalize_opp z e :
  z <> 0 ->
  binary_normalize prec emax (- z) e false
  = SFopp (binary_normalize prec emax z e false).
Proof.
  intros Hz. destruct z as [|p|p]; [contradiction| |]; cbn [Z.opp binary_normalize].
  - apply binary_round_opp.
  - now rewrite binary_round_opp, SFopp_involutive.
Qed.

(** [a - b] is the opposite of [b - a] for finite [a <> b]. *)
Lemma fsub_anti a b :
  valid a -> valid b -> SV a <> SV b -> fsub a b = SFopp (fsub b a).
Proof.
  intros Ha Hb Hne.
  destruct a as [sa| | |sa ma ea]; try contradiction;
    destruct b as [sb| | |sb mb eb]; try contradiction.
  - reflexivity.
  - cbn [fsub SFsub SFopp]. now rewrite Bool.negb_involutive.
  - pose proof (valid_exponent _ _ _ Ha). pose proof (valid_exponent _ _ _ Hb).
    unfold fsub, SFsub. cbv zeta. rewrite (Z.min_comm eb ea).
    set (ez := Z.min ea eb).
    set (za := cond_Zopp sa (Z.pos (fst (shl_align ma ea ez)))).
    set (zb := cond_Zopp sb (Z.pos (fst (shl_align mb eb ez)))).
    replace (za - zb) with (- (zb - za)) by lia.
    apply normalize_opp. intros C.
    assert (za * 2 ^ (ez - f_emin) = zb * 2 ^ (ez - f_emin)) as E
        by (f_equal; lia).
    unfold za, zb in E. rewrite !aligned_value in E by (unfold ez; lia).
    contradiction.
Qed.

(** One turn of the loop with [max < min]: the candidate lies in
    [[max, min]]. *)
Lemma crange_candidate_swapped min max u :
  valid min -> valid max -> SV max < SV min -> good (fsub min max) ->
  good u -> V u < 2 ^ (- f_emin) ->
  let x := fadd (fmul (fsub max min) u) min in
  valid x /\ SV max <= SV x <= SV min.
Proof.
  intros Hmin Hmax Hlt Gd Gu Lu x. unfold x.
  rewrite (fsub_anti max min Hmax Hmin ltac:(lia)), fmul_opp_l.
  destruct (fsub_pos min max Hmin Hmax Hlt) as [Inf | (_ & _ & Hex & Hup)].
  { rewrite Inf in Gd. contradiction. }
  destruct (fmul_unit u (fsub min max) Gu Lu Gd) as (Gp & Lp & Lp').
  rewrite <- fmul_comm in Gp, Lp, Lp'.
  set (p := fmul (fsub min max) u) in *.
  assert (V p <= SV min - SV max) as Hp.
  { destruct Hex as [E | Hbig]; [lia|].
    specialize (Lp' Hbig).
    destruct (Z.le_gt_cases (V p) (SV min - SV max)) as [|C]; [assumption|].
    specialize (Hup p Gp ltac:(lia)). lia. }
  destruct (good_valid p Gp) as [Vp Ep].
  pose proof (V_nonneg p).
  apply fadd_between; try assumption; [now apply valid_opp|].
  rewrite SV_opp, Ep. lia.
Qed.

Lemma crange_loop_swapped T min max :
  valid min -> valid max -> SV max < SV min -> good (fsub min max) ->
  forall fuel x0 t0 x t',
    valid x0 /\ SV max <= SV x0 <= SV min ->
    Generator.crange_loop T fuel min max x0 t0 = Ok x t' ->
    feqb x max = false /\ valid x /\ SV max <= SV x <= SV min.
Proof.
  intros Hmin Hmax Hlt Gd.
  induction fuel as [|fuel IH]; intros x0 t0 x t' Hx0; cbn [Generator.crange_loop];
    destruct (feqb x0 max) eqn:E; try discriminate.
  - intros [= <- <-]. split; [exact E | exact Hx0].
  - destruct (Generator.next_unit T t0) as [u rest|e rest|u|] eqn:Hu; try discriminate.
    apply IH.
    destruct (next_unit_below_one _ _ _ _ Hu) as [Gu Lu].
    now apply crange_candidate_swapped.
  - intros [= <- <-]. split; [exact E | exact Hx0].
Qed.

(** X16.  Called with [max < min] (both finite, the difference not
    overflowing), [next_in_crange] still returns a value between the two:
    above [max], which it excludes, and up to [min]. *)
Theorem next_in_crange_swapped_bounds T min max t x t' :
  valid min -> valid max -> fltb max min = true -> good (fsub min max) ->
  Generator.next_in_crange T min max t = Ok x t' ->
  fltb max x = true /\ fleb x min = true.
Proof.
  intros Hmin Hmax Hlt Gd Hrun.
  apply (SFltb_SV max min Hmax Hmin) in Hlt.
  destruct (crange_loop_swapped T min max Hmin Hmax Hlt Gd _ max t x t'
              ltac:(split; [exact Hmax | lia]) Hrun) as (Hne & Hx & Hlo & Hhi).
  unfold fleb, fltb. split.
  - apply (SFltb_SV max x Hmax Hx).
    destruct (Z.eq_dec (SV x) (SV max)) as [E|]; [|lia].
    apply (SFeqb_SV x max Hx Hmax) in E. unfold feqb in Hne. congruence.
  - now apply (SFleb_SV x min Hx Hmin).
Qed.

Lemma next_in_crange_swapped_bounds_witness :
  exists x,
    Generator.next_in_crange U32 (of_Z 2) (of_Z (-1)) [2 ^ 31] = Ok x []
    /\ fltb (of_Z (-1)) x = true /\ fleb x (of_Z 2) = true.
Proof.
  eexists. split; [vm_compute; reflexivity|].
  apply (next_in_crange_swapped_bounds U32 (of_Z 2) (of_Z (-1)) [2 ^ 31] _ []).
  - vm_compute. split; [reflexivity | discriminate].
  - vm_compute. split; [reflexivity | discriminate].
  - reflexivity.
  - vm_compute. split; [reflexivity | discriminate].
  - vm_compute. reflexivity.
Defined.
(** ** Weighted choice: weights whose sum leaves the weight type *)

Lemma cumulate_int_overflow ws :
  Forall (fun w => 0 <= w < 2 ^ 31) ws ->
  forall prev, 0 <= prev < 2 ^ 31 -> 2 ^ 31 <= prev + total ws ->
  cumulate (W := Z) prev ws = None.
Proof.
  induction 1 as [|w ws Hw _ IH]; intros prev Hp Ht.
  - cbn in Ht. lia.
  - rewrite total_cons in Ht. cbn [cumulate w_add int_Weight]. unfold in_int.
    destruct (Z.ltb_spec (prev + w) (2 ^ 31)) as [Hlt | Hge].
    + replace (- 2 ^ 31 <=? prev + w) with true by (symmetry; apply Z.leb_le; lia).
      cbn [andb]. rewrite IH by lia. reflexivity.
    + now rewrite andb_false_r.
Qed.

(** X17.  [int] weights whose total does not fit [int]: the running sum
    overflows while the cumulative weights are filled, before anything is
    drawn. *)
Theorem choice_weighted_int_overflow T {A} (s : list A) (ws : list Z) t :
  List.length s = List.length ws -> s <> [] ->
  Forall (fun w => 0 <= w < 2 ^ 31) ws -> 2 ^ 31 <= total ws ->
  Generator.choice_weighted T s ws t = Undefined SignedOverflow.
Proof.
  intros El Hs Hw Ht.
  rewrite choice_weighted_valid by assumption.
  cbn [w_zero int_Weight]. rewrite cumulate_int_overflow; [reflexivity | assumption | lia | lia].
Qed.

Lemma choice_weighted_int_overflow_witness :
  Generator.choice_weighted U32 [1; 2] [2 ^ 30; 2 ^ 30] [5] = Undefined SignedOverflow.
Proof.
  apply (choice_weighted_int_overflow U32 [1; 2] [2 ^ 30; 2 ^ 30] [5]).
  - reflexivity.
  - discriminate.
  - repeat constructor; lia.
  - cbn. lia.
Defined.

Lemma fltb_overflow_false x c :
  good x -> fltb (fmul x (S754_infinity false)) c = false.
Proof.
  intros G. destruct x as [s| | |s m e]; try contradiction.
  - reflexivity.
  - destruct s; try contradiction. destruct c as [[]|[]| |[] ? ?]; reflexivity.
Qed.

(** X18.  [real_t] weights whose total overflows to infinity: the scaled draw
    is infinite (or not a number), no cumulative weight exceeds it, and the
    element one past the end is read. *)
Theorem choice_weighted_infinite_total T {A} (s : list A) (ws : list real_t) t x t' :
  List.length s = List.length ws -> s <> [] ->
  last (rsums f_zero ws) f_zero = S754_infinity false ->
  Generator.next_unit T t = Ok x t' ->
  Generator.choice_weighted T s ws t
  = Undefined (OutOfBounds (Z.of_nat (List.length s))).
Proof.
  intros El Hs Hinf Hx.
  destruct (next_unit_below_one _ _ _ _ Hx) as [Gx _].
  rewrite choice_weighted_valid by assumption.
  cbn [w_zero w_real real_Weight]. rewrite cumulate_real, Hx, Hinf.
  rewrite upper_bound_none.
  - rewrite rsums_length, <- El. apply deref_end.
  - intros i _. unfold exceeds. cbn [w_real real_Weight].
    now apply fltb_overflow_false.
Qed.

Lemma choice_weighted_infinite_total_witness :
  let big := S754_finite false 9007199254740991 971 in
  Generator.choice_weighted U32 [1; 2] [big; big] [5] = Undefined (OutOfBounds 2).
Proof.
  intro big.
  apply (choice_weighted_infinite_total U32 [1; 2] [big; big] [5]
                                        (Generator.unit_of U32 5) []).
  - reflexivity.
  - discriminate.
  - vm_compute; reflexivity.
  - reflexivity.
Defined.
